(** * Hydraulic head profiles along a pipeline: the numeric engine of
      [src/fluido.py], embedded and verified.

    Numbers.  The Python code computes on IEEE doubles.  For what the
    code computes, this development idealises them as the real numbers of
    the Standard Library: every arithmetic operation is exact, so a
    statement "within 1e-9" is proved as an exact equality (or refuted by
    an exact gap larger than 1e-9), and rounding, NaN and infinities are
    outside that model.  For what the forward generator decides (where it
    puts a pump, and how many), rounding matters: module [Float64] embeds
    that generator again on binary64 doubles, and the statements about
    its decisions are made there.

    Errors.  [math.log10], [math.sqrt], [/] and [** -2] raise on arguments
    outside their domain; they are modelled as partial operations returning
    [option R], and every function that reaches them returns an [option]. *)

From Stdlib Require Import Reals Lra Lia List Arith Bool Sorted Permutation.
From Stdlib Require Floats.
Import ListNotations.
Open Scope R_scope.

(** ** Partial arithmetic and comparisons *)

Module Py.

Definition bind {A B : Type} (o : option A) (k : A -> option B) : option B :=
  match o with
  | Some a => k a
  | None => None
  end.

Definition Rltb (a b : R) : bool := if Rlt_dec a b then true else false.
Definition Rleb (a b : R) : bool := if Rle_dec a b then true else false.
Definition Reqb (a b : R) : bool := if Req_dec_T a b then true else false.

(** [a / b]: ZeroDivisionError when [b] is zero. *)
Definition div (a b : R) : option R :=
  if Reqb b 0 then None else Some (a / b).

(** [math.sqrt]: ValueError on a negative argument. *)
Definition sqrt (a : R) : option R :=
  if Rleb 0 a then Some (R_sqrt.sqrt a) else None.

(** [math.log10]: ValueError on a non-positive argument. *)
Definition log10 (a : R) : option R :=
  if Rltb 0 a then Some (ln a / ln 10) else None.

(** [y ** -2] on floats: ZeroDivisionError when [y] is zero. *)
Definition pow_neg2 (y : R) : option R :=
  if Reqb y 0 then None else Some (/ (y * y)).

(** [l[-1]] and [l[0]] on a list known to be non-empty.  On an empty list
    the code raises IndexError; the statements that reach these on a
    list of the caller assume it non-empty. *)
Definition last_ (l : list R) : R := last l 0.
Definition first_ (l : list R) : R := hd 0 l.

End Py.

Notation "x <- c1 ;; c2" := (Py.bind c1 (fun x => c2))
  (at level 61, c1 at next level, right associativity).

(** ** Constants ([src/constantes.py]) *)

Definition G : R := 9.81.

(** ** Terrain: the parsed rows of the two-column CSV *)

Definition terrain := list (R * R).
Definition col_x (t : terrain) : list R := map fst t.
Definition col_z (t : terrain) : list R := map snd t.

(** ** [np.linspace(start, stop, num)] with the default [endpoint=True]:
    [arange(num) * step + start] with [step = (stop - start) / (num - 1)],
    and the last sample overwritten by [stop]. *)

Definition linspace (start stop : R) (num : nat) : list R :=
  match num with
  | O => []
  | S O => [start]
  | S (S _ as d) =>
      map (fun i => INR i * ((stop - start) / INR d) + start) (seq 0 d)
      ++ [stop]
  end.

(** ** [interpolar_perfil] *)

Fixpoint interpolar_loop (i : nat) (x z : list R) (num_puntos_extra : nat)
  : list R * list R :=
  match x, z with
  | x_start :: ((x_end :: _) as x'), z_start :: ((z_end :: _) as z') =>
      let xs := linspace x_start x_end (num_puntos_extra + 2) in
      let zs := linspace z_start z_end (num_puntos_extra + 2) in
      let xs := if (0 <? i)%nat then tl xs else xs in
      let zs := if (0 <? i)%nat then tl zs else zs in
      let '(x_interp, z_interp) := interpolar_loop (S i) x' z' num_puntos_extra in
      (xs ++ x_interp, zs ++ z_interp)
  | _, _ => ([], [])
  end.

Definition interpolar_perfil (P_geo : terrain) (num_puntos_extra : nat)
  : list R * list R :=
  interpolar_loop 0 (col_x P_geo) (col_z P_geo) num_puntos_extra.

(** ** [colebrook] *)

(** One pass of the loop body: the new [f] from the old one. *)
Definition colebrook_step (Re D epsilon f : R) : option R :=
  a <- Py.div epsilon (3.7 * D) ;;
  s <- Py.sqrt f ;;
  b <- Py.div 2.51 (Re * s) ;;
  l <- Py.log10 (a + b) ;;
  Py.pow_neg2 (-2 * l).

Fixpoint colebrook_loop (Re D epsilon tol : R) (fuel : nat) (f : R) : option R :=
  match fuel with
  | O => Some f
  | S fuel' =>
      let f_old := f in
      f <- colebrook_step Re D epsilon f ;;
      if Py.Rltb (Rabs (f - f_old)) tol then Some f
      else colebrook_loop Re D epsilon tol fuel' f
  end.

Definition colebrook_with (Re D epsilon tol : R) (max_iter : nat) : option R :=
  colebrook_loop Re D epsilon tol max_iter 0.02.

Definition colebrook (Re D epsilon : R) : option R :=
  colebrook_with Re D epsilon 1e-6 100.

(** The expression [64 / Re if Re < 2000 else colebrook(Re, D, epsilon)]
    that every generator evaluates. *)
Definition friction_factor (Re D epsilon : R) : option R :=
  if Py.Rltb Re 2000 then Py.div 64 Re else colebrook Re D epsilon.

(** ** [np.interp(x, xp, fp)]

    NumPy locates the segment [j] with [xp[j] <= x < xp[j+1]] and returns
    [slope * (x - xp[j]) + fp[j]]; it clamps to [fp[0]] below [xp[0]] and to
    [fp[-1]] above [xp[-1]], and returns [fp[j]] when [x] is [xp[j]] or [j]
    is the last index.  NumPy documents its result as meaningless unless
    [xp] is non-decreasing, and so is this model: the scan below finds the
    first segment whose right end exceeds [x], which is NumPy's segment
    exactly when [xp] is sorted. *)

Fixpoint interp_scan (x : R) (xp fp : list R) : R :=
  match xp, fp with
  | x0 :: ((x1 :: _) as xp'), f0 :: ((f1 :: _) as fp') =>
      if Py.Rltb x x1 then
        if Py.Reqb x0 x then f0
        else (f1 - f0) / (x1 - x0) * (x - x0) + f0
      else interp_scan x xp' fp'
  | _, f0 :: _ => f0
  | _, [] => 0
  end.

Definition interp (x : R) (xp fp : list R) : R :=
  if Py.Rltb (Py.last_ xp) x then Py.last_ fp
  else if Py.Rltb x (Py.first_ xp) then Py.first_ fp
  else interp_scan x xp fp.

(** ** [sorted(zip(x_final, h_final))]

    Python compares the tuples lexicographically: by position, and by head
    when the positions are equal.  That order is total and antisymmetric,
    so the sorted list is unique and any sorting algorithm models it. *)

Abbreviation sample := (R * R)%type.

Definition sample_leb (a b : sample) : bool :=
  Py.Rltb (fst a) (fst b) || (Py.Reqb (fst a) (fst b) && Py.Rleb (snd a) (snd b)).

Fixpoint insert_sorted (a : sample) (l : list sample) : list sample :=
  match l with
  | [] => [a]
  | b :: l' => if sample_leb a b then a :: b :: l' else b :: insert_sorted a l'
  end.

Fixpoint sorted (l : list sample) : list sample :=
  match l with
  | [] => []
  | a :: l' => insert_sorted a (sorted l')
  end.

(** [zip] is [List.combine]; unzipping is the pair of projections. *)
Definition zip (xs hs : list R) : list sample := combine xs hs.

(** ** List primitives of the insertion code *)

(** [x in l] on floats. *)
Definition contains (x : R) (l : list R) : bool := existsb (Py.Reqb x) l.

(** [l.index(x)]: the first index holding [x].  (ValueError when absent;
    every call below searches for a value that was just put in the list,
    see [index_lt_length].) *)
Fixpoint index (x : R) (l : list R) : nat :=
  match l with
  | [] => O
  | y :: l' => if Py.Reqb y x then O else S (index x l')
  end.

(** [l.insert(i, v)] for [i <= len(l)]. *)
Definition list_insert (i : nat) (v : R) (l : list R) : list R :=
  firstn i l ++ v :: skipn i l.

(** [for i in range(k, len(l)): l[i] += head]. *)
Definition add_from (k : nat) (head : R) (l : list R) : list R :=
  firstn k l ++ map (fun h => h + head) (skipn k l).

(** [[h + delta for h in l]]. *)
Definition shift (delta : R) (l : list R) : list R :=
  map (fun h => h + delta) l.

(** ** Records *)

Record fluido := { densidad : R; viscosidad : R; velocidad : R }.

(** [rugosidad] is read with [tuberia.get('rugosidad', 0.0002)]. *)
Record tuberia := { diametro : R; rugosidad : option R }.

Definition get_rugosidad (t : tuberia) : R :=
  match rugosidad t with Some e => e | None => 0.0002 end.

(** A pump dictionary [{'x': ..., 'head': ...}]; [head] may be [None]. *)
Record bomba := { b_x : R; b_head : option R }.

(** ** The pump jump, as written twice in the source
    (lines 169-198 of [generar_perfil_presion] and lines 214-235 of
    [agregar_bomba] are the same statements). *)

(** The append-if-absent and re-sort steps (lines 170-178 and 215-222). *)
Definition reordenar (x_final h_final : list R) (x_b : R) : list R * list R :=
  (* if x_b not in x_final: append the interpolated sample *)
  let '(x_final, h_final) :=
    if contains x_b x_final then (x_final, h_final)
    else (x_final ++ [x_b], h_final ++ [interp x_b x_final h_final]) in
  (* x_final, h_final = zip^-1 (sorted (zip (x_final, h_final))) *)
  let s := sorted (zip x_final h_final) in
  (map fst s, map snd s).

Definition insertar_salto (x_final h_final : list R) (x_b head : R)
  : list R * list R :=
  let '(x_final, h_final) := reordenar x_final h_final x_b in
  let idx_bomba := index x_b x_final in
  let h_antes :=
    if (0 <? idx_bomba)%nat then interp (x_b - 1e-6) x_final h_final
    else nth idx_bomba h_final 0 in
  let x_final := list_insert idx_bomba x_b x_final in
  let h_final := list_insert idx_bomba h_antes h_final in
  (* h_final[idx_bomba + 1] += head, then every later index *)
  let h_final := add_from (idx_bomba + 1) head h_final in
  (x_final, h_final).

(** ** [agregar_bomba] *)

Definition agregar_bomba (x_final h_final : list R) (x_b head : R)
  : list R * list R :=
  let h_final_original := Py.last_ h_final in
  let '(x_final, h_final) := insertar_salto x_final h_final x_b head in
  let delta := h_final_original - Py.last_ h_final in
  (x_final, shift delta h_final).

(** ** Friction loss of one terrain segment (Darcy-Weisbach) *)

Definition perdida (f D v dx dz : R) : R :=
  let L_real := R_sqrt.sqrt (dx * dx + dz * dz) in
  f * (L_real / D) * (v * v) / (2 * G).

(** Reynolds number and friction factor, the common prologue of the three
    generators.  [D] is not zero once this has succeeded, so the divisions
    by [D] in the loops cannot raise. *)
Definition factor_de_friccion (fl : fluido) (tb : tuberia) : option R :=
  Re <- Py.div (densidad fl * velocidad fl * diametro tb) (viscosidad fl) ;;
  friction_factor Re (diametro tb) (get_rugosidad tb).

(** ** [generar_perfil_presion] *)

(** The reverse accumulation: the heads appended after the first one. *)
Fixpoint acumular_reversa (f D v : R) (x_rev z_rev : list R) (h_last : R)
  : list R :=
  match x_rev, z_rev with
  | xa :: ((xb :: _) as x'), za :: ((zb :: _) as z') =>
      let hf := perdida f D v (xa - xb) (za - zb) in
      let h := h_last + hf in
      h :: acumular_reversa f D v x' z' h
  | _, _ => []
  end.

Definition perfil_sin_bombas (f D v : R) (x z : list R) (presion_final_m : R)
  : list R * list R :=
  let x_rev := rev x in
  let z_rev := rev z in
  let h0 := presion_final_m + Py.first_ z_rev in
  let h_total_rev := h0 :: acumular_reversa f D v x_rev z_rev h0 in
  (rev x_rev, rev h_total_rev).

(** [sorted(bombas, key=lambda b: b['x'])]: stable, by position only. *)
Fixpoint insert_bomba (b : bomba) (l : list bomba) : list bomba :=
  match l with
  | [] => [b]
  | c :: l' =>
      if Py.Rltb (b_x c) (b_x b) then c :: insert_bomba b l' else b :: c :: l'
  end.

Definition sorted_bombas (l : list bomba) : list bomba :=
  fold_right insert_bomba [] l.

(** The pump loop of [generar_perfil_presion]; a pump whose head is [None]
    raises TypeError at [+= head]. *)
Fixpoint insertar_bombas (bombas : list bomba) (x_final h_final : list R)
  : option (list R * list R) :=
  match bombas with
  | [] => Some (x_final, h_final)
  | b :: rest =>
      head <- b_head b ;;
      let '(x_final, h_final) := insertar_salto x_final h_final (b_x b) head in
      insertar_bombas rest x_final h_final
  end.

Definition generar_perfil_presion (P_geo : terrain) (fl : fluido)
  (tb : tuberia) (presion_final_m : R) (bombas : list bomba)
  : option (list R * list R) :=
  let v := velocidad fl in
  let x := col_x P_geo in
  let z := col_z P_geo in
  let D := diametro tb in
  f <- factor_de_friccion fl tb ;;
  let '(x_list, h_list) := perfil_sin_bombas f D v x z presion_final_m in
  let bombas := sorted_bombas bombas in
  r <- insertar_bombas bombas x_list h_list ;;
  let '(x_final, h_final) := r in
  let delta := (presion_final_m + Py.last_ z) - Py.last_ h_final in
  Some (x_final, shift delta h_final).

(** ** [generar_perfil_presion_con_bomba_desconocida] *)

Definition es_conocida (b : bomba) : bool :=
  match b_head b with Some _ => true | None => false end.

(** The loop over [bombas_conocidas]; returns the profile and the entries
    appended to [bombas_result]. *)
Fixpoint insertar_conocidas (bombas : list bomba) (x_final h_final : list R)
  : list R * list R * list bomba :=
  match bombas with
  | [] => (x_final, h_final, [])
  | b :: rest =>
      match b_head b with
      | Some head =>
          let '(x_final, h_final) := agregar_bomba x_final h_final (b_x b) head in
          let '(x_final, h_final, res) := insertar_conocidas rest x_final h_final in
          (x_final, h_final, {| b_x := b_x b; b_head := Some head |} :: res)
      | None => insertar_conocidas rest x_final h_final
      end
  end.

Definition generar_perfil_presion_con_bomba_desconocida (P_geo : terrain)
  (fl : fluido) (tb : tuberia) (presion_inicial_m presion_final_m : R)
  (bombas : list bomba) : option (list R * list R * list bomba) :=
  let v := velocidad fl in
  let x := col_x P_geo in
  let z := col_z P_geo in
  let D := diametro tb in
  f <- factor_de_friccion fl tb ;;
  let '(x_list, h_list) := perfil_sin_bombas f D v x z presion_final_m in
  let bombas_conocidas := filter es_conocida bombas in
  let '(x_final, h_final, bombas_result) :=
    insertar_conocidas bombas_conocidas x_list h_list in
  let h_deseada_inicial := presion_inicial_m + Py.first_ z in
  let delta_inicial := Py.first_ h_final - h_deseada_inicial in
  let bombas_desconocida := filter (fun b => negb (es_conocida b)) bombas in
  match bombas_desconocida with
  | b :: _ =>
      let head := delta_inicial in
      let '(x_final, h_final) := agregar_bomba x_final h_final (b_x b) head in
      Some (x_final, h_final,
            bombas_result ++ [{| b_x := b_x b; b_head := Some head |}])
  | [] => Some (x_final, h_final, bombas_result)
  end.

(** ** [generar_perfil_con_bombas_automaticas]

    Here the margin tests are decided on real numbers; this model serves
    the statements about the heads computed.  Module [Float64] decides
    the tests as the code does, on doubles. *)

(** The walk from the second terrain point on: the samples and pumps
    appended to [x_final], [h_final] and [bombas], given the running head
    [h_final[-1]]. *)
Fixpoint recorrido (f D v altura_seguridad head_bomba : R)
  (x z : list R) (h_last : R) : list R * list R * list bomba :=
  match x, z with
  | xa :: ((xb :: _) as x'), za :: ((zb :: _) as z') =>
      let hf := perdida f D v (xb - xa) (zb - za) in
      let h_nueva := h_last - hf in
      if Py.Rleb (h_nueva - zb) altura_seguridad then
        let h_antes_bomba := h_nueva in
        let h_nueva := h_antes_bomba + head_bomba in
        let '(xs, hs, bs) :=
          recorrido f D v altura_seguridad head_bomba x' z' h_nueva in
        (xb :: xb :: xs, h_antes_bomba :: h_nueva :: hs,
         {| b_x := xb; b_head := Some head_bomba |} :: bs)
      else
        let '(xs, hs, bs) :=
          recorrido f D v altura_seguridad head_bomba x' z' h_nueva in
        (xb :: xs, h_nueva :: hs, bs)
  | _, _ => ([], [], [])
  end.

Definition generar_perfil_con_bombas_automaticas (P_geo : terrain)
  (fl : fluido) (tb : tuberia)
  (presion_inicial_m altura_seguridad head_bomba : R)
  (num_puntos_extra : option nat)
  : option (list R * list R * list bomba) :=
  let '(x, z) :=
    match num_puntos_extra with
    | None => (col_x P_geo, col_z P_geo)
    | Some k => interpolar_perfil P_geo k
    end in
  let v := velocidad fl in
  let D := diametro tb in
  f <- factor_de_friccion fl tb ;;
  let h0 := presion_inicial_m + Py.first_ z in
  let '(x_ini, h_ini, b_ini) :=
    if Py.Rleb (h0 - Py.first_ z) altura_seguridad then
      ([Py.first_ x; Py.first_ x], [h0; h0 + head_bomba],
       [{| b_x := Py.first_ x; b_head := Some head_bomba |}])
    else ([Py.first_ x; Py.first_ x], [h0; h0], []) in
  let '(xs, hs, bs) :=
    recorrido f D v altura_seguridad head_bomba x z (Py.last_ h_ini) in
  Some (x_ini ++ xs, h_ini ++ hs, b_ini ++ bs).

(** ** [calcular_estado_final_tuberia_con_perdida]

    The two dictionaries of this function have other keys than those of
    the generators.  Keys read with [d['k']] are fields; keys read with
    [d.get('k', default)] are optional fields. *)

Record fluido_tramo := {
  presion : R;
  ft_velocidad : R;
  ft_densidad : R;
  altura : R;
  ft_viscosidad : option R
}.

Record tuberia_tramo := {
  diametro_inicial : R;
  diametro_final : R;
  longitud : option R;
  altura_final : R;
  tt_rugosidad : option R
}.

(** The dictionary returned. *)
Record estado_final := {
  presion_final : R;
  velocidad_final : R;
  altura_presion_final : R;
  perdida_carga : R;
  numero_reynolds : R;
  factor_friccion : R
}.

Definition get_default (o : option R) (d : R) : R :=
  match o with Some v => v | None => d end.

Definition calcular_estado_final_tuberia_con_perdida
  (fluido : fluido_tramo) (tuberia : tuberia_tramo) : option estado_final :=
  let P1 := presion fluido in
  let v1 := ft_velocidad fluido in
  let rho := ft_densidad fluido in
  let z1 := altura fluido in
  let mu := get_default (ft_viscosidad fluido) 0.001 in
  let D1 := diametro_inicial tuberia in
  let D2 := diametro_final tuberia in
  let L := get_default (longitud tuberia) 10.0 in
  let z2 := altura_final tuberia in
  let epsilon := get_default (tt_rugosidad tuberia) 0.0002 in
  (* continuity *)
  let A1 := PI * (D1 * D1) / 4 in
  let A2 := PI * (D2 * D2) / 4 in
  q <- Py.div A1 A2 ;;
  let v2 := v1 * q in
  (* Reynolds number of the final section *)
  Re <- Py.div (rho * v2 * D2) mu ;;
  (* friction factor *)
  f <- friction_factor Re D2 epsilon ;;
  (* Darcy-Weisbach loss *)
  ld <- Py.div L D2 ;;
  let hL := f * ld * (v2 * v2) / (2 * G) in
  (* Bernoulli with losses *)
  p1 <- Py.div P1 (rho * G) ;;
  let head1 := p1 + (v1 * v1) / (2 * G) + z1 in
  let head2 := head1 - hL in
  let P2 := rho * G * (head2 - (v2 * v2) / (2 * G) - z2) in
  altura_presion_final <- Py.div P2 (rho * G) ;;
  Some {| presion_final := P2;
          velocidad_final := v2;
          altura_presion_final := altura_presion_final;
          perdida_carga := hL;
          numero_reynolds := Re;
          factor_friccion := f |}.

(** ** Auxiliary notions used by the statements *)

(** One column of [interpolar_loop]: the two columns are densified by the
    same statements, independently of each other. *)
Fixpoint densify (i : nat) (l : list R) (k : nat) : list R :=
  match l with
  | a :: ((b :: _) as l') =>
      (if (0 <? i)%nat then tl (linspace a b (k + 2)) else linspace a b (k + 2))
      ++ densify (S i) l' k
  | _ => []
  end.

(** Strictly increasing positions. *)
Definition increasing (l : list R) : Prop :=
  forall i, (S i < length l)%nat -> nth i l 0 < nth (S i) l 0.

(** The terrain columns the forward walk runs on. *)
Definition columnas (P_geo : terrain) (num_puntos_extra : option nat)
  : list R * list R :=
  match num_puntos_extra with
  | None => (col_x P_geo, col_z P_geo)
  | Some k => interpolar_perfil P_geo k
  end.

(** ** Sample inputs used to exercise the statements *)

(** A slow, viscous flow: [Re = 1000 * 1 * 0.1 / 1 = 100], laminar. *)
Definition fluido_laminar : fluido :=
  {| densidad := 1000; viscosidad := 1; velocidad := 1 |}.

Definition tubo : tuberia := {| diametro := 0.1; rugosidad := None |}.

Definition terreno_llano : terrain := [(0, 0); (100, 0)].

(** A 10 m pump halfway along the flat terrain. *)
Definition bomba_media : bomba := {| b_x := 50; b_head := Some 10 |}.

(** A known pump of head -1 m at the first terrain point, and a pump of
    unknown head halfway. *)
Definition bombas_con_negativa : list bomba :=
  [ {| b_x := 0; b_head := Some (-1) |}; {| b_x := 50; b_head := None |} ].

(** Number of pumps recorded by a run of the forward generator. *)
Definition num_bombas (r : list R * list R * list bomba) : nat :=
  length (snd r).

(** ** The friction factor as the specification words it

    The right-hand side of the Colebrook relation solved for [f],
    [(-2 * log10 (roughness / (3.7 * diameter)
                  + 2.51 / (reynolds * sqrt f))) ^ -2],
    with its domain of definition: no division by zero, a real square root,
    a logarithm of a positive number, and a non-zero base of the negative
    power. *)
Definition colebrook_rhs (reynolds diameter roughness f : R) : option R :=
  let arg := roughness / (3.7 * diameter)
             + 2.51 / (reynolds * R_sqrt.sqrt f) in
  let y := -2 * (ln arg / ln 10) in
  if Py.Reqb (3.7 * diameter) 0 then None
  else if negb (Py.Rleb 0 f) then None
  else if Py.Reqb (reynolds * R_sqrt.sqrt f) 0 then None
  else if negb (Py.Rltb 0 arg) then None
  else if Py.Reqb y 0 then None
  else Some (/ (y * y)).

(** The iterates [f_0 = 0.02], [f_(n+1) = rhs f_n]. *)
Fixpoint iterate (reynolds diameter roughness : R) (n : nat) : option R :=
  match n with
  | O => Some 0.02
  | S n' =>
      f <- iterate reynolds diameter roughness n' ;;
      colebrook_rhs reynolds diameter roughness f
  end.

(** Iterates [n] and [n+1] differ by less than the tolerance. *)
Definition converged_at (reynolds diameter roughness : R) (n : nat) : Prop :=
  exists a b,
    iterate reynolds diameter roughness n = Some a /\
    iterate reynolds diameter roughness (S n) = Some b /\
    Rabs (b - a) < 1e-6.

(** [frictionFactor_spec Re D eps r]: [r] is [64 / Re] in the laminar
    regime; otherwise [r] is iterate [k+1], where [k+1] is the first
    iteration at which two successive iterates differ by less than [1e-6],
    or the 100th when there is none among the first 100. *)
Definition frictionFactor_spec (reynolds diameter roughness r : R) : Prop :=
  (reynolds < 2000 /\ r = 64 / reynolds) \/
  (~ reynolds < 2000 /\
   exists k, (k < 100)%nat /\
     iterate reynolds diameter roughness (S k) = Some r /\
     (forall n, (n < k)%nat -> ~ converged_at reynolds diameter roughness n) /\
     (converged_at reynolds diameter roughness k \/ S k = 100%nat)).

(** The order of Python tuples on samples: by position, then by head. *)
Definition lex_le (a b : sample) : Prop :=
  fst a < fst b \/ (fst a = fst b /\ snd a <= snd b).

(** A profile whose samples are in tuple order. *)
Definition ordenado (s : list sample) : Prop := StronglySorted lex_le s.

(** The order the specification describes for the re-sort: by position
    only, samples at equal positions keeping their original order (a
    stable insertion sort keyed on the position). *)
Fixpoint insert_by_position (a : sample) (l : list sample) : list sample :=
  match l with
  | [] => [a]
  | b :: l' =>
      if Py.Rleb (fst a) (fst b) then a :: b :: l'
      else b :: insert_by_position a l'
  end.

Definition sorted_by_position (l : list sample) : list sample :=
  fold_right insert_by_position [] l.

(** The append-and-re-sort step as the specification words it: the same
    append, then the sort by position with ties in their original order. *)
Definition reordenar_spec (xs hs : list R) (p : R) : list R * list R :=
  let '(xs, hs) :=
    if contains p xs then (xs, hs)
    else (xs ++ [p], hs ++ [interp p xs hs]) in
  let s := sorted_by_position (zip xs hs) in
  (map fst s, map snd s).

(** [corte xs hs p pre hp post]: the profile [(xs, hs)] cut at position
    [p].  [pre] holds the samples before [p], [post] those from [p] on, and
    [hp] is the head at [p]: that of the first sample at [p] when the
    profile has one (the sample is then left out of [post]), the
    interpolated head otherwise. *)
Definition corte (xs hs : list R) (p : R)
  (pre : list sample) (hp : R) (post : list sample) : Prop :=
  Forall (fun b => fst b < p) pre /\
  Forall (fun b => p <= fst b) post /\
  ordenado (pre ++ (p, hp) :: post) /\
  ((In p xs /\ zip xs hs = pre ++ (p, hp) :: post) \/
   (~ In p xs /\ zip xs hs = pre ++ post /\ hp = interp p xs hs)).

(** The head written on the duplicate sample put before the pump: the
    head at the pump when it is the first sample, the profile read
    [1e-6] before the pump otherwise. *)
Definition altura_antes (pre : list sample) (p hp : R) (post : list sample) : R :=
  match pre with
  | [] => hp
  | _ :: _ =>
      interp (p - 1e-6) (map fst (pre ++ (p, hp) :: post))
        (map snd (pre ++ (p, hp) :: post))
  end.

(** The friction loss of the whole route: the sum of the segment losses,
    in the direction of the flow. *)
Fixpoint perdida_total (f D v : R) (x z : list R) : R :=
  match x, z with
  | xa :: ((xb :: _) as x'), za :: ((zb :: _) as z') =>
      perdida f D v (xb - xa) (zb - za) + perdida_total f D v x' z'
  | _, _ => 0
  end.

(** The heads of a forward walk that meets no pump: each one is the
    previous one less the loss of the segment. *)
Fixpoint caidas (f D v : R) (x z : list R) (h : R) : list R :=
  match x, z with
  | xa :: ((xb :: _) as x'), za :: ((zb :: _) as z') =>
      let h' := h - perdida f D v (xb - xa) (zb - za) in
      h' :: caidas f D v x' z' h'
  | _, _ => []
  end.

(** Every pump of the list carries a head. *)
Definition todas_conocidas (bombas : list bomba) : Prop :=
  Forall (fun b => b_head b <> None) bombas.

(** Each later sample is less than or equal to each earlier one. *)
Definition non_increasing (l : list R) : Prop :=
  forall i j, (i <= j < length l)%nat -> nth j l 0 <= nth i l 0.

(** * The forward generator on IEEE doubles

    Where the code decides (a pump or none at a terrain point) the
    rounding of its double arithmetic can change the outcome, and reading
    its floats as real numbers is no longer faithful.  This module embeds
    [generar_perfil_con_bombas_automaticas] and the functions it calls
    once more, on the binary64 numbers of the kernel: their [+], [-], [*],
    [/], [sqrt] and comparisons are those of IEEE 754, which Python's
    floats and numpy's [float64] scalars follow.

    The terrain holds the doubles the CSV columns are read as.  (A column
    without any decimal point is read as integers, on which Python
    computes exactly; such a column behaves as its doubles do as long as
    the squares of its differences are below 2^53.) *)

Module Float64.
Import PrimFloat.
Local Open Scope float_scope.

(** ** What Python and numpy do on doubles *)

(** The two functions of the C library that the code reaches: [pow],
    behind [**], and [log10].  IEEE 754 does not fix their results (on
    glibc [x ** 2] differs from [x * x] in the last bit for about one
    double in a thousand), so they are taken as they come. *)
Record libm := { c_pow : float -> float -> float; c_log10 : float -> float }.

(** [a / b] on Python floats: ZeroDivisionError when [b == 0.0]. *)
Definition float_div (a b : float) : option float :=
  if b =? 0 then None else Some (a / b).

(** [math.sqrt]: ValueError on a negative argument. *)
Definition math_sqrt (a : float) : option float :=
  if a <? 0 then None else Some (sqrt a).

Section Libm.

Variable L : libm.

(** [iv ** iw] on a Python float, for the two exponents of the source,
    [2] and [-2], after CPython's [float_pow]: a NaN stays; an infinity
    gives [inf] or [0.0]; zero gives [0.0], or ZeroDivisionError for the
    negative exponent; the sign is dropped (the exponent is even); [1.0]
    is returned as such; otherwise the C library computes, and an infinite
    result raises OverflowError. *)
Definition float_pow (iv iw : float) : option float :=
  if iw =? 0 then Some 1
  else if is_nan iv then Some iv
  else if is_infinity iv then Some (if 0 <? iw then abs iv else 0)
  else if iv =? 0 then (if iw <? 0 then None else Some 0)
  else
    let iv := if iv <? 0 then - iv else iv in
    if iv =? 1 then Some 1
    else
      let ix := c_pow L iv iw in
      if is_infinity ix then None else Some ix.

(** [x ** 2] on a numpy [float64] scalar: the C library's [pow]; overflow
    is reported by a warning and the infinity returned. *)
Definition np_pow (x y : float) : float := c_pow L x y.

(** [math.log10]: ValueError on zero, on a negative number and on
    [-inf]; NaN and [inf] are returned. *)
Definition math_log10 (a : float) : option float :=
  if is_nan a then Some a
  else if a <=? 0 then None
  else if a =? infinity then Some a
  else Some (c_log10 L a).

(** ** [np.linspace] and [interpolar_perfil] *)

(** The integer [n] as a double ([np.arange] and the conversion of
    [num - 1]); exact below 2^53. *)
Fixpoint of_nat (n : nat) : float :=
  match n with
  | O => 0
  | S n' => of_nat n' + 1
  end.

(** [np.linspace(start, stop, num)]: [arange(num) * step + start] with
    [step = (stop - start) / (num - 1)], computed as
    [arange(num) / (num - 1) * (stop - start)] when the step is zero, and
    the last sample overwritten by [stop]. *)
Definition linspace (start stop : float) (num : nat) : list float :=
  let delta := stop - start in
  match num with
  | O => []
  | S O => [of_nat 0 * delta + start]
  | S (S _ as d) =>
      let div := of_nat d in
      let step := delta / div in
      let y := map of_nat (seq 0 d) in
      let y :=
        if step =? 0 then map (fun i => i / div * delta) y
        else map (fun i => i * step) y in
      map (fun i => i + start) y ++ [stop]
  end.

Definition terrain := list (float * float).
Definition col_x (t : terrain) : list float := map fst t.
Definition col_z (t : terrain) : list float := map snd t.

Fixpoint interpolar_loop (i : nat) (x z : list float) (num_puntos_extra : nat)
  : list float * list float :=
  match x, z with
  | x_start :: ((x_end :: _) as x'), z_start :: ((z_end :: _) as z') =>
      let xs := linspace x_start x_end (num_puntos_extra + 2) in
      let zs := linspace z_start z_end (num_puntos_extra + 2) in
      let xs := if (0 <? i)%nat then tl xs else xs in
      let zs := if (0 <? i)%nat then tl zs else zs in
      let '(x_interp, z_interp) := interpolar_loop (S i) x' z' num_puntos_extra in
      (xs ++ x_interp, zs ++ z_interp)
  | _, _ => ([], [])
  end.

Definition interpolar_perfil (P_geo : terrain) (num_puntos_extra : nat)
  : list float * list float :=
  interpolar_loop 0 (col_x P_geo) (col_z P_geo) num_puntos_extra.

(** ** Friction factor *)

Record fluido := { densidad : float; viscosidad : float; velocidad : float }.
Record tuberia := { diametro : float; rugosidad : option float }.
Record bomba := { b_x : float; b_head : option float }.

Definition get_rugosidad (t : tuberia) : float :=
  match rugosidad t with Some e => e | None => 0.0002 end.

Definition G : float := 9.81.

Definition colebrook_step (Re D epsilon f : float) : option float :=
  a <- float_div epsilon (3.7 * D) ;;
  s <- math_sqrt f ;;
  b <- float_div 2.51 (Re * s) ;;
  l <- math_log10 (a + b) ;;
  float_pow (-2 * l) (-2).

Fixpoint colebrook_loop (Re D epsilon tol : float) (fuel : nat) (f : float)
  : option float :=
  match fuel with
  | O => Some f
  | S fuel' =>
      let f_old := f in
      f <- colebrook_step Re D epsilon f ;;
      if abs (f - f_old) <? tol then Some f
      else colebrook_loop Re D epsilon tol fuel' f
  end.

Definition colebrook (Re D epsilon : float) : option float :=
  colebrook_loop Re D epsilon 1e-6 100 0.02.

Definition factor_de_friccion (fl : fluido) (tb : tuberia) : option float :=
  Re <- float_div (densidad fl * velocidad fl * diametro tb) (viscosidad fl) ;;
  if Re <? 2000 then float_div 64 Re
  else colebrook Re (diametro tb) (get_rugosidad tb).

(** ** [generar_perfil_con_bombas_automaticas] *)

(** [dx ** 2]: on the columns of the CSV a Python float power, on the
    columns [interpolar_perfil] returns a numpy scalar power. *)
Definition cuadrado (numpy : bool) (d : float) : option float :=
  if numpy then Some (np_pow d 2) else float_pow d 2.

(** The friction loss [hf] of one segment; [L_real] and [hf] are Python
    floats on both paths. *)
Definition perdida (numpy : bool) (f D v dx dz : float) : option float :=
  dx2 <- cuadrado numpy dx ;;
  dz2 <- cuadrado numpy dz ;;
  L_real <- math_sqrt (dx2 + dz2) ;;
  q <- float_div L_real D ;;
  v2 <- float_pow v 2 ;;
  float_div (f * q * v2) (2 * G).

(** The walk from the second terrain point on, as in the exact model;
    an exception in any segment aborts the run. *)
Fixpoint recorrido (numpy : bool) (f D v altura_seguridad head_bomba : float)
  (x z : list float) (h_last : float)
  : option (list float * list float * list bomba) :=
  match x, z with
  | xa :: ((xb :: _) as x'), za :: ((zb :: _) as z') =>
      hf <- perdida numpy f D v (xb - xa) (zb - za) ;;
      let h_nueva := h_last - hf in
      if h_nueva - zb <=? altura_seguridad then
        let h_antes_bomba := h_nueva in
        let h_nueva := h_antes_bomba + head_bomba in
        r <- recorrido numpy f D v altura_seguridad head_bomba x' z' h_nueva ;;
        let '(xs, hs, bs) := r in
        Some (xb :: xb :: xs, h_antes_bomba :: h_nueva :: hs,
              {| b_x := xb; b_head := Some head_bomba |} :: bs)
      else
        r <- recorrido numpy f D v altura_seguridad head_bomba x' z' h_nueva ;;
        let '(xs, hs, bs) := r in
        Some (xb :: xs, h_nueva :: hs, bs)
  | _, _ => Some ([], [], [])
  end.

(** The terrain columns the walk runs on. *)
Definition columnas (P_geo : terrain) (num_puntos_extra : option nat)
  : list float * list float :=
  match num_puntos_extra with
  | None => (col_x P_geo, col_z P_geo)
  | Some k => interpolar_perfil P_geo k
  end.

(** [z[0]] and [x[0]] raise IndexError on an empty column. *)
Definition generar_perfil_con_bombas_automaticas (P_geo : terrain)
  (fl : fluido) (tb : tuberia)
  (presion_inicial_m altura_seguridad head_bomba : float)
  (num_puntos_extra : option nat)
  : option (list float * list float * list bomba) :=
  let x := fst (columnas P_geo num_puntos_extra) in
  let z := snd (columnas P_geo num_puntos_extra) in
  let numpy := match num_puntos_extra with Some _ => true | None => false end in
  let v := velocidad fl in
  let D := diametro tb in
  f <- factor_de_friccion fl tb ;;
  z0 <- hd_error z ;;
  x0 <- hd_error x ;;
  let h0 := presion_inicial_m + z0 in
  let inicio := h0 - z0 <=? altura_seguridad in
  let h1 := if inicio then h0 + head_bomba else h0 in
  let b_ini :=
    if inicio then [{| b_x := x0; b_head := Some head_bomba |}] else [] in
  r <- recorrido numpy f D v altura_seguridad head_bomba x z h1 ;;
  let '(xs, hs, bs) := r in
  Some (x0 :: x0 :: xs, h0 :: h1 :: hs, b_ini ++ bs).

End Libm.

(** ** Auxiliary notions used by the statements *)

(** Number of pumps recorded by a run. *)
Definition num_bombas (r : list float * list float * list bomba) : nat :=
  length (snd r).

(** A double that is a zero, of either sign. *)
Definition es_cero (x : float) : Prop :=
  exists s, FloatOps.Prim2SF x = SpecFloat.S754_zero s.

(** ** Sample inputs *)

(** [Re = 1000 * 1 * 0.1 / 1 = 100.0] and [f = 0.64] on doubles too. *)
Definition fluido_laminar : fluido :=
  {| densidad := 1000; viscosidad := 1; velocidad := 1 |}.

Definition tubo : tuberia := {| diametro := 0.1; rugosidad := None |}.

End Float64.

(** * Properties *)

(** ** Deciding comparisons between concrete reals *)

Lemma Rltb_true a b : a < b -> Py.Rltb a b = true.
Proof. intros H; unfold Py.Rltb; destruct (Rlt_dec a b); [reflexivity | contradiction]. Qed.

Lemma Rltb_false a b : b <= a -> Py.Rltb a b = false.
Proof. intros H; unfold Py.Rltb; destruct (Rlt_dec a b); [lra | reflexivity]. Qed.

Lemma Rleb_true a b : a <= b -> Py.Rleb a b = true.
Proof. intros H; unfold Py.Rleb; destruct (Rle_dec a b); [reflexivity | contradiction]. Qed.

Lemma Rleb_false a b : b < a -> Py.Rleb a b = false.
Proof. intros H; unfold Py.Rleb; destruct (Rle_dec a b); [lra | reflexivity]. Qed.

Lemma Reqb_true a b : a = b -> Py.Reqb a b = true.
Proof. intros H; unfold Py.Reqb; destruct (Req_dec_T a b); [reflexivity | contradiction]. Qed.

Lemma Reqb_false a b : a <> b -> Py.Reqb a b = false.
Proof. intros H; unfold Py.Reqb; destruct (Req_dec_T a b); [contradiction | reflexivity]. Qed.

Lemma Rltb_spec a b : reflect (a < b) (Py.Rltb a b).
Proof. unfold Py.Rltb; destruct (Rlt_dec a b); constructor; assumption. Qed.

Lemma Rleb_spec a b : reflect (a <= b) (Py.Rleb a b).
Proof. unfold Py.Rleb; destruct (Rle_dec a b); constructor; assumption. Qed.

Lemma Reqb_spec a b : reflect (a = b) (Py.Reqb a b).
Proof. unfold Py.Reqb; destruct (Req_dec_T a b); constructor; assumption. Qed.

(** Resolve every comparison of the goal whose outcome [lra] can settle. *)
Ltac Rdecide_step :=
  match goal with
  | |- context [Py.Rltb ?a ?b] =>
      first [ rewrite (Rltb_true a b) by lra | rewrite (Rltb_false a b) by lra ]
  | |- context [Py.Rleb ?a ?b] =>
      first [ rewrite (Rleb_true a b) by lra | rewrite (Rleb_false a b) by lra ]
  | |- context [Py.Reqb ?a ?b] =>
      first [ rewrite (Reqb_true a b) by lra | rewrite (Reqb_false a b) by lra ]
  end.

Ltac Rdecide := repeat (Rdecide_step; cbn [andb orb negb]).

(** ** [linspace] and [interpolar_perfil] *)

Lemma linspace_length a b n : length (linspace a b n) = n.
Proof.
  destruct n as [|[|d]]; cbn [linspace]; try reflexivity.
  rewrite length_app, length_map, length_seq. cbn. lia.
Qed.

Lemma INR_S_neq0 n : INR (S n) <> 0.
Proof. apply not_0_INR. discriminate. Qed.

(** Every sample of a segment is the linear interpolation of its ends. *)
Lemma linspace_nth a b k i :
  (i <= k + 1)%nat ->
  nth i (linspace a b (k + 2)) 0 = a + INR i * (b - a) / INR (k + 1).
Proof.
  intros Hi. replace (k + 2)%nat with (S (S k)) by lia.
  replace (k + 1)%nat with (S k) in * by lia.
  cbn [linspace].
  destruct (Nat.eq_dec i (S k)) as [->|Hne].
  - rewrite app_nth2; rewrite length_map, length_seq; [|lia].
    rewrite Nat.sub_diag. cbn [nth]. field. apply INR_S_neq0.
  - rewrite app_nth1 by (rewrite length_map, length_seq; lia).
    set (g := fun j : nat => INR j * ((b - a) / INR (S k)) + a).
    rewrite (nth_indep _ 0 (g O)) by (rewrite length_map, length_seq; lia).
    rewrite map_nth, seq_nth by lia. subst g. cbn [Nat.add]. field.
    apply INR_S_neq0.
Qed.

Lemma interpolar_loop_densify i x z k :
  length x = length z ->
  interpolar_loop i x z k = (densify i x k, densify i z k).
Proof.
  revert i z. induction x as [|x0 x IH]; intros i z Hlen.
  - destruct z; [reflexivity | discriminate].
  - destruct z as [|z0 z]; [discriminate|].
    destruct x as [|x1 x]; destruct z as [|z1 z]; try discriminate;
      [reflexivity|].
    change (interpolar_loop i (x0 :: x1 :: x) (z0 :: z1 :: z) k)
      with (let '(xi, zi) := interpolar_loop (S i) (x1 :: x) (z1 :: z) k in
            ((if (0 <? i)%nat then tl (linspace x0 x1 (k + 2))
              else linspace x0 x1 (k + 2)) ++ xi,
             (if (0 <? i)%nat then tl (linspace z0 z1 (k + 2))
              else linspace z0 z1 (k + 2)) ++ zi)).
    rewrite (IH (S i) (z1 :: z)) by (cbn in *; lia). reflexivity.
Qed.

Lemma densify_S i l k : densify (S i) l k = densify 1 l k.
Proof.
  revert i. induction l as [|a l IH]; intros i; [reflexivity|].
  destruct l as [|b l]; [reflexivity|].
  change (densify (S i) (a :: b :: l) k)
    with (tl (linspace a b (k + 2)) ++ densify (S (S i)) (b :: l) k).
  change (densify 1 (a :: b :: l) k)
    with (tl (linspace a b (k + 2)) ++ densify 2 (b :: l) k).
  rewrite (IH (S i)), (IH 1%nat). reflexivity.
Qed.

Lemma densify_1_cons a b l k :
  densify 1 (a :: b :: l) k = tl (linspace a b (k + 2)) ++ densify 1 (b :: l) k.
Proof.
  change (densify 1 (a :: b :: l) k)
    with (tl (linspace a b (k + 2)) ++ densify 2 (b :: l) k).
  rewrite densify_S. reflexivity.
Qed.

Lemma linspace_head a b k :
  linspace a b (k + 2) = a :: tl (linspace a b (k + 2)).
Proof.
  pose proof (linspace_nth a b k 0 ltac:(lia)) as H.
  pose proof (linspace_length a b (k + 2)) as HL.
  destruct (linspace a b (k + 2)) as [|c t]; [cbn in HL; lia|].
  cbn in H |- *. f_equal. rewrite H. cbn. field.
  replace (k + 1)%nat with (S k) by lia. apply INR_S_neq0.
Qed.

Lemma densify_0 a b l k :
  densify 0 (a :: b :: l) k = a :: densify 1 (a :: b :: l) k.
Proof.
  rewrite densify_1_cons.
  change (densify 0 (a :: b :: l) k)
    with (linspace a b (k + 2) ++ densify 1 (b :: l) k).
  rewrite (linspace_head a b k) at 1. reflexivity.
Qed.

Lemma tl_linspace_length a b k : length (tl (linspace a b (k + 2))) = (k + 1)%nat.
Proof.
  pose proof (linspace_length a b (k + 2)) as HL.
  destruct (linspace a b (k + 2)); cbn in *; lia.
Qed.

Lemma densify_1_length l k :
  length (densify 1 l k) = ((length l - 1) * (k + 1))%nat.
Proof.
  induction l as [|a l IH]; [reflexivity|].
  destruct l as [|b l]; [reflexivity|].
  rewrite densify_1_cons, length_app, IH, tl_linspace_length.
  cbn [length]. lia.
Qed.

(** Sample [r + 1] of segment [j], counted after the dropped first point. *)
Lemma densify_1_nth l k j r :
  (S j < length l)%nat -> (r <= k)%nat ->
  nth (j * (k + 1) + r) (densify 1 l k) 0
  = nth j l 0 + INR (S r) * (nth (S j) l 0 - nth j l 0) / INR (k + 1).
Proof.
  revert j. induction l as [|a l IH]; intros j Hj Hr; [cbn in Hj; lia|].
  destruct l as [|b l]; [cbn in Hj; lia|].
  rewrite densify_1_cons.
  destruct j as [|j].
  - cbn [Nat.mul Nat.add nth].
    rewrite app_nth1 by (rewrite tl_linspace_length; lia).
    pose proof (linspace_nth a b k (S r) ltac:(lia)) as H.
    rewrite (linspace_head a b k) in H. cbn [nth] in H.
    rewrite (linspace_head a b k). cbn [tl]. exact H.
  - rewrite app_nth2 by (rewrite tl_linspace_length; lia).
    rewrite tl_linspace_length.
    replace (S j * (k + 1) + r - (k + 1))%nat with (j * (k + 1) + r)%nat by lia.
    rewrite IH by (cbn in Hj |- *; lia).
    reflexivity.
Qed.

(** Sample [r] of segment [j] of the dense column, both ends included. *)
Lemma densify_0_nth l k j r :
  (S j < length l)%nat -> (r <= k + 1)%nat ->
  nth (j * (k + 1) + r) (densify 0 l k) 0
  = nth j l 0 + INR r * (nth (S j) l 0 - nth j l 0) / INR (k + 1).
Proof.
  intros Hj Hr.
  destruct l as [|a [|b l]]; try (cbn in Hj; lia).
  rewrite densify_0.
  assert (Hk : INR (k + 1) <> 0)
    by (replace (k + 1)%nat with (S k) by lia; apply INR_S_neq0).
  destruct r as [|r].
  - destruct j as [|j].
    + cbn. field. exact Hk.
    + replace (S j * (k + 1) + 0)%nat with (S (j * (k + 1) + k)) by lia.
      cbn [nth]. change (nth (j * (k + 1) + k) (densify 1 (a :: b :: l) k) 0
        = nth (S j) (a :: b :: l) 0
          + INR 0 * (nth (S (S j)) (a :: b :: l) 0 - nth (S j) (a :: b :: l) 0)
            / INR (k + 1)).
      rewrite densify_1_nth by (cbn in Hj |- *; lia).
      replace (S k) with (k + 1)%nat by lia. cbn [INR]. field. exact Hk.
  - replace (j * (k + 1) + S r)%nat with (S (j * (k + 1) + r)) by lia.
    cbn [nth]. change (nth (j * (k + 1) + r) (densify 1 (a :: b :: l) k) 0
        = nth j (a :: b :: l) 0
          + INR (S r) * (nth (S j) (a :: b :: l) 0 - nth j (a :: b :: l) 0)
            / INR (k + 1)).
    apply densify_1_nth; [exact Hj | lia].
Qed.

Lemma densify_0_length l k :
  (2 <= length l)%nat ->
  length (densify 0 l k) = ((length l - 1) * (k + 1) + 1)%nat.
Proof.
  intros H. destruct l as [|a [|b l]]; try (cbn in H; lia).
  rewrite densify_0. cbn [length]. rewrite densify_1_length. cbn [length]. lia.
Qed.

Lemma last_as_nth (l : list R) : Py.last_ l = nth (length l - 1) l 0.
Proof.
  unfold Py.last_. induction l as [|a l IH]; [reflexivity|].
  destruct l as [|b l]; [reflexivity|].
  change (last (a :: b :: l) 0) with (last (b :: l) 0). rewrite IH.
  cbn [length]. replace (S (S (length l)) - 1)%nat with (S (length l)) by lia.
  cbn [nth]. replace (S (length l) - 1)%nat with (length l) by lia. reflexivity.
Qed.

Lemma first_as_nth (l : list R) : Py.first_ l = nth 0 l 0.
Proof. destruct l; reflexivity. Qed.

Lemma densify_0_first l k :
  (2 <= length l)%nat -> Py.first_ (densify 0 l k) = Py.first_ l.
Proof.
  intros H. rewrite !first_as_nth.
  pose proof (densify_0_nth l k 0 0 ltac:(lia) ltac:(lia)) as E.
  cbn [Nat.mul Nat.add] in E. rewrite E. cbn [INR]. unfold Rdiv. ring.
Qed.

Lemma densify_0_last l k :
  (2 <= length l)%nat -> Py.last_ (densify 0 l k) = Py.last_ l.
Proof.
  intros H. rewrite !last_as_nth, densify_0_length by exact H.
  pose proof (densify_0_nth l k (length l - 2) (k + 1) ltac:(lia) ltac:(lia)) as E.
  replace ((length l - 1) * (k + 1) + 1 - 1)%nat
    with ((length l - 2) * (k + 1) + (k + 1))%nat by nia.
  rewrite E. replace (S (length l - 2)) with (length l - 1)%nat by lia.
  field. replace (k + 1)%nat with (S k) by lia. apply INR_S_neq0.
Qed.

Lemma densify_0_increasing l k :
  (2 <= length l)%nat -> increasing l -> increasing (densify 0 l k).
Proof.
  intros H Hinc m Hm. rewrite densify_0_length in Hm by exact H.
  assert (Hk : (k + 1 <> 0)%nat) by lia.
  pose proof (Nat.div_mod_eq m (k + 1)) as Hdm.
  pose proof (Nat.mod_upper_bound m (k + 1) Hk) as Hr.
  set (j := (m / (k + 1))%nat) in *. set (r := (m mod (k + 1))%nat) in *.
  assert (Hj : (S j < length l)%nat) by nia.
  replace m with (j * (k + 1) + r)%nat at 1 by lia.
  replace (S m) with (j * (k + 1) + S r)%nat by lia.
  rewrite !densify_0_nth by lia.
  specialize (Hinc j Hj). rewrite S_INR.
  assert (0 < INR (k + 1)) by (apply lt_0_INR; lia).
  assert (0 < (nth (S j) l 0 - nth j l 0) / INR (k + 1))
    by (apply Rdiv_lt_0_compat; lra).
  unfold Rdiv in *. nra.
Qed.

(** C9, as stated, fails: with [num_puntos_extra = 0] every segment yields
    its two end points only, so the two-point terrain [(0,0), (1,1)] comes
    back with two points, not strictly more. *)
Lemma C9_not_strictly_longer :
  let P := [(0, 0); (1, 1)] in
  (2 <= length P)%nat /\
  ~ (length P < length (fst (interpolar_perfil P 0)))%nat.
Proof.
  cbn. split; lia.
Qed.

(** C9, amended: for a terrain of [n >= 2] rows and [k] extra points per
    segment, [interpolar_perfil] returns two columns of exactly
    [(n-1)*(k+1)+1] values; sample [r] (for [r <= k+1]) of segment [j] is the
    linear interpolation [p_j + r*(p_(j+1) - p_j)/(k+1)] of the segment's
    ends in both columns, the shared end point of adjacent segments
    appearing once; the first and last points are those of the input;
    strictly increasing distances stay strictly increasing; the result is
    never shorter than the input, and strictly longer exactly when [k >= 1]. *)
Theorem C9_interpolar_perfil (P : terrain) (k : nat) :
  (2 <= length P)%nat ->
  let n := length P in
  let x := col_x P in
  let z := col_z P in
  let x_interp := fst (interpolar_perfil P k) in
  let z_interp := snd (interpolar_perfil P k) in
  length x_interp = ((n - 1) * (k + 1) + 1)%nat /\
  length z_interp = ((n - 1) * (k + 1) + 1)%nat /\
  (forall j r, (S j < n)%nat -> (r <= k + 1)%nat ->
     nth (j * (k + 1) + r) x_interp 0
       = nth j x 0 + INR r * (nth (S j) x 0 - nth j x 0) / INR (k + 1) /\
     nth (j * (k + 1) + r) z_interp 0
       = nth j z 0 + INR r * (nth (S j) z 0 - nth j z 0) / INR (k + 1)) /\
  Py.first_ x_interp = Py.first_ x /\ Py.first_ z_interp = Py.first_ z /\
  Py.last_ x_interp = Py.last_ x /\ Py.last_ z_interp = Py.last_ z /\
  (increasing x -> increasing x_interp) /\
  (n <= length x_interp)%nat /\
  ((n < length x_interp)%nat <-> (1 <= k)%nat).
Proof.
  intros Hn n x z x_interp z_interp.
  assert (Hx : length x = n) by apply length_map.
  assert (Hz : length z = n) by apply length_map.
  unfold x_interp, z_interp, interpolar_perfil.
  fold x z. rewrite interpolar_loop_densify by congruence.
  cbn [fst snd].
  assert (HL : length (densify 0 x k) = ((n - 1) * (k + 1) + 1)%nat)
    by (rewrite densify_0_length, Hx; [reflexivity | lia]).
  repeat split.
  - exact HL.
  - rewrite densify_0_length, Hz; [reflexivity | lia].
  - apply densify_0_nth; lia.
  - apply densify_0_nth; lia.
  - apply densify_0_first; lia.
  - apply densify_0_first; lia.
  - apply densify_0_last; lia.
  - apply densify_0_last; lia.
  - apply densify_0_increasing; lia.
  - rewrite HL. unfold n in *. nia.
  - rewrite HL. intros H. destruct k; [lia | lia].
  - rewrite HL. intros H. unfold n in *. nia.
Qed.

Lemma C9_interpolar_perfil_witness :
  let P := [(0, 0); (10, 2); (30, 1)] in
  let x_interp := fst (interpolar_perfil P 1) in
  (2 <= length P)%nat /\
  length x_interp = 5%nat /\ Py.last_ x_interp = 30.
Proof.
  pose proof (C9_interpolar_perfil [(0, 0); (10, 2); (30, 1)] 1
                ltac:(cbn; lia)) as H.
  cbv zeta in H. destruct H as (HL & _ & _ & _ & _ & Hlast & _).
  split; [cbn; lia|]. split; [exact HL | exact Hlast].
Defined.

(** ** The forward generator *)

Lemma bind_some {A B : Type} (a : A) (k : A -> option B) :
  Py.bind (Some a) k = k a.
Proof. reflexivity. Qed.

Lemma columnas_first P npe :
  (2 <= length P)%nat ->
  Py.first_ (fst (columnas P npe)) = Py.first_ (col_x P) /\
  Py.first_ (snd (columnas P npe)) = Py.first_ (col_z P).
Proof.
  intros H. destruct npe as [k|]; cbn [columnas fst snd]; [|split; reflexivity].
  unfold interpolar_perfil.
  rewrite interpolar_loop_densify by (unfold col_x, col_z; rewrite !length_map; reflexivity).
  cbn [fst snd].
  split; apply densify_0_first; unfold col_x, col_z; rewrite length_map; exact H.
Qed.

Lemma factor_laminar : factor_de_friccion fluido_laminar tubo = Some (64 / 100).
Proof.
  unfold factor_de_friccion, fluido_laminar, tubo, friction_factor, Py.div.
  cbn [densidad viscosidad velocidad diametro].
  rewrite (Reqb_false 1 0) by lra. rewrite bind_some.
  rewrite Rltb_true by lra. rewrite Reqb_false by lra.
  f_equal. lra.
Qed.

Lemma recorrido_cons f D v m head_bomba xa xb x za zb z h :
  recorrido f D v m head_bomba (xa :: xb :: x) (za :: zb :: z) h
  = let h_nueva := h - perdida f D v (xb - xa) (zb - za) in
    if Py.Rleb (h_nueva - zb) m then
      let '(xs, hs, bs) :=
        recorrido f D v m head_bomba (xb :: x) (zb :: z) (h_nueva + head_bomba) in
      (xb :: xb :: xs, h_nueva :: (h_nueva + head_bomba) :: hs,
       {| b_x := xb; b_head := Some head_bomba |} :: bs)
    else
      let '(xs, hs, bs) :=
        recorrido f D v m head_bomba (xb :: x) (zb :: z) h_nueva in
      (xb :: xs, h_nueva :: hs, bs).
Proof. reflexivity. Qed.

(** The pump count of the walk is monotone in the margin.  With the larger
    margin the walk may be [d] pumps ahead; its running head is then higher
    by [d * head_bomba], and the other walk can catch up by at most one pump
    per terrain point. *)
Lemma recorrido_count f D v m1 m2 head_bomba x :
  m1 <= m2 ->
  forall z h (d : nat),
    (length (snd (recorrido f D v m1 head_bomba x z h))
     <= d + length (snd (recorrido f D v m2 head_bomba x z (h + INR d * head_bomba))))%nat.
Proof.
  intros Hm. induction x as [|xa x IH]; intros z h d; [cbn; lia|].
  destruct z as [|za z]; [cbn; lia|].
  destruct x as [|xb x]; [cbn; lia|].
  destruct z as [|zb z]; [cbn; lia|].
  rewrite !recorrido_cons. cbv zeta.
  set (hf := perdida f D v (xb - xa) (zb - za)).
  destruct (Rleb_spec (h - hf - zb) m1) as [H1|H1];
    destruct (Rleb_spec (h + INR d * head_bomba - hf - zb) m2) as [H2|H2].
  - specialize (IH (zb :: z) (h - hf + head_bomba) d).
    replace (h + INR d * head_bomba - hf + head_bomba)
      with (h - hf + head_bomba + INR d * head_bomba) by ring.
    destruct (recorrido f D v m1 head_bomba (xb :: x) (zb :: z) _) as [[? ?] ?].
    destruct (recorrido f D v m2 head_bomba (xb :: x) (zb :: z) _) as [[? ?] ?].
    cbn [snd length] in *. lia.
  - destruct d as [|d]; [cbn [INR] in H2; lra|].
    specialize (IH (zb :: z) (h - hf + head_bomba) d).
    replace (h + INR (S d) * head_bomba - hf)
      with (h - hf + head_bomba + INR d * head_bomba) by (rewrite S_INR; ring).
    destruct (recorrido f D v m1 head_bomba (xb :: x) (zb :: z) _) as [[? ?] ?].
    destruct (recorrido f D v m2 head_bomba (xb :: x) (zb :: z) _) as [[? ?] ?].
    cbn [snd length] in *. lia.
  - specialize (IH (zb :: z) (h - hf) (S d)).
    replace (h + INR d * head_bomba - hf + head_bomba)
      with (h - hf + INR (S d) * head_bomba) by (rewrite S_INR; ring).
    destruct (recorrido f D v m1 head_bomba (xb :: x) (zb :: z) _) as [[? ?] ?].
    destruct (recorrido f D v m2 head_bomba (xb :: x) (zb :: z) _) as [[? ?] ?].
    cbn [snd length] in *. lia.
  - specialize (IH (zb :: z) (h - hf) d).
    replace (h + INR d * head_bomba - hf)
      with (h - hf + INR d * head_bomba) by ring.
    destruct (recorrido f D v m1 head_bomba (xb :: x) (zb :: z) _) as [[? ?] ?].
    destruct (recorrido f D v m2 head_bomba (xb :: x) (zb :: z) _) as [[? ?] ?].
    cbn [snd length] in *. lia.
Qed.

(** In exact arithmetic, for a fixed terrain, fluid, pipe, initial head
    and pump head, the number of pumps inserted by the forward generator
    does not decrease when the safety margin grows.  (On doubles it can:
    see the last part of this file.) *)
Lemma pump_count_monotone_exact
  (P : terrain) (fl : fluido) (tb : tuberia)
  (presion_inicial_m head_bomba : R) (num_puntos_extra : option nat)
  (m1 m2 : R) (r1 r2 : list R * list R * list bomba) :
  m1 <= m2 ->
  generar_perfil_con_bombas_automaticas P fl tb presion_inicial_m m1
    head_bomba num_puntos_extra = Some r1 ->
  generar_perfil_con_bombas_automaticas P fl tb presion_inicial_m m2
    head_bomba num_puntos_extra = Some r2 ->
  (num_bombas r1 <= num_bombas r2)%nat.
Proof.
  intros Hm. unfold generar_perfil_con_bombas_automaticas.
  change (match num_puntos_extra with
          | Some k => interpolar_perfil P k
          | None => (col_x P, col_z P)
          end) with (columnas P num_puntos_extra).
  destruct (columnas P num_puntos_extra) as [x z].
  destruct (factor_de_friccion fl tb) as [f|]; [|discriminate].
  rewrite !bind_some.
  set (h0 := presion_inicial_m + Py.first_ z).
  destruct (Rleb_spec (h0 - Py.first_ z) m1) as [H1|H1];
    destruct (Rleb_spec (h0 - Py.first_ z) m2) as [H2|H2]; try lra.
  - pose proof (recorrido_count f (diametro tb) (velocidad fl) m1 m2 head_bomba
                  x Hm z (h0 + head_bomba) 0) as Hc.
    cbn [INR] in Hc. rewrite Rmult_0_l, Rplus_0_r in Hc.
    cbn [Py.last_ last].
    destruct (recorrido _ _ _ m1 _ _ _ _) as [[? ?] b1].
    destruct (recorrido _ _ _ m2 _ _ _ _) as [[? ?] b2].
    intros E1 E2. injection E1 as <-. injection E2 as <-.
    unfold num_bombas. cbn [snd length app] in *. lia.
  - pose proof (recorrido_count f (diametro tb) (velocidad fl) m1 m2 head_bomba
                  x Hm z h0 1) as Hc.
    cbn [INR] in Hc. rewrite Rmult_1_l in Hc.
    cbn [Py.last_ last].
    destruct (recorrido _ _ _ m1 _ _ _ _) as [[? ?] b1].
    destruct (recorrido _ _ _ m2 _ _ _ _) as [[? ?] b2].
    intros E1 E2. injection E1 as <-. injection E2 as <-.
    unfold num_bombas. cbn [snd length app] in *. lia.
  - pose proof (recorrido_count f (diametro tb) (velocidad fl) m1 m2 head_bomba
                  x Hm z h0 0) as Hc.
    cbn [INR] in Hc. rewrite Rmult_0_l, Rplus_0_r in Hc.
    cbn [Py.last_ last].
    destruct (recorrido _ _ _ m1 _ _ _ _) as [[? ?] b1].
    destruct (recorrido _ _ _ m2 _ _ _ _) as [[? ?] b2].
    intros E1 E2. injection E1 as <-. injection E2 as <-.
    unfold num_bombas. cbn [snd length app] in *. lia.
Qed.

(** The forward generator returns as soon as the friction factor exists. *)
Lemma automaticas_returns P fl tb presion_inicial_m m head_bomba npe f :
  factor_de_friccion fl tb = Some f ->
  exists r,
    generar_perfil_con_bombas_automaticas P fl tb presion_inicial_m m
      head_bomba npe = Some r.
Proof.
  intros Hf. unfold generar_perfil_con_bombas_automaticas.
  destruct (match npe with
            | Some k => interpolar_perfil P k
            | None => (col_x P, col_z P)
            end) as [x z].
  rewrite Hf, bind_some.
  destruct (if Py.Rleb _ _ then _ else _) as [[xi hi] bi].
  destruct (recorrido _ _ _ _ _ _ _ _) as [[xs hs] bs].
  eexists. reflexivity.
Qed.

(** ** The friction factor *)

Lemma colebrook_step_rhs Re D eps f :
  colebrook_step Re D eps f = colebrook_rhs Re D eps f.
Proof.
  unfold colebrook_step, colebrook_rhs, Py.div, Py.sqrt, Py.log10, Py.pow_neg2.
  destruct (Py.Reqb (3.7 * D) 0); [reflexivity|]. rewrite bind_some.
  destruct (Py.Rleb 0 f); [|reflexivity]. rewrite bind_some. cbn [negb].
  destruct (Py.Reqb (Re * sqrt f) 0); [reflexivity|]. rewrite bind_some.
  destruct (Py.Rltb 0 (eps / (3.7 * D) + 2.51 / (Re * sqrt f))); [|reflexivity].
  rewrite bind_some. cbn [negb]. reflexivity.
Qed.

Lemma iterate_S Re D eps n :
  iterate Re D eps (S n) = (f <- iterate Re D eps n ;; colebrook_rhs Re D eps f).
Proof. reflexivity. Qed.

(** The loop started on iterate [m] with [fuel] passes left returns the
    iterate at which the specification stops. *)
Lemma colebrook_loop_spec Re D eps fuel :
  forall m f r,
    iterate Re D eps m = Some f ->
    (colebrook_loop Re D eps 1e-6 fuel f = Some r <->
     (fuel = O /\ r = f) \/
     exists k, (m <= k < m + fuel)%nat /\
       iterate Re D eps (S k) = Some r /\
       (forall n, (m <= n < k)%nat -> ~ converged_at Re D eps n) /\
       (converged_at Re D eps k \/ S k = (m + fuel)%nat)).
Proof.
  induction fuel as [|fuel IH]; intros m f r Hm.
  - cbn [colebrook_loop]. split.
    + intros E. injection E as <-. left. split; reflexivity.
    + intros [[_ ->]|(k & Hk & _)]; [reflexivity | lia].
  - cbn [colebrook_loop]. rewrite colebrook_step_rhs.
    pose proof (iterate_S Re D eps m) as HS. rewrite Hm, bind_some in HS.
    destruct (colebrook_rhs Re D eps f) as [f'|] eqn:Hstep.
    + rewrite bind_some.
      destruct (Rltb_spec (Rabs (f' - f)) 1e-6) as [Hc|Hc].
      * (* converged at m *)
        assert (Hconv : converged_at Re D eps m)
          by (exists f, f'; repeat split; assumption).
        split.
        -- intros E. injection E as <-. right. exists m.
           split; [lia|]. split; [exact HS|]. split; [intros n Hn; lia|].
           left. exact Hconv.
        -- intros [[Hz _]|(k & Hk & Hit & Hno & _)]; [discriminate|].
           destruct (Nat.eq_dec k m) as [->|Hne]; [congruence|].
           exfalso. apply (Hno m); [lia | exact Hconv].
      * (* keep iterating *)
        assert (Hnc : ~ converged_at Re D eps m).
        { intros (a & b & Ha & Hb & Hab). congruence. }
        rewrite (IH (S m) f' r HS). split.
        -- intros [[-> ->]|(k & Hk & Hit & Hno & Hend)].
           ++ right. exists m. split; [lia|]. split; [exact HS|].
              split; [intros n Hn; lia|]. right. lia.
           ++ right. exists k. split; [lia|]. split; [exact Hit|].
              split.
              ** intros n Hn. destruct (Nat.eq_dec n m) as [->|Hne];
                   [exact Hnc | apply Hno; lia].
              ** destruct Hend as [Hend|Hend]; [left; exact Hend | right; lia].
        -- intros [[Hz _]|(k & Hk & Hit & Hno & Hend)]; [discriminate|].
           destruct (Nat.eq_dec k m) as [->|Hne].
           ++ destruct Hend as [Hend|Hend]; [contradiction|].
              left. split; [lia | congruence].
           ++ right. exists k. split; [lia|]. split; [exact Hit|].
              split; [intros n Hn; apply Hno; lia|].
              destruct Hend as [Hend|Hend]; [left; exact Hend | right; lia].
    + (* the right-hand side is undefined: the code raises *)
      cbn [Py.bind]. split; [discriminate|].
      intros [[Hz _]|(k & Hk & Hit & Hno & Hend)]; [discriminate|].
      exfalso.
      assert (Hdef : forall j, iterate Re D eps (S m + j) = None).
      { induction j as [|j IHj].
        - rewrite Nat.add_0_r. exact HS.
        - rewrite Nat.add_succ_r, iterate_S, IHj. reflexivity. }
      specialize (Hdef (k - m)%nat).
      replace (S m + (k - m))%nat with (S k) in Hdef by lia. congruence.
Qed.

(** C5: for positive Reynolds number and diameter and non-negative
    roughness, the friction factor the generators compute is exactly
    [64 / Re] below 2000 and otherwise the Colebrook fixed-point iterate
    reached from [0.02] at the first iteration whose change is below
    [1e-6], or the 100th iterate when no such iteration occurs, which is
    then returned without an error. *)
Theorem C5_friction_factor (Re D eps r : R) :
  0 < Re -> 0 < D -> 0 <= eps ->
  (friction_factor Re D eps = Some r <-> frictionFactor_spec Re D eps r).
Proof.
  intros HRe HD Heps. unfold friction_factor, frictionFactor_spec.
  destruct (Rltb_spec Re 2000) as [Hlam|Hturb].
  - unfold Py.div. rewrite Reqb_false by lra. split.
    + intros E. injection E as <-. left. split; [exact Hlam | reflexivity].
    + intros [[_ ->]|[Hn _]]; [reflexivity | contradiction].
  - unfold colebrook, colebrook_with.
    rewrite (colebrook_loop_spec Re D eps 100 0 0.02 r eq_refl). split.
    + intros [[Hz _]|(k & Hk & Hit & Hno & Hend)]; [discriminate|].
      right. split; [exact Hturb|]. exists k. split; [lia|].
      split; [exact Hit|]. split; [intros n Hn; apply Hno; lia | exact Hend].
    + intros [[Hl _]|[_ (k & Hk & Hit & Hno & Hend)]]; [contradiction|].
      right. exists k. split; [lia|]. split; [exact Hit|].
      split; [intros n Hn; apply Hno; lia | exact Hend].
Qed.

Lemma C5_friction_factor_witness :
  0 < 100 /\ 0 < 0.1 /\ 0 <= 0.0002 /\
  friction_factor 100 0.1 0.0002 = Some (64 / 100).
Proof.
  repeat split; try lra.
  apply (C5_friction_factor 100 0.1 0.0002 (64 / 100)); try lra.
  left. split; [lra | reflexivity].
Defined.

(** Whatever the right-hand side returns is positive. *)
Lemma colebrook_rhs_pos Re D eps f f' :
  colebrook_rhs Re D eps f = Some f' -> 0 < f'.
Proof.
  unfold colebrook_rhs.
  destruct (Py.Reqb (3.7 * D) 0); [discriminate|].
  destruct (Py.Rleb 0 f); [|discriminate]. cbn [negb].
  destruct (Py.Reqb (Re * sqrt f) 0); [discriminate|].
  destruct (Py.Rltb 0 _); [|discriminate]. cbn [negb].
  destruct (Reqb_spec (-2 * (ln (eps / (3.7 * D) + 2.51 / (Re * sqrt f)) / ln 10)) 0)
    as [|Hy]; [discriminate|].
  intros E. injection E as <-.
  apply Rinv_0_lt_compat. nra.
Qed.

(** In the domain of the claim the right-hand side is defined at every
    positive [f], except where the logarithm vanishes and the negative
    power divides by zero. *)
Lemma colebrook_rhs_defined Re D eps f :
  0 < Re -> 0 < D -> 0 <= eps -> 0 < f ->
  eps / (3.7 * D) + 2.51 / (Re * sqrt f) <> 1 ->
  exists f', colebrook_rhs Re D eps f = Some f'.
Proof.
  intros HRe HD Heps Hf Harg. unfold colebrook_rhs.
  assert (Hs : 0 < sqrt f) by (apply sqrt_lt_R0; exact Hf).
  assert (Hp : 0 < Re * sqrt f) by (apply Rmult_lt_0_compat; assumption).
  assert (Ha : 0 <= eps / (3.7 * D))
    by (apply Rle_mult_inv_pos; lra).
  assert (Hb : 0 < 2.51 / (Re * sqrt f))
    by (apply Rdiv_lt_0_compat; lra).
  rewrite (Reqb_false (3.7 * D) 0) by lra.
  rewrite (Rleb_true 0 f) by lra. cbn [negb].
  rewrite (Reqb_false (Re * sqrt f) 0) by lra.
  rewrite Rltb_true by lra. cbn [negb].
  rewrite Reqb_false; [eexists; reflexivity|].
  intros Hy.
  assert (Hl10 : 0 < ln 10) by (rewrite <- ln_1; apply ln_increasing; lra).
  assert (Hln : ln (eps / (3.7 * D) + 2.51 / (Re * sqrt f)) = 0).
  { apply Rmult_eq_reg_r with (/ ln 10);
      [|apply Rinv_neq_0_compat; lra].
    unfold Rdiv in Hy. lra. }
  apply Harg. apply ln_inv; [lra | lra | rewrite ln_1; exact Hln].
Qed.

Lemma colebrook_loop_pos Re D eps tol fuel :
  forall f r, 0 < f -> colebrook_loop Re D eps tol fuel f = Some r -> 0 < r.
Proof.
  induction fuel as [|fuel IH]; intros f r Hf; cbn [colebrook_loop].
  - intros E. injection E as <-. exact Hf.
  - rewrite colebrook_step_rhs.
    destruct (colebrook_rhs Re D eps f) as [f'|] eqn:E; [|discriminate].
    rewrite bind_some. pose proof (colebrook_rhs_pos _ _ _ _ _ E) as Hf'.
    destruct (Py.Rltb _ _).
    + intros E'. injection E' as <-. exact Hf'.
    + apply IH. exact Hf'.
Qed.

(** A friction factor computed from a positive Reynolds number is positive. *)
Lemma friction_factor_pos Re D eps f :
  0 < Re -> friction_factor Re D eps = Some f -> 0 < f.
Proof.
  intros HRe. unfold friction_factor.
  destruct (Py.Rltb Re 2000).
  - unfold Py.div. rewrite Reqb_false by lra. intros E. injection E as <-.
    apply Rdiv_lt_0_compat; lra.
  - apply colebrook_loop_pos. lra.
Qed.

(** ** The backward generator *)

Lemma perdida_nonneg f D v dx dz : 0 <= f -> 0 < D -> 0 <= perdida f D v dx dz.
Proof.
  intros Hf HD. unfold perdida, G.
  pose proof (sqrt_pos (dx * dx + dz * dz)) as Hs.
  assert (0 <= sqrt (dx * dx + dz * dz) / D) by (apply Rle_mult_inv_pos; lra).
  assert (0 <= v * v) by nra.
  apply Rle_mult_inv_pos; [|lra].
  apply Rmult_le_pos; [apply Rmult_le_pos|]; assumption.
Qed.

Lemma acumular_reversa_cons f D v xa xb x za zb z h :
  acumular_reversa f D v (xa :: xb :: x) (za :: zb :: z) h
  = (h + perdida f D v (xa - xb) (za - zb))
    :: acumular_reversa f D v (xb :: x) (zb :: z)
         (h + perdida f D v (xa - xb) (za - zb)).
Proof. reflexivity. Qed.

(** Walking backwards, the accumulated head never decreases. *)
Lemma acumular_reversa_sorted f D v :
  0 <= f -> 0 < D ->
  forall x z h, StronglySorted Rle (h :: acumular_reversa f D v x z h).
Proof.
  intros Hf HD. induction x as [|xa x IH]; intros z h.
  - cbn. repeat constructor.
  - destruct x as [|xb x]; [cbn; repeat constructor|].
    destruct z as [|za [|zb z]]; [cbn; repeat constructor ..|].
    rewrite acumular_reversa_cons.
    set (h' := h + perdida f D v (xa - xb) (za - zb)).
    specialize (IH (zb :: z) h').
    assert (Hle : h <= h')
      by (unfold h'; pose proof (perdida_nonneg f D v (xa - xb) (za - zb) Hf HD); lra).
    constructor; [exact IH|].
    constructor; [exact Hle|].
    apply StronglySorted_inv in IH. destruct IH as [_ Hall].
    eapply Forall_impl; [|exact Hall]. cbv beta. intros a Ha. lra.
Qed.

Lemma StronglySorted_app_single (R' : R -> R -> Prop) l a :
  StronglySorted R' l -> Forall (fun b => R' b a) l ->
  StronglySorted R' (l ++ [a]).
Proof.
  induction l as [|b l IH]; intros Hs Hall; cbn.
  - repeat constructor.
  - apply StronglySorted_inv in Hs. destruct Hs as [Hs Hb].
    inversion Hall; subst.
    constructor; [apply IH; assumption|].
    apply Forall_app. split; [exact Hb | repeat constructor; assumption].
Qed.

Lemma StronglySorted_rev (l : list R) :
  StronglySorted Rle l -> StronglySorted (fun a b => b <= a) (rev l).
Proof.
  induction l as [|a l IH]; intros Hs; cbn; [constructor|].
  apply StronglySorted_inv in Hs. destruct Hs as [Hs Ha].
  apply StronglySorted_app_single; [apply IH; exact Hs|].
  apply Forall_rev. exact Ha.
Qed.

Lemma StronglySorted_shift delta (l : list R) :
  StronglySorted (fun a b => b <= a) l ->
  StronglySorted (fun a b => b <= a) (shift delta l).
Proof.
  induction l as [|a l IH]; intros Hs; cbn; [constructor|].
  apply StronglySorted_inv in Hs. destruct Hs as [Hs Ha].
  constructor; [apply IH; exact Hs|].
  apply Forall_map. eapply Forall_impl; [|exact Ha]. cbv beta. intros b Hb. lra.
Qed.

Lemma StronglySorted_non_increasing (l : list R) :
  StronglySorted (fun a b => b <= a) l -> non_increasing l.
Proof.
  induction l as [|a l IH]; intros Hs i j Hij; [cbn in Hij; lia|].
  apply StronglySorted_inv in Hs. destruct Hs as [Hs Ha].
  destruct j as [|j].
  - replace i with O by lia. lra.
  - destruct i as [|i].
    + cbn [nth]. rewrite Forall_forall in Ha. apply Ha.
      apply nth_In. cbn in Hij. lia.
    + cbn [nth]. apply IH; [exact Hs | cbn in Hij; lia].
Qed.

Lemma factor_de_friccion_pos fl tb f :
  0 < densidad fl -> 0 < viscosidad fl -> 0 < velocidad fl -> 0 < diametro tb ->
  factor_de_friccion fl tb = Some f -> 0 < f.
Proof.
  intros Hr Hm Hv HD. unfold factor_de_friccion, Py.div.
  rewrite Reqb_false by lra. rewrite bind_some.
  apply friction_factor_pos. apply Rdiv_lt_0_compat; [|exact Hm].
  apply Rmult_lt_0_compat; [apply Rmult_lt_0_compat|]; assumption.
Qed.

(** C6: with an empty pump list, for positive fluid and pipe parameters
    and a defined friction factor, the backward generator returns, and in
    the head sequence it returns each later sample is less than or equal
    to each earlier one. *)
Theorem C6_backward_no_pumps_non_increasing
  (P : terrain) (fl : fluido) (tb : tuberia) (presion_final_m f : R) :
  (2 <= length P)%nat ->
  0 < densidad fl -> 0 < viscosidad fl -> 0 < velocidad fl -> 0 < diametro tb ->
  factor_de_friccion fl tb = Some f ->
  exists x_final h_final,
    generar_perfil_presion P fl tb presion_final_m [] = Some (x_final, h_final) /\
    non_increasing h_final.
Proof.
  intros _ Hr Hm Hv HD Hf.
  pose proof (factor_de_friccion_pos fl tb f Hr Hm Hv HD Hf) as Hfp.
  unfold generar_perfil_presion. rewrite Hf, bind_some.
  unfold perfil_sin_bombas. cbn [sorted_bombas fold_right insertar_bombas].
  rewrite bind_some.
  do 2 eexists. split; [reflexivity|].
  apply StronglySorted_non_increasing, StronglySorted_shift, StronglySorted_rev.
  apply acumular_reversa_sorted; lra.
Qed.

Lemma C6_backward_no_pumps_non_increasing_witness :
  (2 <= length terreno_llano)%nat /\
  0 < densidad fluido_laminar /\ 0 < viscosidad fluido_laminar /\
  0 < velocidad fluido_laminar /\ 0 < diametro tubo /\
  factor_de_friccion fluido_laminar tubo = Some (64 / 100) /\
  exists x_final h_final,
    generar_perfil_presion terreno_llano fluido_laminar tubo 15 []
      = Some (x_final, h_final) /\
    non_increasing h_final.
Proof.
  assert (H2 : (2 <= length terreno_llano)%nat) by (cbn; lia).
  assert (Hr : 0 < densidad fluido_laminar) by (cbn; lra).
  assert (Hm : 0 < viscosidad fluido_laminar) by (cbn; lra).
  assert (Hv : 0 < velocidad fluido_laminar) by (cbn; lra).
  assert (HD : 0 < diametro tubo) by (cbn; lra).
  repeat (split; [assumption || exact factor_laminar|]).
  exact (C6_backward_no_pumps_non_increasing terreno_llano fluido_laminar tubo
           15 (64 / 100) H2 Hr Hm Hv HD factor_laminar).
Defined.

(** ** The pump jump never empties the profile *)

Lemma add_from_length k head l : length (add_from k head l) = length l.
Proof.
  unfold add_from. rewrite length_app, length_map, <- length_app, firstn_skipn.
  reflexivity.
Qed.

Lemma list_insert_length i v l :
  (i <= length l)%nat -> length (list_insert i v l) = S (length l).
Proof.
  intros H. unfold list_insert. rewrite length_app. cbn [length].
  rewrite length_firstn, length_skipn. lia.
Qed.

Lemma list_insert_not_nil i v l : list_insert i v l <> [].
Proof.
  unfold list_insert. intros E. symmetry in E.
  exact (app_cons_not_nil _ _ _ E).
Qed.

Lemma length_not_nil {A : Type} (l : list A) : l <> [] <-> (0 < length l)%nat.
Proof. destruct l; cbn; split; intros; try congruence; lia. Qed.

Lemma insertar_salto_not_nil x_final h_final x_b head :
  snd (insertar_salto x_final h_final x_b head) <> [].
Proof.
  unfold insertar_salto.
  destruct (reordenar x_final h_final x_b) as [x2 h2]; cbn [snd].
  apply length_not_nil; rewrite add_from_length; apply length_not_nil;
    apply list_insert_not_nil.
Qed.

Lemma last_shift delta l :
  l <> [] -> Py.last_ (shift delta l) = Py.last_ l + delta.
Proof.
  unfold Py.last_, shift. induction l as [|a l IH]; intros Hne; [congruence|].
  destruct l as [|b l]; [reflexivity|].
  change (last (map (fun h => h + delta) (a :: b :: l)) 0)
    with (last (map (fun h => h + delta) (b :: l)) 0).
  change (last (a :: b :: l) 0) with (last (b :: l) 0).
  apply IH. discriminate.
Qed.

Lemma insertar_bombas_not_nil bombas :
  forall x_final h_final x' h',
    h_final <> [] ->
    insertar_bombas bombas x_final h_final = Some (x', h') -> h' <> [].
Proof.
  induction bombas as [|b rest IH]; intros x_final h_final x' h' Hne;
    cbn [insertar_bombas].
  - intros E. injection E as <- <-. exact Hne.
  - destruct (b_head b) as [head|]; [|discriminate]. rewrite bind_some.
    pose proof (insertar_salto_not_nil x_final h_final (b_x b) head) as Hs.
    destruct (insertar_salto x_final h_final (b_x b) head) as [x1 h1].
    apply IH. exact Hs.
Qed.

Lemma insertar_bombas_returns bombas :
  todas_conocidas bombas ->
  forall x_final h_final, exists r, insertar_bombas bombas x_final h_final = Some r.
Proof.
  induction 1 as [|b rest Hb Hrest IH]; intros x_final h_final;
    cbn [insertar_bombas].
  - eexists. reflexivity.
  - destruct (b_head b) as [head|]; [|congruence]. rewrite bind_some.
    destruct (insertar_salto x_final h_final (b_x b) head) as [x1 h1].
    apply IH.
Qed.

Lemma insert_bomba_conocidas b l :
  b_head b <> None -> todas_conocidas l -> todas_conocidas (insert_bomba b l).
Proof.
  intros Hb. induction 1 as [|c l Hc Hl IH]; cbn [insert_bomba].
  - repeat constructor. exact Hb.
  - destruct (Py.Rltb (b_x c) (b_x b)).
    + constructor; assumption.
    + repeat constructor; assumption.
Qed.

Lemma sorted_bombas_conocidas l :
  todas_conocidas l -> todas_conocidas (sorted_bombas l).
Proof.
  induction 1 as [|b l Hb Hl IH]; cbn; [constructor|].
  apply insert_bomba_conocidas; assumption.
Qed.

(** C1: whenever the friction factor is defined and every pump carries a
    head, the backward generator returns a profile whose last head is
    [presion_final_m + z[-1]], exactly, hence within [1e-9], whatever the
    pumps inserted. *)
Theorem C1_backward_boundary_fidelity
  (P : terrain) (fl : fluido) (tb : tuberia) (presion_final_m f : R)
  (bombas : list bomba) :
  (2 <= length P)%nat ->
  factor_de_friccion fl tb = Some f ->
  todas_conocidas bombas ->
  exists x_final h_final,
    generar_perfil_presion P fl tb presion_final_m bombas
      = Some (x_final, h_final) /\
    Py.last_ h_final = presion_final_m + Py.last_ (col_z P) /\
    Rabs (Py.last_ h_final - (presion_final_m + Py.last_ (col_z P))) <= 1e-9.
Proof.
  intros _ Hf Hk. unfold generar_perfil_presion. rewrite Hf, bind_some.
  unfold perfil_sin_bombas.
  set (x_list := rev (rev (col_x P))).
  set (h_list := rev (_ :: _)).
  destruct (insertar_bombas_returns _ (sorted_bombas_conocidas _ Hk) x_list h_list)
    as [[x' h'] E].
  rewrite E, bind_some.
  assert (Hne : h' <> []).
  { apply (insertar_bombas_not_nil _ _ _ _ _) with (2 := E).
    unfold h_list. intros E'. apply (f_equal (@length R)) in E'.
    rewrite length_rev in E'. discriminate. }
  do 2 eexists. split; [reflexivity|].
  rewrite last_shift by exact Hne.
  split; [ring|].
  replace (_ - _) with 0 by ring. rewrite Rabs_R0. lra.
Qed.

Lemma C1_backward_boundary_fidelity_witness :
  (2 <= length terreno_llano)%nat /\
  factor_de_friccion fluido_laminar tubo = Some (64 / 100) /\
  todas_conocidas [bomba_media] /\
  exists x_final h_final,
    generar_perfil_presion terreno_llano fluido_laminar tubo 15 [bomba_media]
      = Some (x_final, h_final) /\
    Py.last_ h_final = 15 + 0.
Proof.
  assert (H2 : (2 <= length terreno_llano)%nat) by (cbn; lia).
  assert (Hk : todas_conocidas [bomba_media])
    by (repeat constructor; cbn; discriminate).
  split; [exact H2|]. split; [exact factor_laminar|]. split; [exact Hk|].
  destruct (C1_backward_boundary_fidelity terreno_llano fluido_laminar tubo 15
              (64 / 100) [bomba_media] H2 factor_laminar Hk)
    as (x & h & E & Hlast & _).
  exists x, h. split; [exact E | exact Hlast].
Defined.

(** ** Evaluating the insertion code on concrete profiles *)

Ltac Rcompute_step :=
  first
    [ progress (unfold interp, sample_leb, contains, zip, list_insert, add_from,
                shift, Py.last_, Py.first_)
    | progress (cbn [existsb interp_scan last hd sorted insert_sorted combine
                     fst snd map index nth firstn skipn app Nat.ltb Nat.leb
                     Nat.add orb andb negb])
    | Rdecide_step ].

Ltac Rcompute := repeat Rcompute_step.

Ltac Rlist_eq :=
  repeat match goal with
  | |- (_, _) = (_, _) => apply f_equal2
  | |- _ :: _ = _ :: _ => apply f_equal2
  | |- @eq (list _) [] [] => reflexivity
  | |- @eq R _ _ => first [reflexivity | lra | field]
  end.

(** ** The tuple order and the re-sort *)

Lemma sample_leb_spec a b : reflect (lex_le a b) (sample_leb a b).
Proof.
  unfold sample_leb, lex_le.
  destruct (Rltb_spec (fst a) (fst b)) as [Hlt|Hlt]; cbn [orb].
  - constructor. left. exact Hlt.
  - destruct (Reqb_spec (fst a) (fst b)) as [He|He]; cbn [andb].
    + destruct (Rleb_spec (snd a) (snd b)) as [Hle|Hle]; constructor.
      * right. split; assumption.
      * intros [H|[_ H]]; contradiction.
    + constructor. intros [H|[H _]]; contradiction.
Qed.

Lemma lex_le_fst a b : lex_le a b -> fst a <= fst b.
Proof. intros [H|[H _]]; lra. Qed.

Lemma lex_le_trans a b c : lex_le a b -> lex_le b c -> lex_le a c.
Proof.
  unfold lex_le. intros [H1|[H1 H1']] [H2|[H2 H2']].
  - left; lra.
  - left; lra.
  - left; lra.
  - right; split; lra.
Qed.

(** A sample not above the head of a list stays in front. *)
Lemma insert_sorted_front a l :
  Forall (lex_le a) l -> insert_sorted a l = a :: l.
Proof.
  intros H. destruct l as [|b l]; [reflexivity|].
  cbn [insert_sorted]. inversion H; subst.
  destruct (sample_leb_spec a b); [reflexivity | contradiction].
Qed.

(** Sorting a profile that is already in tuple order changes nothing. *)
Lemma sorted_ordenado s : ordenado s -> sorted s = s.
Proof.
  induction 1 as [|a l Hs IH Ha]; [reflexivity|].
  cbn [sorted]. rewrite IH. apply insert_sorted_front. exact Ha.
Qed.

(** A new sample at a position that is not in the profile lands between
    the samples before its position and those after it. *)
Lemma sorted_append_new pre post p hp :
  ordenado (pre ++ post) ->
  Forall (fun b => fst b < p) pre ->
  Forall (fun b => p < fst b) post ->
  sorted ((pre ++ post) ++ [(p, hp)]) = pre ++ (p, hp) :: post.
Proof.
  induction pre as [|c pre IH]; intros Hs Hpre Hpost.
  - cbn [app] in *. clear Hpre.
    induction post as [|b post IHp]; [reflexivity|].
    cbn [app sorted]. apply StronglySorted_inv in Hs. destruct Hs as [Hs Hb].
    inversion Hpost; subst.
    rewrite IHp by assumption. cbn [insert_sorted].
    destruct (sample_leb_spec b (p, hp)) as [Hle|_].
    + apply lex_le_fst in Hle. cbn [fst] in Hle. lra.
    + f_equal. apply insert_sorted_front. exact Hb.
  - cbn [app sorted]. cbn [app] in Hs.
    apply StronglySorted_inv in Hs. destruct Hs as [Hs Hc].
    inversion Hpre; subst.
    rewrite IH by assumption.
    apply insert_sorted_front.
    apply Forall_app in Hc. destruct Hc as [Hc1 Hc2].
    apply Forall_app. split; [exact Hc1|].
    constructor; [left; cbn [fst]; assumption | exact Hc2].
Qed.

(** Every profile in tuple order splits at a position [p]. *)
Lemma ordenado_split s p :
  ordenado s ->
  exists pre post,
    s = pre ++ post /\
    Forall (fun b => fst b < p) pre /\
    Forall (fun b => p <= fst b) post.
Proof.
  induction 1 as [|a l Hs IH Ha].
  - exists [], []. repeat split; constructor.
  - destruct (Rlt_dec (fst a) p) as [Hlt|Hge].
    + destruct IH as (pre & post & -> & Hpre & Hpost).
      exists (a :: pre), post. repeat split; [constructor; assumption | exact Hpost].
    + exists [], (a :: l). repeat split; [constructor|].
      constructor; [lra|].
      eapply Forall_impl; [|exact Ha]. cbv beta. intros b Hb.
      apply lex_le_fst in Hb. lra.
Qed.

Lemma contains_spec x l : reflect (In x l) (contains x l).
Proof.
  unfold contains. induction l as [|y l IH]; cbn [existsb In].
  - constructor. tauto.
  - destruct (Reqb_spec x y) as [->|Hne]; cbn [orb].
    + constructor. left. reflexivity.
    + destruct IH as [Hin|Hnin]; constructor.
      * right. exact Hin.
      * intros [H|H]; [congruence | contradiction].
Qed.

Lemma index_app_first pre p hp post :
  Forall (fun b : sample => fst b < p) pre ->
  index p (map fst (pre ++ (p, hp) :: post)) = length pre.
Proof.
  induction 1 as [|c pre Hc Hpre IH]; cbn [app map index fst length].
  - rewrite Reqb_true by reflexivity. reflexivity.
  - rewrite Reqb_false by lra. rewrite IH. reflexivity.
Qed.

Lemma map_fst_zip xs hs : length xs = length hs -> map fst (zip xs hs) = xs.
Proof.
  unfold zip. revert hs. induction xs as [|x xs IH]; intros [|h hs] H;
    try discriminate; [reflexivity|].
  cbn. f_equal. apply IH. cbn in H. lia.
Qed.

Lemma map_snd_zip xs hs : length xs = length hs -> map snd (zip xs hs) = hs.
Proof.
  unfold zip. revert hs. induction xs as [|x xs IH]; intros [|h hs] H;
    try discriminate; [reflexivity|].
  cbn. f_equal. apply IH. cbn in H. lia.
Qed.

Lemma zip_app xs hs p hp :
  length xs = length hs ->
  zip (xs ++ [p]) (hs ++ [hp]) = zip xs hs ++ [(p, hp)].
Proof.
  unfold zip. revert hs. induction xs as [|x xs IH]; intros [|h hs] H;
    try discriminate; [reflexivity|].
  cbn. f_equal. apply IH. cbn in H. lia.
Qed.

Lemma ordenado_app_r (l1 l2 : list sample) : ordenado (l1 ++ l2) -> ordenado l2.
Proof.
  unfold ordenado. induction l1 as [|a l1 IH]; cbn [app]; intros H; [exact H|].
  apply StronglySorted_inv in H. apply IH. apply H.
Qed.

Lemma ordenado_insert_mid pre post p hp :
  ordenado (pre ++ post) ->
  Forall (fun b => fst b < p) pre ->
  Forall (fun b => p < fst b) post ->
  ordenado (pre ++ (p, hp) :: post).
Proof.
  unfold ordenado. induction pre as [|c pre IH]; cbn [app]; intros Hs Hpre Hpost.
  - constructor; [exact Hs|].
    eapply Forall_impl; [|exact Hpost]. cbv beta. intros b Hb. left. exact Hb.
  - apply StronglySorted_inv in Hs. destruct Hs as [Hs Hc].
    inversion Hpre; subst.
    constructor; [apply IH; assumption|].
    apply Forall_app in Hc. destruct Hc as [Hc1 Hc2].
    apply Forall_app. split; [exact Hc1|].
    constructor; [left; assumption | exact Hc2].
Qed.

Lemma In_fst_zip xs hs p :
  length xs = length hs -> In p xs -> exists h, In (p, h) (zip xs hs).
Proof.
  unfold zip. revert hs. induction xs as [|x xs IH]; intros [|h hs] Hl Hin;
    try discriminate; [contradiction|].
  destruct Hin as [->|Hin].
  - exists h. left. reflexivity.
  - destruct (IH hs ltac:(cbn in Hl; lia) Hin) as [h' Hh']. exists h'. right. exact Hh'.
Qed.

(** The re-sorted profile is the cut with the sample at [p] in its place. *)
Lemma reordenar_corte xs hs p :
  length xs = length hs -> ordenado (zip xs hs) ->
  exists pre hp post,
    corte xs hs p pre hp post /\
    reordenar xs hs p
    = (map fst (pre ++ (p, hp) :: post), map snd (pre ++ (p, hp) :: post)).
Proof.
  intros Hlen Hord. unfold reordenar.
  destruct (ordenado_split (zip xs hs) p Hord) as (pre & post0 & Hs & Hpre & Hpost).
  destruct (contains_spec p xs) as [Hin|Hnin].
  - (* the pump sits on an existing sample *)
    destruct (In_fst_zip xs hs p Hlen Hin) as [h Hh].
    rewrite Hs in Hh. apply in_app_or in Hh. destruct Hh as [Hh|Hh].
    { rewrite Forall_forall in Hpre. specialize (Hpre _ Hh). cbn in Hpre. lra. }
    destruct post0 as [|[c hc] post]; [contradiction|].
    assert (Hc : c = p).
    { inversion Hpost; subst. cbn [fst] in *.
      destruct Hh as [E|Hh]; [congruence|].
      rewrite Hs in Hord. apply ordenado_app_r in Hord.
      apply StronglySorted_inv in Hord. destruct Hord as [_ Hall].
      rewrite Forall_forall in Hall. specialize (Hall _ Hh).
      apply lex_le_fst in Hall. cbn [fst] in Hall. lra. }
    subst c. exists pre, hc, post. split.
    + repeat split.
      * exact Hpre.
      * inversion Hpost; assumption.
      * rewrite <- Hs. exact Hord.
      * left. split; assumption.
    + rewrite (sorted_ordenado _ Hord), Hs. reflexivity.
  - (* a new sample is appended and sorted into place *)
    assert (Hpost' : Forall (fun b => p < fst b) post0).
    { rewrite Forall_forall in Hpost |- *. intros b Hb.
      specialize (Hpost b Hb). destruct (Req_dec_T (fst b) p) as [E|E]; [|lra].
      exfalso. apply Hnin. rewrite <- (map_fst_zip xs hs Hlen), Hs, <- E.
      apply in_map, in_or_app. right. exact Hb. }
    exists pre, (interp p xs hs), post0. split.
    + repeat split.
      * exact Hpre.
      * exact Hpost.
      * apply ordenado_insert_mid; [rewrite <- Hs|..]; assumption.
      * right. repeat split; assumption.
    + rewrite zip_app by exact Hlen. rewrite Hs.
      rewrite sorted_append_new; [reflexivity | rewrite <- Hs | ..]; assumption.
Qed.

(** ** The shape of the profile after a pump jump *)

Lemma firstn_length_app {A : Type} (l1 l2 : list A) :
  firstn (length l1) (l1 ++ l2) = l1.
Proof. induction l1 as [|a l1 IH]; cbn; [destruct l2|f_equal]; auto. Qed.

Lemma skipn_length_app {A : Type} (l1 l2 : list A) :
  skipn (length l1) (l1 ++ l2) = l2.
Proof. induction l1 as [|a l1 IH]; cbn; auto. Qed.

Lemma list_insert_app l1 v l2 :
  list_insert (length l1) v (l1 ++ l2) = l1 ++ v :: l2.
Proof.
  unfold list_insert. rewrite firstn_length_app, skipn_length_app. reflexivity.
Qed.

Lemma add_from_app l1 a head l2 :
  add_from (length l1 + 1) head (l1 ++ a :: l2)
  = l1 ++ a :: map (fun h => h + head) l2.
Proof.
  unfold add_from.
  replace (length l1 + 1)%nat with (length (l1 ++ [a])) by (rewrite length_app; reflexivity).
  replace (l1 ++ a :: l2) with ((l1 ++ [a]) ++ l2) by (rewrite <- app_assoc; reflexivity).
  rewrite firstn_length_app, skipn_length_app, <- app_assoc. reflexivity.
Qed.

Lemma nth_length_app (l1 : list R) a l2 : nth (length l1) (l1 ++ a :: l2) 0 = a.
Proof. induction l1 as [|b l1 IH]; cbn; auto. Qed.

Lemma salto_en_listas (n : nat) (pre_x pre_h : list R) p hp post_x post_h v head :
  n = length pre_x -> n = length pre_h ->
  list_insert n p (pre_x ++ p :: post_x) = pre_x ++ p :: p :: post_x /\
  nth n (pre_h ++ hp :: post_h) 0 = hp /\
  add_from (n + 1) head (list_insert n v (pre_h ++ hp :: post_h))
    = pre_h ++ v :: (hp + head) :: map (fun h => h + head) post_h.
Proof.
  intros Hx Hh. split; [rewrite Hx; apply list_insert_app|].
  rewrite Hh. split; [apply nth_length_app|].
  rewrite list_insert_app, add_from_app. reflexivity.
Qed.

(** On a profile in tuple order the jump leaves the samples before the
    pump alone, writes the pre-jump head on a duplicate sample, and raises
    the sample at the pump and every later one by [head]. *)
Lemma insertar_salto_corte xs hs p head :
  length xs = length hs -> ordenado (zip xs hs) ->
  exists pre hp post,
    corte xs hs p pre hp post /\
    insertar_salto xs hs p head
    = (map fst pre ++ p :: p :: map fst post,
       map snd pre ++ altura_antes pre p hp post
         :: (hp + head) :: map (fun h => h + head) (map snd post)).
Proof.
  intros Hlen Hord.
  destruct (reordenar_corte xs hs p Hlen Hord) as (pre & hp & post & Hc & E).
  exists pre, hp, post. split; [exact Hc|].
  unfold insertar_salto. rewrite E.
  destruct Hc as (Hpre & _).
  rewrite (index_app_first pre p hp post Hpre).
  assert (Ha : (if (0 <? length pre)%nat
                then interp (p - 1e-6) (map fst (pre ++ (p, hp) :: post))
                       (map snd (pre ++ (p, hp) :: post))
                else hp) = altura_antes pre p hp post)
    by (unfold altura_antes; destruct pre; reflexivity).
  rewrite !map_app in *. cbn [map fst snd] in *.
  destruct (salto_en_listas (length pre) (map fst pre) (map snd pre) p hp
              (map fst post) (map snd post) (altura_antes pre p hp post) head
              ltac:(rewrite length_map; reflexivity)
              ltac:(rewrite length_map; reflexivity)) as (E1 & E2 & E3).
  rewrite E1, E2, Ha, E3. reflexivity.
Qed.

Lemma last_app_r (l1 l2 : list R) : l2 <> [] -> Py.last_ (l1 ++ l2) = Py.last_ l2.
Proof.
  unfold Py.last_. intros H. induction l1 as [|a l1 IH]; [reflexivity|].
  cbn [app]. destruct (l1 ++ l2) eqn:E.
  - apply app_eq_nil in E. destruct E as [_ E]. contradiction.
  - exact IH.
Qed.

Lemma last_In (l : list R) : l <> [] -> In (Py.last_ l) l.
Proof.
  unfold Py.last_. induction l as [|a l IH]; intros H; [congruence|].
  destruct l as [|b l]; [left; reflexivity|].
  right. apply IH. discriminate.
Qed.

(** After the jump the last head is the former last head plus [head]. *)
Lemma salto_last xs hs p head pre hp post ha :
  length xs = length hs -> xs <> [] ->
  corte xs hs p pre hp post ->
  Py.last_ (map snd pre ++ ha :: (hp + head)
              :: map (fun h => h + head) (map snd post))
  = Py.last_ hs + head.
Proof.
  intros Hlen Hne (Hpre & Hpost & Hord & Hcase).
  rewrite <- (map_snd_zip xs hs Hlen).
  destruct post as [|c post].
  - cbn [map]. rewrite last_app_r by discriminate. cbn [Py.last_ last].
    f_equal. destruct Hcase as [[_ E]|(Hnin & E & Ehp)].
    + rewrite E, map_app. rewrite last_app_r by discriminate. reflexivity.
    + rewrite map_snd_zip by exact Hlen. rewrite Ehp. unfold interp.
      rewrite Rltb_true; [reflexivity|].
      pose proof (last_In xs Hne) as Hl.
      rewrite <- (map_fst_zip xs hs Hlen), E, app_nil_r in Hl.
      apply in_map_iff in Hl. destruct Hl as (b & Eb & Hb).
      rewrite Forall_forall in Hpre. specialize (Hpre b Hb).
      rewrite <- (map_fst_zip xs hs Hlen), E, app_nil_r, <- Eb. exact Hpre.
  - rewrite last_app_r by discriminate.
    change (Py.last_ (ha :: (hp + head) :: map (fun h => h + head) (map snd (c :: post))))
      with (Py.last_ (shift head (map snd (c :: post)))).
    rewrite last_shift by discriminate. f_equal.
    destruct Hcase as [[_ E]|(_ & E & _)]; rewrite E, map_app.
    + rewrite last_app_r by discriminate.
      change (map snd ((p, hp) :: c :: post)) with (hp :: map snd (c :: post)).
      reflexivity.
    + rewrite last_app_r by discriminate. reflexivity.
Qed.

(** [agregar_bomba] on a non-empty profile in tuple order: the offset of
    the final adjustment is [- head], so the samples before the pump are
    lowered by [head] and the sample at the pump and the later ones keep
    their heads. *)
Lemma agregar_bomba_corte xs hs p head :
  length xs = length hs -> xs <> [] -> ordenado (zip xs hs) ->
  exists pre hp post,
    corte xs hs p pre hp post /\
    agregar_bomba xs hs p head
    = (map fst pre ++ p :: p :: map fst post,
       shift (- head)
         (map snd pre ++ altura_antes pre p hp post
            :: (hp + head) :: map (fun h => h + head) (map snd post))).
Proof.
  intros Hlen Hne Hord.
  destruct (insertar_salto_corte xs hs p head Hlen Hord)
    as (pre & hp & post & Hc & E).
  exists pre, hp, post. split; [exact Hc|].
  unfold agregar_bomba. rewrite E.
  rewrite (salto_last xs hs p head pre hp post _ Hlen Hne Hc).
  f_equal. f_equal. ring.
Qed.

(** ** The pump jump on a two-point profile

    The profile [(0, 2), (2, 0)] loses one metre of head per metre.  A 5 m
    pump at position 1: the interpolated head there is 1, the pre-jump
    sample reads the profile at [1 - 1e-6], that is [1 + 1e-6], and the
    final adjustment lowers everything by 5. *)
Lemma agregar_bomba_dos_puntos :
  agregar_bomba [0; 2] [2; 0] 1 5 = ([0; 1; 1; 2], [-3; -4 + 1e-6; 1; 0]).
Proof.
  unfold agregar_bomba, insertar_salto, reordenar. Rcompute. Rlist_eq.
Qed.

Lemma insertar_salto_dos_puntos :
  insertar_salto [0; 2] [2; 0] 1 5 = ([0; 1; 1; 2], [2; 1 + 1e-6; 6; 5]).
Proof.
  unfold insertar_salto, reordenar. Rcompute. Rlist_eq.
Qed.

Lemma ordenado_dos_puntos : ordenado (zip [0; 2] [2; 0]).
Proof.
  unfold ordenado, zip. cbn [combine].
  repeat constructor. cbn [fst]. lra.
Qed.

(** C3, as stated, fails: the jump written by the insertion is
    [5 - 1e-6], which differs from the pump head 5 by a thousand times the
    tolerance [1e-9]. *)
Lemma C3_jump_differs_from_head :
  let xs := [0; 2] in
  let hs := [2; 0] in
  let hs' := snd (agregar_bomba xs hs 1 5) in
  ordenado (zip xs hs) /\ 0 <= 1 <= 2 /\
  nth 2 hs' 0 - nth 1 hs' 0 = 5 - 1e-6 /\
  ~ Rabs ((nth 2 hs' 0 - nth 1 hs' 0) - 5) <= 1e-9.
Proof.
  cbv zeta. rewrite agregar_bomba_dos_puntos. cbn [snd nth].
  split; [exact ordenado_dos_puntos|]. split; [lra|]. split; [lra|].
  unfold Rabs. destruct (Rcase_abs _); lra.
Qed.

Lemma nth_shift k delta (l : list R) :
  (k < length l)%nat -> nth k (shift delta l) 0 = nth k l 0 + delta.
Proof.
  intros H. unfold shift.
  set (g := fun h : R => h + delta).
  rewrite (nth_indep _ 0 (g 0)) by (rewrite length_map; exact H).
  rewrite map_nth. reflexivity.
Qed.

Lemma nth_map_snd k (l : list sample) : nth k (map snd l) 0 = snd (nth k l (0, 0)).
Proof. change 0 with (snd (0, 0)) at 1. apply map_nth. Qed.

Lemma nth_map_fst k (l : list sample) : nth k (map fst l) 0 = fst (nth k l (0, 0)).
Proof. change 0 with (fst (0, 0)) at 1. apply map_nth. Qed.

(** Reading the profile written by the jump, sample by sample. *)
Lemma nth_salto (A : list R) a b C k :
  nth (length A) (A ++ a :: b :: C) 0 = a /\
  nth (S (length A)) (A ++ a :: b :: C) 0 = b /\
  nth (S (S (length A)) + k) (A ++ a :: b :: C) 0 = nth k C 0 /\
  ((k < length A)%nat -> nth k (A ++ a :: b :: C) 0 = nth k A 0).
Proof.
  repeat split.
  - apply nth_length_app.
  - replace (S (length A)) with (length A + 1)%nat by lia.
    rewrite app_nth2_plus. reflexivity.
  - replace (S (S (length A)) + k)%nat with (length A + S (S k))%nat by lia.
    rewrite app_nth2_plus. reflexivity.
  - intros H. apply app_nth1. exact H.
Qed.

(** C3, amended: on a non-empty profile ordered by position (samples at
    one position by non-decreasing head), after [agregar_bomba] the two
    samples at the pump position differ by [head] minus the excess of the
    pre-jump head (the profile read at [p - 1e-6], or the head at [p]
    itself when the pump is the first sample) over the head at [p]; the
    difference is exactly [head] when the pump is the first sample.  Every
    sample of the old profile at a position greater than [p] is found
    after the jump with its head changed by [head] plus the adjustment
    constant, which is [- head]; the samples before [p] are changed by the
    constant alone. *)
Theorem C3_pump_jump (xs hs : list R) (p head : R) :
  length xs = length hs -> xs <> [] -> ordenado (zip xs hs) ->
  exists pre hp post,
    corte xs hs p pre hp post /\
    (forall s, In s (zip xs hs) -> p < fst s -> In s post) /\
    let xs' := fst (agregar_bomba xs hs p head) in
    let hs' := snd (agregar_bomba xs hs p head) in
    let i := length pre in
    let delta := - head in
    nth i xs' 0 = p /\ nth (S i) xs' 0 = p /\
    nth (S i) hs' 0 - nth i hs' 0 = head - (altura_antes pre p hp post - hp) /\
    (i = 0%nat -> nth (S i) hs' 0 - nth i hs' 0 = head) /\
    (forall k, (k < length post)%nat ->
       nth (S (S i) + k) xs' 0 = fst (nth k post (0, 0)) /\
       nth (S (S i) + k) hs' 0 = snd (nth k post (0, 0)) + head + delta) /\
    (forall k, (k < i)%nat ->
       nth k xs' 0 = fst (nth k pre (0, 0)) /\
       nth k hs' 0 = snd (nth k pre (0, 0)) + delta).
Proof.
  intros Hlen Hne Hord.
  destruct (agregar_bomba_corte xs hs p head Hlen Hne Hord)
    as (pre & hp & post & Hc & E).
  exists pre, hp, post. split; [exact Hc|]. split.
  { intros s Hs Hp. destruct Hc as (Hpre & _ & _ & Hcase).
    assert (Hnp : ~ In s pre).
    { intros Hin. rewrite Forall_forall in Hpre. specialize (Hpre s Hin). lra. }
    destruct Hcase as [[_ Ez]|(_ & Ez & _)]; rewrite Ez in Hs;
      apply in_app_or in Hs; destruct Hs as [Hs|Hs]; try contradiction.
    - destruct Hs as [<-|Hs]; [cbn [fst] in Hp; lra | exact Hs].
    - exact Hs. }
  rewrite E. cbn [fst snd]. cbv zeta.
  set (ha := altura_antes pre p hp post).
  set (L := map snd pre ++ ha :: (hp + head)
              :: map (fun h => h + head) (map snd post)).
  assert (HL : length L = (length pre + 2 + length post)%nat)
    by (unfold L; rewrite length_app; cbn [length]; rewrite !length_map; lia).
  assert (Hn : forall k,
             nth (length pre) L 0 = ha /\
             nth (S (length pre)) L 0 = hp + head /\
             nth (S (S (length pre)) + k) L 0
               = nth k (map (fun h => h + head) (map snd post)) 0 /\
             ((k < length pre)%nat -> nth k L 0 = nth k (map snd pre) 0)).
  { intros k. rewrite <- (length_map snd pre). apply nth_salto. }
  assert (Hx : forall k,
             nth (length pre) (map fst pre ++ p :: p :: map fst post) 0 = p /\
             nth (S (length pre)) (map fst pre ++ p :: p :: map fst post) 0 = p /\
             nth (S (S (length pre)) + k) (map fst pre ++ p :: p :: map fst post) 0
               = nth k (map fst post) 0 /\
             ((k < length pre)%nat ->
              nth k (map fst pre ++ p :: p :: map fst post) 0
                = nth k (map fst pre) 0)).
  { intros k. rewrite <- (length_map fst pre). apply nth_salto. }
  destruct (Hn O) as (Hn0 & Hn1 & _). destruct (Hx O) as (Hx0 & Hx1 & _).
  repeat split.
  - exact Hx0.
  - exact Hx1.
  - rewrite !nth_shift by lia. rewrite Hn0, Hn1. ring.
  - intros Hi. rewrite !nth_shift by lia. rewrite Hn0, Hn1.
    unfold ha, altura_antes. destruct pre; [ring | discriminate].
  - destruct (Hx k) as (_ & _ & Hk & _). rewrite Hk. apply nth_map_fst.
  - rewrite nth_shift by lia.
    destruct (Hn k) as (_ & _ & Hk & _). rewrite Hk.
    change (map (fun h => h + head) (map snd post)) with (shift head (map snd post)).
    rewrite nth_shift by (rewrite length_map; assumption).
    rewrite nth_map_snd. reflexivity.
  - destruct (Hx k) as (_ & _ & _ & Hk). rewrite Hk by assumption.
    apply nth_map_fst.
  - rewrite nth_shift by lia.
    destruct (Hn k) as (_ & _ & _ & Hk). rewrite Hk by assumption.
    rewrite nth_map_snd. reflexivity.
Qed.

Lemma C3_pump_jump_witness :
  length [0; 2] = length [2; 0] /\ [0; 2] <> [] /\ ordenado (zip [0; 2] [2; 0]) /\
  exists pre hp post, corte [0; 2] [2; 0] 1 pre hp post.
Proof.
  assert (Hl : length [0; 2] = length [2; 0]) by reflexivity.
  assert (Hn : [0; 2] <> []) by discriminate.
  repeat (split; [assumption || exact ordenado_dos_puntos|]).
  destruct (C3_pump_jump [0; 2] [2; 0] 1 5 Hl Hn ordenado_dos_puntos)
    as (pre & hp & post & Hc & _).
  exists pre, hp, post. exact Hc.
Defined.

(** ** Which path renormalises *)

(** C4, as stated, fails both ways on the two-point profile with a 5 m
    pump at position 1.  In the loop of the boundary-constrained generator
    the sample at position 0, before the pump, drops from 2 to -3: an
    offset is applied.  In the loop of the backward generator the final
    sample rises from 0 to 5: no offset restores it. *)
Lemma C4_offset_is_in_the_other_path :
  let b := {| b_x := 1; b_head := Some 5 |} in
  let xs := [0; 2] in
  let hs := [2; 0] in
  (exists x' h' res,
      insertar_conocidas [b] xs hs = (x', h', res) /\
      nth 0 x' 0 = 0 /\ 0 <= b_x b /\ nth 0 h' 0 <> nth 0 hs 0) /\
  (exists x' h',
      insertar_bombas [b] xs hs = Some (x', h') /\
      Py.last_ h' <> Py.last_ hs).
Proof.
  cbv zeta. split.
  - cbn [insertar_conocidas b_head b_x]. rewrite agregar_bomba_dos_puntos.
    do 3 eexists. split; [reflexivity|]. cbn [nth]. repeat split; lra.
  - cbn [insertar_bombas b_head b_x]. rewrite bind_some, insertar_salto_dos_puntos.
    do 2 eexists. split; [reflexivity|]. cbn [Py.last_ last]. lra.
Qed.

(** A profile that is not in tuple order: the one a pump of head [-1] at
    the last position leaves (its two samples at position 2 are in
    decreasing order of head).  A 5 m pump at position 1 then lowers the
    first sample by [6 + 1e-6], not by 5: the re-sort moves the lower
    sample at position 2 in front of the higher one, which becomes the
    last. *)
Lemma agregar_bomba_desordenado :
  agregar_bomba [0; 2] [2; 0] 2 (-1) = ([0; 2; 2], [3; 1 + 1e-6; 0]) /\
  ~ ordenado (zip [0; 2; 2] [3; 1 + 1e-6; 0]) /\
  nth 0 (snd (agregar_bomba [0; 2; 2] [3; 1 + 1e-6; 0] 1 5)) 0
  = 3 - (6 + 1e-6).
Proof.
  split; [|split].
  - unfold agregar_bomba, insertar_salto, reordenar. Rcompute. Rlist_eq.
  - intros H. unfold ordenado, zip in H. cbn [combine] in H.
    apply StronglySorted_inv in H as [H _].
    apply StronglySorted_inv in H as [_ Hf].
    apply Forall_inv in Hf.
    unfold lex_le in Hf. cbn [fst snd] in Hf. lra.
  - unfold agregar_bomba, insertar_salto, reordenar. Rcompute.
    cbn [snd nth]. lra.
Qed.

(** C4, amended.  For any non-empty profile, the loop of the
    boundary-constrained generator inserts a known-head pump as the loop
    of the backward known-final-head generator does, and then applies one
    constant offset to the whole profile, which leaves the final head as
    it was before the insertion; the backward loop applies no offset.  On
    a profile in tuple order the offset is [- head]: in the
    boundary-constrained loop the samples before the pump are lowered by
    [head] and the heads from the pump on are those of the old profile; in
    the backward loop the samples before the pump keep their heads, the
    gain is added from the pump on and the final head rises by [head]. *)
Theorem C4_renormalization_asymmetry (xs hs : list R) (b : bomba) (head : R) :
  b_head b = Some head ->
  length xs = length hs -> xs <> [] ->
  (exists X H delta,
      insertar_bombas [b] xs hs = Some (X, H) /\
      insertar_conocidas [b] xs hs
        = (X, shift delta H, [{| b_x := b_x b; b_head := Some head |}]) /\
      Py.last_ (shift delta H) = Py.last_ hs) /\
  (ordenado (zip xs hs) ->
   exists pre hp post,
    corte xs hs (b_x b) pre hp post /\
    let X := map fst pre ++ b_x b :: b_x b :: map fst post in
    let H := map snd pre ++ altura_antes pre (b_x b) hp post
               :: (hp + head) :: map (fun h => h + head) (map snd post) in
    insertar_bombas [b] xs hs = Some (X, H) /\
    Py.last_ H = Py.last_ hs + head /\
    insertar_conocidas [b] xs hs
      = (X, shift (- head) H, [{| b_x := b_x b; b_head := Some head |}]) /\
    Py.last_ (shift (- head) H) = Py.last_ hs).
Proof.
  intros Hb Hlen Hne. split.
  - cbn [insertar_bombas insertar_conocidas]. rewrite Hb, bind_some.
    unfold agregar_bomba.
    pose proof (insertar_salto_not_nil xs hs (b_x b) head) as Hnn.
    destruct (insertar_salto xs hs (b_x b) head) as [X H]. cbn [snd] in Hnn.
    exists X, H, (Py.last_ hs - Py.last_ H).
    split; [reflexivity|]. split; [reflexivity|].
    rewrite last_shift by exact Hnn. ring.
  - intros Hord.
    destruct (insertar_salto_corte xs hs (b_x b) head Hlen Hord)
      as (pre & hp & post & Hc & Es).
    exists pre, hp, post. split; [exact Hc|]. cbv zeta.
    pose proof (salto_last xs hs (b_x b) head pre hp post
                  (altura_antes pre (b_x b) hp post) Hlen Hne Hc) as Hlast.
    assert (Ea' : agregar_bomba xs hs (b_x b) head
                  = (map fst pre ++ b_x b :: b_x b :: map fst post,
                     shift (- head)
                       (map snd pre ++ altura_antes pre (b_x b) hp post
                          :: (hp + head) :: map (fun h => h + head) (map snd post)))).
    { unfold agregar_bomba. rewrite Es, Hlast. f_equal. f_equal. ring. }
    repeat split.
    + cbn [insertar_bombas]. rewrite Hb, bind_some, Es. reflexivity.
    + exact Hlast.
    + cbn [insertar_conocidas]. rewrite Hb, Ea'. reflexivity.
    + rewrite last_shift, Hlast; [ring|].
      intros E. apply (f_equal (@length R)) in E.
      rewrite length_app in E. cbn [length] in E. lia.
Qed.

Lemma C4_renormalization_asymmetry_witness :
  let b := {| b_x := 1; b_head := Some 5 |} in
  b_head b = Some 5 /\
  length [0; 2] = length [2; 0] /\ [0; 2] <> [] /\
  (ordenado (zip [0; 2] [2; 0]) ->
   exists pre hp post, corte [0; 2] [2; 0] (b_x b) pre hp post).
Proof.
  cbv zeta.
  assert (Hl : length [0; 2] = length [2; 0]) by reflexivity.
  assert (Hn : [0; 2] <> []) by discriminate.
  split; [reflexivity|]. split; [exact Hl|]. split; [exact Hn|].
  intros Ho.
  destruct (C4_renormalization_asymmetry [0; 2] [2; 0]
              {| b_x := 1; b_head := Some 5 |} 5 eq_refl Hl Hn)
    as [_ Hord].
  destruct (Hord Ho) as (pre & hp & post & Hc & _).
  exists pre, hp, post. exact Hc.
Defined.

(** ** How the re-sort breaks ties *)

Lemma insert_sorted_perm a l : Permutation (insert_sorted a l) (a :: l).
Proof.
  induction l as [|b l IH]; cbn [insert_sorted]; [reflexivity|].
  destruct (sample_leb a b); [reflexivity|].
  rewrite IH. apply perm_swap.
Qed.

Lemma sorted_perm l : Permutation (sorted l) l.
Proof.
  induction l as [|a l IH]; cbn [sorted]; [reflexivity|].
  rewrite insert_sorted_perm. constructor. exact IH.
Qed.

Lemma lex_le_total a b : ~ lex_le a b -> lex_le b a.
Proof.
  unfold lex_le. intros H.
  destruct (Rtotal_order (fst a) (fst b)) as [Hlt|[Heq|Hgt]].
  - exfalso. apply H. left. exact Hlt.
  - right. split; [lra|].
    destruct (Rle_dec (snd b) (snd a)) as [Hle|Hnle]; [exact Hle|].
    exfalso. apply H. right. split; lra.
  - left. exact Hgt.
Qed.

Lemma insert_sorted_ordenado a l : ordenado l -> ordenado (insert_sorted a l).
Proof.
  unfold ordenado. induction 1 as [|b l Hs IH Hb]; cbn [insert_sorted].
  - repeat constructor.
  - destruct (sample_leb_spec a b) as [Hle|Hnle].
    + constructor; [constructor; assumption|].
      constructor; [exact Hle|].
      eapply Forall_impl; [|exact Hb]. cbv beta. intros c Hc.
      eapply lex_le_trans; eassumption.
    + constructor; [exact IH|].
      eapply Permutation_Forall; [symmetry; apply insert_sorted_perm|].
      constructor; [apply lex_le_total; exact Hnle | exact Hb].
Qed.

Lemma sorted_is_ordenado l : ordenado (sorted l).
Proof.
  induction l as [|a l IH]; cbn [sorted]; [constructor|].
  apply insert_sorted_ordenado. exact IH.
Qed.

(** Where no two samples share a position the two sorts agree. *)
Lemma insert_sorted_by_position a l :
  ~ In (fst a) (map fst l) -> insert_sorted a l = insert_by_position a l.
Proof.
  induction l as [|b l IH]; intros Hnin; [reflexivity|].
  cbn [insert_sorted insert_by_position].
  cbn [map In] in Hnin.
  assert (Hne : fst a <> fst b) by (intros E; apply Hnin; left; congruence).
  unfold sample_leb. rewrite (Reqb_false _ _ Hne). cbn [andb]. rewrite orb_false_r.
  destruct (Rltb_spec (fst a) (fst b)) as [Hlt|Hge].
  - rewrite Rleb_true by lra. reflexivity.
  - rewrite Rleb_false by lra. f_equal. apply IH. tauto.
Qed.

Lemma sorted_sorted_by_position l :
  NoDup (map fst l) -> sorted l = sorted_by_position l.
Proof.
  induction l as [|a l IH]; intros Hnd; [reflexivity|].
  cbn [map] in Hnd. apply NoDup_cons_iff in Hnd. destruct Hnd as [Hnin Hnd].
  cbn [sorted sorted_by_position fold_right].
  change (fold_right insert_by_position [] l) with (sorted_by_position l).
  rewrite <- (IH Hnd). apply insert_sorted_by_position.
  intros Hin. apply Hnin.
  eapply Permutation_in; [|exact Hin].
  apply Permutation_map. apply sorted_perm.
Qed.

(** The profile left by a pump of negative head: the two samples at the
    pump position are in decreasing order of head. *)
Lemma agregar_bomba_negativa :
  agregar_bomba [0; 2] [2; 0] 1 (-1) = ([0; 1; 1; 2], [3; 2 + 1e-6; 1; 0]).
Proof.
  unfold agregar_bomba, insertar_salto, reordenar. Rcompute. Rlist_eq.
Qed.

(** C8: the re-sort does not keep samples at one position in their
    order.  On the profile above, which a pump of head [-1] at position 1
    left with its pre-jump sample (1, 2 + 1e-6) before its post-jump
    sample (1, 1), a pump at the new position 0.5 makes the re-sort put
    (1, 1) first: [sorted] compares (position, head) tuples, whereas the
    sort by position with ties in their original order keeps the two
    samples as they were. *)
Lemma C8_ties_are_not_kept_in_order :
  let xs := [0; 1; 1; 2] in
  let hs := [3; 2 + 1e-6; 1; 0] in
  contains 0.5 xs = false /\
  reordenar xs hs 0.5 = ([0; 0.5; 1; 1; 2], [3; 2.5000005; 1; 2 + 1e-6; 0]) /\
  reordenar_spec xs hs 0.5 = ([0; 0.5; 1; 1; 2], [3; 2.5000005; 2 + 1e-6; 1; 0]) /\
  reordenar xs hs 0.5 <> reordenar_spec xs hs 0.5.
Proof.
  cbv zeta.
  assert (Hc : contains 0.5 [0; 1; 1; 2] = false) by (Rcompute; reflexivity).
  assert (E1 : reordenar [0; 1; 1; 2] [3; 2 + 1e-6; 1; 0] 0.5
               = ([0; 0.5; 1; 1; 2], [3; 2.5000005; 1; 2 + 1e-6; 0])).
  { unfold reordenar. Rcompute. Rlist_eq. }
  assert (E2 : reordenar_spec [0; 1; 1; 2] [3; 2 + 1e-6; 1; 0] 0.5
               = ([0; 0.5; 1; 1; 2], [3; 2.5000005; 2 + 1e-6; 1; 0])).
  { unfold reordenar_spec, sorted_by_position.
    repeat first [ Rcompute_step
                 | progress cbn [fold_right insert_by_position fst snd] ].
    Rlist_eq. }
  repeat split; try assumption.
  rewrite E1, E2. intros E. injection E as E. lra.
Qed.

(** What the re-sort does in general: when the pump position is not in
    [xs], the interpolated sample is added and the result holds exactly
    the old samples and the new one in tuple order.  When no two samples
    share a position this is the sort by position, ties in their original
    order, and the defect above cannot show. *)
Lemma reordenar_en_orden_de_tuplas (xs hs : list R) (p : R) :
  length xs = length hs ->
  contains p xs = false ->
  exists s,
    reordenar xs hs p = (map fst s, map snd s) /\
    Permutation s (zip xs hs ++ [(p, interp p xs hs)]) /\
    ordenado s /\
    (NoDup xs -> reordenar xs hs p = reordenar_spec xs hs p).
Proof.
  intros Hlen Hc. unfold reordenar, reordenar_spec. rewrite Hc.
  exists (sorted (zip (xs ++ [p]) (hs ++ [interp p xs hs]))).
  split; [reflexivity|]. split; [|split].
  - rewrite <- zip_app by exact Hlen. apply sorted_perm.
  - apply sorted_is_ordenado.
  - intros Hnd. rewrite sorted_sorted_by_position; [reflexivity|].
    rewrite map_fst_zip by (rewrite !length_app, Hlen; reflexivity).
    apply NoDup_rev in Hnd.
    rewrite <- (rev_involutive (xs ++ [p])). apply NoDup_rev.
    rewrite rev_app_distr. cbn [rev app]. constructor; [|exact Hnd].
    rewrite <- in_rev. intros Hin.
    destruct (contains_spec p xs); [discriminate | contradiction].
Qed.

(** ** Closing the initial boundary with the pump of unknown head *)

(** On a non-empty ordered profile, inserting a pump whose head is the
    excess of the first head over the target brings the first head onto
    the target. *)
Lemma agregar_bomba_cierra xs hs p objetivo :
  length xs = length hs -> xs <> [] -> ordenado (zip xs hs) ->
  Py.first_ (snd (agregar_bomba xs hs p (Py.first_ hs - objetivo))) = objetivo.
Proof.
  intros Hlen Hne Hord.
  destruct (agregar_bomba_corte xs hs p (Py.first_ hs - objetivo) Hlen Hne Hord)
    as (pre & hp & post & (Hpre & Hpost & _ & Hcase) & E).
  rewrite E. cbn [snd].
  rewrite <- (map_snd_zip xs hs Hlen) at 1.
  destruct pre as [|c pre].
  - cbn [map app shift Py.first_ hd altura_antes].
    destruct Hcase as [[_ Ez]|(Hnin & Ez & Ehp)].
    + rewrite Ez. cbn [app map snd hd Py.first_]. ring.
    + assert (Hhp : hp = Py.first_ hs).
      { rewrite Ehp. unfold interp.
        destruct xs as [|x0 xs]; [congruence|].
        destruct hs as [|h0 hs]; [discriminate|].
        cbn [app] in Ez. unfold zip in Ez. cbn [combine] in Ez.
        destruct post as [|c post]; [discriminate|].
        injection Ez as Ec Ez. subst c.
        assert (Hall : Forall (fun b => p <= b) (x0 :: xs)).
        { rewrite <- (map_fst_zip (x0 :: xs) (h0 :: hs) Hlen).
          unfold zip. cbn [combine]. rewrite Ez.
          change ((x0, h0) :: post) with ([(x0, h0)] ++ post) in Hpost.
          apply Forall_map. cbn [map]. exact Hpost. }
        assert (Hx0 : p < x0).
        { inversion Hall; subst.
          destruct (Req_dec_T p x0) as [->|]; [|lra].
          exfalso. apply Hnin. left. reflexivity. }
        rewrite Rltb_false.
        - rewrite Rltb_true by (cbn; exact Hx0). reflexivity.
        - pose proof (last_In (x0 :: xs) ltac:(discriminate)) as Hl.
          rewrite Forall_forall in Hall. apply Hall. exact Hl. }
      rewrite map_snd_zip by exact Hlen. rewrite Hhp. ring.
  - destruct Hcase as [[_ Ez]|(_ & Ez & _)]; rewrite Ez;
      cbn [map app shift Py.first_ hd snd]; ring.
Qed.

(** C2 on a failing input.  Flat terrain from 0 to 100 m, laminar flow,
    final pressure 15 m, initial pressure 10 m, a known pump of head -1 m at
    the first terrain point and the unknown pump at 50 m.  The known pump
    leaves the samples (0, 16 + K), (0, 15 + K) at position 0, where [K] is
    the friction loss of the route; the unknown head is computed from the
    first of them, 16 + K - 10.  The insertion of the unknown pump then
    re-sorts the profile, which puts (0, 15 + K) first, and lowers it by
    the computed head: the returned profile starts at 9 m, one metre under
    the 10 m asked for.  The returned pump list carries the known head -1
    and the computed head. *)
Theorem C2_initial_boundary_missed :
  let K := perdida (64 / 100) (diametro tubo) (velocidad fluido_laminar)
             (100 - 0) (0 - 0) in
  exists x_final h_final,
    generar_perfil_presion_con_bomba_desconocida terreno_llano fluido_laminar
      tubo 10 15 bombas_con_negativa
    = Some (x_final, h_final,
            [ {| b_x := 0; b_head := Some (-1) |};
              {| b_x := 50; b_head := Some (15 + 0 + K + (15 + 0 - (15 + 0 + -1)) - (10 + 0)) |} ]) /\
    Py.first_ h_final = 9 /\
    10 + Py.first_ (col_z terreno_llano) = 10 /\
    ~ Rabs (Py.first_ h_final - (10 + Py.first_ (col_z terreno_llano))) <= 1e-9.
Proof.
  cbv zeta.
  unfold generar_perfil_presion_con_bomba_desconocida.
  rewrite factor_laminar, bind_some.
  unfold perfil_sin_bombas, terreno_llano, col_x, col_z, bombas_con_negativa.
  cbn [map fst snd rev app acumular_reversa Py.first_ hd filter es_conocida
       b_head b_x negb insertar_conocidas].
  set (K := perdida _ _ _ _ _).
  unfold agregar_bomba, insertar_salto, reordenar.
  Rcompute.
  do 2 eexists. split; [reflexivity|].
  cbn [hd]. split; [ring|]. split; [ring|].
  match goal with |- ~ Rabs ?e <= _ => replace e with (-1) by ring end.
  unfold Rabs. destruct (Rcase_abs _); lra.
Qed.

(** Where the boundary is met: whenever the profile left by the known
    pumps is non-empty and in tuple order, the generator returns a profile
    that starts at [presion_inicial_m + z[0]], and the pump list holds the
    known pumps followed by the resolved one. *)
Lemma desconocida_cierra_si_ordenado
  (P : terrain) (fl : fluido) (tb : tuberia) (presion_inicial_m presion_final_m : R)
  (bombas : list bomba) (f : R) (b : bomba) (rest : list bomba)
  (x1 h1 : list R) (res : list bomba) :
  factor_de_friccion fl tb = Some f ->
  filter (fun b => negb (es_conocida b)) bombas = b :: rest ->
  (let '(x_list, h_list) :=
     perfil_sin_bombas f (diametro tb) (velocidad fl) (col_x P) (col_z P)
       presion_final_m in
   insertar_conocidas (filter es_conocida bombas) x_list h_list) = (x1, h1, res) ->
  length x1 = length h1 -> x1 <> [] -> ordenado (zip x1 h1) ->
  exists x_final h_final,
    generar_perfil_presion_con_bomba_desconocida P fl tb presion_inicial_m
      presion_final_m bombas
    = Some (x_final, h_final,
            res ++ [{| b_x := b_x b;
                       b_head := Some (Py.first_ h1
                                       - (presion_inicial_m + Py.first_ (col_z P))) |}]) /\
    Py.first_ h_final = presion_inicial_m + Py.first_ (col_z P).
Proof.
  intros Hf Hd Hk Hlen Hne Hord.
  unfold generar_perfil_presion_con_bomba_desconocida.
  rewrite Hf, bind_some.
  destruct (perfil_sin_bombas f (diametro tb) (velocidad fl) (col_x P) (col_z P)
              presion_final_m) as [x_list h_list].
  rewrite Hk, Hd.
  pose proof (agregar_bomba_cierra x1 h1 (b_x b)
                (presion_inicial_m + Py.first_ (col_z P)) Hlen Hne Hord) as Hc.
  destruct (agregar_bomba x1 h1 (b_x b) _) as [x2 h2].
  do 2 eexists. split; [reflexivity | exact Hc].
Qed.

(** * Further properties of the insertion primitive *)

Lemma agregar_bomba_last (x_final h_final : list R) (x_b head : R) :
  snd (agregar_bomba x_final h_final x_b head) <> [] /\
  Py.last_ (snd (agregar_bomba x_final h_final x_b head)) = Py.last_ h_final.
Proof.
  unfold agregar_bomba.
  pose proof (insertar_salto_not_nil x_final h_final x_b head) as Hne.
  destruct (insertar_salto x_final h_final x_b head) as [x' h'].
  cbn [snd] in *. split.
  - apply length_not_nil. unfold shift. rewrite length_map.
    apply length_not_nil. exact Hne.
  - rewrite last_shift by exact Hne. ring.
Qed.

(** X1: [agregar_bomba] hands back a profile whose last head is the last
    head it received ("mantener la misma altura final que antes"),
    whatever the pump, and whether or not the profile is ordered. *)
Theorem X1_agregar_bomba_keeps_last_head (x_final h_final : list R) (x_b head : R) :
  h_final <> [] ->
  Py.last_ (snd (agregar_bomba x_final h_final x_b head)) = Py.last_ h_final.
Proof.
  intros _. apply agregar_bomba_last.
Qed.

Lemma X1_agregar_bomba_keeps_last_head_witness :
  [2; 0] <> [] /\
  Py.last_ (snd (agregar_bomba [0; 2] [2; 0] 1 5)) = Py.last_ [2; 0].
Proof.
  assert (H : [2; 0] <> []) by discriminate.
  split; [exact H|].
  exact (X1_agregar_bomba_keeps_last_head [0; 2] [2; 0] 1 5 H).
Defined.

Lemma sorted_length l : length (sorted l) = length l.
Proof. apply Permutation_length, sorted_perm. Qed.

Lemma zip_length xs hs : length xs = length hs -> length (zip xs hs) = length xs.
Proof. intros H. unfold zip. rewrite length_combine, H. apply Nat.min_id. Qed.

Lemma index_le_length x l : (index x l <= length l)%nat.
Proof.
  induction l as [|y l IH]; cbn [index length]; [lia|].
  destruct (Py.Reqb y x); lia.
Qed.

Lemma index_In x l : In x l -> (index x l < length l)%nat /\ nth (index x l) l 0 = x.
Proof.
  induction l as [|y l IH]; intros Hin; [contradiction|].
  cbn [index length]. destruct (Reqb_spec y x) as [->|Hne].
  - split; [lia | reflexivity].
  - destruct Hin as [E|Hin]; [contradiction|].
    destruct (IH Hin) as [H1 H2]. split; [lia | exact H2].
Qed.

(** After the append-if-absent and the re-sort the pump position is in the
    profile, so [x_final.index(x_b)] cannot raise. *)
Lemma reordenar_In xs hs p :
  length xs = length hs ->
  In p (fst (reordenar xs hs p)) /\
  length (fst (reordenar xs hs p)) = length (snd (reordenar xs hs p)) /\
  length (fst (reordenar xs hs p))
    = (length xs + if contains p xs then 0 else 1)%nat.
Proof.
  intros Hlen. unfold reordenar.
  destruct (contains_spec p xs) as [Hin|Hnin]; cbn [fst snd].
  - split; [|split].
    + eapply Permutation_in;
        [apply Permutation_map; symmetry; apply sorted_perm|].
      rewrite map_fst_zip by exact Hlen. exact Hin.
    + rewrite !length_map. reflexivity.
    + rewrite length_map, sorted_length, zip_length by exact Hlen. lia.
  - assert (Hl' : length (xs ++ [p]) = length (hs ++ [interp p xs hs]))
      by (rewrite !length_app, Hlen; reflexivity).
    split; [|split].
    + eapply Permutation_in;
        [apply Permutation_map; symmetry; apply sorted_perm|].
      rewrite map_fst_zip by exact Hl'. apply in_or_app. right. left. reflexivity.
    + rewrite !length_map. reflexivity.
    + rewrite length_map, sorted_length, zip_length by exact Hl'.
      rewrite length_app. reflexivity.
Qed.

Lemma list_insert_nth i v (l : list R) :
  (i <= length l)%nat ->
  nth i (list_insert i v l) 0 = v /\
  nth (S i) (list_insert i v l) 0 = nth i l 0.
Proof.
  unfold list_insert. revert l. induction i as [|i IH]; intros l Hi.
  - destruct l; split; reflexivity.
  - destruct l as [|a l]; [cbn in Hi; lia|].
    cbn [firstn skipn app nth]. apply IH. cbn in Hi. lia.
Qed.

(** X2: on non-empty parallel lists (on empty ones the code raises
    IndexError at [h_final[-1]]) [agregar_bomba] returns parallel lists,
    one sample longer when the pump sits on a profile position and two
    samples longer when it does not; the pump position then occupies two
    consecutive places of the positions, the first being the one
    [index] finds. *)
Theorem X2_agregar_bomba_adds_samples (x_final h_final : list R) (x_b head : R) :
  h_final <> [] ->
  length x_final = length h_final ->
  let x' := fst (agregar_bomba x_final h_final x_b head) in
  let h' := snd (agregar_bomba x_final h_final x_b head) in
  length x' = length h' /\
  length x' = (length x_final + if contains x_b x_final then 1 else 2)%nat /\
  (S (index x_b x') < length x')%nat /\
  nth (index x_b x') x' 0 = x_b /\
  nth (S (index x_b x')) x' 0 = x_b.
Proof.
  intros _ Hlen. cbv zeta. unfold agregar_bomba, insertar_salto.
  destruct (reordenar_In x_final h_final x_b Hlen) as (Hin & Hl2 & Hl3).
  destruct (reordenar x_final h_final x_b) as [x2 h2]. cbn [fst snd] in *.
  destruct (index_In x_b x2 Hin) as [Hidx Hnth].
  set (i := index x_b x2) in *.
  assert (Hx : length (list_insert i x_b x2) = S (length x2))
    by (apply list_insert_length; lia).
  destruct (list_insert_nth i x_b x2 ltac:(lia)) as [Hn0 Hn1].
  assert (Hi' : index x_b (list_insert i x_b x2) = i).
  { unfold list_insert. rewrite <- (firstn_skipn i x2) in Hnth.
    clear - Hidx. subst i. induction x2 as [|y l IH]; [cbn in Hidx; lia|].
    cbn [index]. destruct (Reqb_spec y x_b) as [E|E].
    - cbn. rewrite Reqb_true by reflexivity. reflexivity.
    - cbn [firstn skipn app index]. rewrite Reqb_false by exact E.
      f_equal. apply IH. cbn [index length] in Hidx.
      destruct (Reqb_spec y x_b); [contradiction | lia]. }
  unfold shift. rewrite length_map, add_from_length.
  rewrite Hi', Hn0, Hn1, Hnth. rewrite !list_insert_length by lia.
  repeat split; try lia.
  destruct (contains x_b x_final); lia.
Qed.

Lemma X2_agregar_bomba_adds_samples_witness :
  [2; 0] <> [] /\
  length [0; 2] = length [2; 0] /\
  length (fst (agregar_bomba [0; 2] [2; 0] 1 5))
  = length (snd (agregar_bomba [0; 2] [2; 0] 1 5)).
Proof.
  assert (Hn : [2; 0] <> []) by discriminate.
  assert (H : length [0; 2] = length [2; 0]) by reflexivity.
  split; [exact Hn|]. split; [exact H|].
  exact (proj1 (X2_agregar_bomba_adds_samples [0; 2] [2; 0] 1 5 Hn H)).
Defined.

(** * Further properties of the boundary-constrained generator *)

Lemma last_rev_cons a (l : list R) : Py.last_ (rev (a :: l)) = a.
Proof. cbn [rev]. rewrite last_app_r by discriminate. reflexivity. Qed.

Lemma first_rev (l : list R) : Py.first_ (rev l) = Py.last_ l.
Proof.
  destruct l as [|a l] using rev_ind; [reflexivity|].
  rewrite rev_app_distr. cbn [rev app Py.first_ hd].
  rewrite last_app_r by discriminate. reflexivity.
Qed.

(** The no-pump profile ends on the final boundary. *)
Lemma perfil_sin_bombas_last f D v x z presion_final_m :
  snd (perfil_sin_bombas f D v x z presion_final_m) <> [] /\
  Py.last_ (snd (perfil_sin_bombas f D v x z presion_final_m))
  = presion_final_m + Py.last_ z.
Proof.
  unfold perfil_sin_bombas. cbn [snd]. split.
  - intros E. apply (f_equal (@length R)) in E. rewrite length_rev in E. discriminate.
  - rewrite last_rev_cons, first_rev. reflexivity.
Qed.

Lemma insertar_conocidas_last bombas :
  forall x_final h_final x' h' res,
    h_final <> [] ->
    insertar_conocidas bombas x_final h_final = (x', h', res) ->
    h' <> [] /\ Py.last_ h' = Py.last_ h_final.
Proof.
  induction bombas as [|b rest IH]; intros x_final h_final x' h' res Hne;
    cbn [insertar_conocidas].
  - intros E. injection E as <- <- <-. split; [exact Hne | reflexivity].
  - destruct (b_head b) as [head|]; [|apply IH; exact Hne].
    destruct (agregar_bomba_last x_final h_final (b_x b) head) as [Hn Hl].
    destruct (agregar_bomba x_final h_final (b_x b) head) as [x1 h1].
    cbn [snd] in *.
    destruct (insertar_conocidas rest x1 h1) as [[x2 h2] res2] eqn:E2.
    intros E. injection E as <- <- <-.
    destruct (IH _ _ _ _ _ Hn E2) as [H1 H2]. split; [exact H1 | congruence].
Qed.

Lemma desconocida_final
  (P : terrain) (fl : fluido) (tb : tuberia)
  (presion_inicial_m presion_final_m f : R) (bombas : list bomba) :
  P <> [] ->
  factor_de_friccion fl tb = Some f ->
  exists x_final h_final bombas_result,
    generar_perfil_presion_con_bomba_desconocida P fl tb presion_inicial_m
      presion_final_m bombas = Some (x_final, h_final, bombas_result) /\
    Py.last_ h_final = presion_final_m + Py.last_ (col_z P).
Proof.
  intros _ Hf. unfold generar_perfil_presion_con_bomba_desconocida.
  rewrite Hf, bind_some.
  destruct (perfil_sin_bombas_last f (diametro tb) (velocidad fl) (col_x P)
              (col_z P) presion_final_m) as [Hne Hlast].
  destruct (perfil_sin_bombas f (diametro tb) (velocidad fl) (col_x P) (col_z P)
              presion_final_m) as [x_list h_list].
  cbn [snd] in Hne, Hlast.
  destruct (insertar_conocidas (filter es_conocida bombas) x_list h_list)
    as [[x1 h1] res] eqn:Ek.
  destruct (insertar_conocidas_last _ _ _ _ _ _ Hne Ek) as [Hne1 Hlast1].
  destruct (filter (fun b => negb (es_conocida b)) bombas) as [|b rest].
  - do 3 eexists. split; [reflexivity | congruence].
  - destruct (agregar_bomba_last x1 h1 (b_x b)
                (Py.first_ h1 - (presion_inicial_m + Py.first_ (col_z P))))
      as [_ Hl].
    destruct (agregar_bomba x1 h1 (b_x b) _) as [x2 h2]. cbn [snd] in Hl.
    do 3 eexists. split; [reflexivity | congruence].
Qed.


(** X3: whenever the friction factor is defined, the boundary-constrained
    generator returns, and the profile it returns ends on
    [presion_final_m + z[-1]], whatever the pumps, known or not, and
    wherever they are: every insertion goes through [agregar_bomba], which
    keeps the last head. *)
Theorem X3_desconocida_final_boundary
  (P : terrain) (fl : fluido) (tb : tuberia)
  (presion_inicial_m presion_final_m f : R) (bombas : list bomba) :
  P <> [] ->
  factor_de_friccion fl tb = Some f ->
  exists x_final h_final bombas_result,
    generar_perfil_presion_con_bomba_desconocida P fl tb presion_inicial_m
      presion_final_m bombas = Some (x_final, h_final, bombas_result) /\
    Py.last_ h_final = presion_final_m + Py.last_ (col_z P).
Proof.
  apply desconocida_final.
Qed.

Lemma X3_desconocida_final_boundary_witness :
  terreno_llano <> [] /\
  factor_de_friccion fluido_laminar tubo = Some (64 / 100) /\
  exists x_final h_final bombas_result,
    generar_perfil_presion_con_bomba_desconocida terreno_llano fluido_laminar
      tubo 10 15 bombas_con_negativa = Some (x_final, h_final, bombas_result) /\
    Py.last_ h_final = 15 + Py.last_ (col_z terreno_llano).
Proof.
  assert (H : terreno_llano <> []) by discriminate.
  split; [exact H|]. split; [exact factor_laminar|].
  exact (X3_desconocida_final_boundary terreno_llano fluido_laminar tubo 10 15
           (64 / 100) bombas_con_negativa H factor_laminar).
Defined.

Lemma insertar_conocidas_result bombas :
  forall x_final h_final,
    Forall (fun b => es_conocida b = true) bombas ->
    snd (insertar_conocidas bombas x_final h_final) = bombas.
Proof.
  induction bombas as [|b rest IH]; intros x_final h_final Hall;
    cbn [insertar_conocidas]; [reflexivity|].
  inversion Hall as [|b' rest' Hb Hrest]; subst.
  unfold es_conocida in Hb. destruct b as [bx [bh|]]; cbn [b_head b_x] in *;
    [|discriminate].
  destruct (agregar_bomba x_final h_final bx bh) as [x1 h1].
  specialize (IH x1 h1 Hrest).
  destruct (insertar_conocidas rest x1 h1) as [[x2 h2] res]. cbn [snd] in *.
  rewrite IH. reflexivity.
Qed.

Lemma filter_conocidas bombas :
  Forall (fun b => es_conocida b = true) (filter es_conocida bombas).
Proof.
  apply Forall_forall. intros b Hb. apply filter_In in Hb. apply Hb.
Qed.

(** X4: the pump list returned by the boundary-constrained generator is
    the known-head pumps of the input, in input order and unchanged,
    followed by the first pump without a head, now carrying a head; any
    further pump without a head is dropped.  When the input has no pump
    without a head nothing is appended, and the whole result is the same
    for every [presion_inicial_m]: the initial boundary is ignored. *)
Theorem X4_desconocida_pump_list
  (P : terrain) (fl : fluido) (tb : tuberia)
  (presion_inicial_m presion_final_m : R) (bombas : list bomba)
  (x_final h_final : list R) (bombas_result : list bomba) :
  generar_perfil_presion_con_bomba_desconocida P fl tb presion_inicial_m
    presion_final_m bombas = Some (x_final, h_final, bombas_result) ->
  match filter (fun b => negb (es_conocida b)) bombas with
  | [] =>
      bombas_result = filter es_conocida bombas /\
      forall otra_presion_inicial_m,
        generar_perfil_presion_con_bomba_desconocida P fl tb
          otra_presion_inicial_m presion_final_m bombas
        = Some (x_final, h_final, bombas_result)
  | b :: _ =>
      exists head,
        bombas_result
        = filter es_conocida bombas ++ [{| b_x := b_x b; b_head := Some head |}]
  end.
Proof.
  unfold generar_perfil_presion_con_bomba_desconocida.
  destruct (factor_de_friccion fl tb) as [f|]; [|discriminate].
  cbv beta iota delta [Py.bind].
  destruct (perfil_sin_bombas f (diametro tb) (velocidad fl) (col_x P) (col_z P)
              presion_final_m) as [x_list h_list].
  pose proof (insertar_conocidas_result (filter es_conocida bombas) x_list h_list
                (filter_conocidas bombas)) as Hres.
  destruct (insertar_conocidas (filter es_conocida bombas) x_list h_list)
    as [[x1 h1] res]. cbn [snd] in Hres. subst res.
  destruct (filter (fun b => negb (es_conocida b)) bombas) as [|b rest].
  - intros E. injection E as <- <- <-. split; [reflexivity|].
    intros otra. reflexivity.
  - destruct (agregar_bomba x1 h1 (b_x b) _) as [x2 h2].
    intros E. injection E as <- <- <-. eexists. reflexivity.
Qed.

Lemma desconocida_returns P fl tb presion_inicial_m presion_final_m bombas f :
  factor_de_friccion fl tb = Some f ->
  exists r,
    generar_perfil_presion_con_bomba_desconocida P fl tb presion_inicial_m
      presion_final_m bombas = Some r.
Proof.
  intros Hf. unfold generar_perfil_presion_con_bomba_desconocida.
  rewrite Hf, bind_some.
  destruct (perfil_sin_bombas _ _ _ _ _ _) as [x_list h_list].
  destruct (insertar_conocidas _ _ _) as [[x1 h1] res].
  destruct (filter (fun b => negb (es_conocida b)) bombas) as [|b rest].
  - eexists. reflexivity.
  - destruct (agregar_bomba _ _ _ _) as [x2 h2]. eexists. reflexivity.
Qed.

Lemma X4_desconocida_pump_list_witness :
  exists x_final h_final bombas_result head,
    generar_perfil_presion_con_bomba_desconocida terreno_llano fluido_laminar
      tubo 10 15 bombas_con_negativa = Some (x_final, h_final, bombas_result) /\
    bombas_result
    = [{| b_x := 0; b_head := Some (-1) |}; {| b_x := 50; b_head := Some head |}].
Proof.
  destruct (desconocida_returns terreno_llano fluido_laminar tubo 10 15
              bombas_con_negativa _ factor_laminar) as [[[x h] bs] E].
  pose proof (X4_desconocida_pump_list terreno_llano fluido_laminar tubo 10 15
                bombas_con_negativa x h bs E) as H.
  cbn [bombas_con_negativa filter es_conocida b_head negb app b_x] in H.
  destruct H as [head H].
  exists x, h, bs, head. split; [exact E | exact H].
Defined.

Lemma increasing_cons a (l : list R) :
  increasing (a :: l) -> increasing l /\ Forall (Rlt a) l.
Proof.
  intros H.
  assert (Hl : increasing l).
  { intros i Hi. apply (H (S i)). cbn [length]. lia. }
  split; [exact Hl|].
  destruct l as [|b l]; [constructor|].
  assert (Hab : a < b) by (apply (H O); cbn [length]; lia).
  constructor; [exact Hab|].
  clear H. revert b Hab Hl. induction l as [|c l IH]; intros b Hab Hl; [constructor|].
  assert (Hbc : b < c) by (apply (Hl O); cbn [length]; lia).
  constructor; [lra|].
  apply (IH c); [lra|].
  intros i Hi. apply (Hl (S i)). cbn [length] in *. lia.
Qed.

(** Strictly increasing positions make any profile a profile in tuple
    order. *)
Lemma increasing_ordenado xs :
  forall hs, increasing xs -> length xs = length hs -> ordenado (zip xs hs).
Proof.
  unfold ordenado, zip.
  induction xs as [|x xs IH]; intros [|h hs] Hinc Hlen; try discriminate;
    cbn [combine]; [constructor|].
  destruct (increasing_cons x xs Hinc) as [Hinc' Hall].
  constructor; [apply IH; [exact Hinc' | cbn in Hlen; lia]|].
  apply Forall_forall. intros [x' h'] Hin.
  apply in_combine_l in Hin. rewrite Forall_forall in Hall.
  left. cbn [fst]. apply Hall. exact Hin.
Qed.

Lemma acumular_reversa_length f D v x :
  forall z h, length x = length z ->
  length (acumular_reversa f D v x z h) = (length x - 1)%nat.
Proof.
  induction x as [|xa x IH]; intros z h Hlen; [reflexivity|].
  destruct z as [|za z]; [discriminate|].
  destruct x as [|xb x]; [reflexivity|].
  destruct z as [|zb z]; [discriminate|].
  rewrite acumular_reversa_cons. cbn [length].
  rewrite IH by (cbn in Hlen |- *; lia). cbn [length]. lia.
Qed.

(** The no-pump profile has one head per terrain row, at the terrain
    positions. *)
Lemma perfil_sin_bombas_shape f D v (P : terrain) presion_final_m :
  P <> [] ->
  fst (perfil_sin_bombas f D v (col_x P) (col_z P) presion_final_m) = col_x P /\
  length (snd (perfil_sin_bombas f D v (col_x P) (col_z P) presion_final_m))
  = length (col_x P).
Proof.
  intros Hne. unfold perfil_sin_bombas. cbn [fst snd].
  split; [apply rev_involutive|].
  rewrite length_rev. cbn [length].
  rewrite acumular_reversa_length
    by (rewrite !length_rev; unfold col_x, col_z; rewrite !length_map; reflexivity).
  rewrite length_rev. unfold col_x. rewrite length_map.
  destruct P; [congruence | cbn [length]; lia].
Qed.

Lemma filter_desconocidas (l : list bomba) :
  Forall (fun b => b_head b = None) l ->
  filter es_conocida l = [] /\ filter (fun b => negb (es_conocida b)) l = l.
Proof.
  induction 1 as [|b l Hb Hl [IH1 IH2]]; [split; reflexivity|].
  assert (Hc : es_conocida b = false) by (unfold es_conocida; rewrite Hb; reflexivity).
  cbn [filter]. rewrite Hc. cbn [negb].
  split; [exact IH1 | f_equal; exact IH2].
Qed.

(** X5: on a terrain with strictly increasing distances, when no pump of
    the list has a head, the boundary-constrained generator meets both
    boundaries: the returned profile starts at [presion_inicial_m + z[0]]
    and ends at [presion_final_m + z[-1]], and the only pump returned is
    the first pump of the list, with the head that separates the no-pump
    inlet head from the initial target. *)
Theorem X5_desconocida_meets_both_boundaries
  (P : terrain) (fl : fluido) (tb : tuberia)
  (presion_inicial_m presion_final_m f : R) (b : bomba) (rest : list bomba) :
  P <> [] -> increasing (col_x P) ->
  factor_de_friccion fl tb = Some f ->
  Forall (fun b => b_head b = None) (b :: rest) ->
  let sin_bombas :=
    snd (perfil_sin_bombas f (diametro tb) (velocidad fl) (col_x P) (col_z P)
           presion_final_m) in
  let head := Py.first_ sin_bombas - (presion_inicial_m + Py.first_ (col_z P)) in
  exists x_final h_final,
    generar_perfil_presion_con_bomba_desconocida P fl tb presion_inicial_m
      presion_final_m (b :: rest)
    = Some (x_final, h_final, [{| b_x := b_x b; b_head := Some head |}]) /\
    Py.first_ h_final = presion_inicial_m + Py.first_ (col_z P) /\
    Py.last_ h_final = presion_final_m + Py.last_ (col_z P).
Proof.
  intros Hne Hinc Hf Hall. cbv zeta.
  destruct (filter_desconocidas (b :: rest) Hall) as [Hk Hd].
  destruct (perfil_sin_bombas_shape f (diametro tb) (velocidad fl) P
              presion_final_m Hne) as [Hx Hl].
  destruct (perfil_sin_bombas_last f (diametro tb) (velocidad fl) (col_x P)
              (col_z P) presion_final_m) as [_ Hlast].
  destruct (perfil_sin_bombas f (diametro tb) (velocidad fl) (col_x P) (col_z P)
              presion_final_m) as [x_list h_list] eqn:Ep.
  cbn [fst snd] in *. subst x_list.
  assert (Hxne : col_x P <> [])
    by (destruct P; [congruence | discriminate]).
  destruct (desconocida_cierra_si_ordenado P fl tb presion_inicial_m
              presion_final_m (b :: rest) f b _ (col_x P) h_list [] Hf Hd)
    as (x & h & E & Hfirst).
  - rewrite Ep, Hk. reflexivity.
  - symmetry. exact Hl.
  - exact Hxne.
  - apply increasing_ordenado; [exact Hinc | symmetry; exact Hl].
  - exists x, h. split; [exact E|]. split; [exact Hfirst|].
    destruct (desconocida_final P fl tb presion_inicial_m
                presion_final_m f (b :: rest) Hne Hf) as (x' & h' & bs' & E' & Hl').
    congruence.
Qed.

Lemma increasing_terreno_llano : increasing (col_x terreno_llano).
Proof.
  intros i Hi. cbn in Hi. assert (i = O) by lia. subst i. cbn. lra.
Qed.

Lemma X5_desconocida_meets_both_boundaries_witness :
  terreno_llano <> [] /\ increasing (col_x terreno_llano) /\
  factor_de_friccion fluido_laminar tubo = Some (64 / 100) /\
  Forall (fun b => b_head b = None) [{| b_x := 50; b_head := None |}] /\
  exists x_final h_final bombas_result,
    generar_perfil_presion_con_bomba_desconocida terreno_llano fluido_laminar
      tubo 10 15 [{| b_x := 50; b_head := None |}]
    = Some (x_final, h_final, bombas_result) /\
    Py.first_ h_final = 10 + Py.first_ (col_z terreno_llano).
Proof.
  assert (H1 : terreno_llano <> []) by discriminate.
  assert (H2 : Forall (fun b => b_head b = None) [{| b_x := 50; b_head := None |}])
    by (repeat constructor).
  split; [exact H1|]. split; [exact increasing_terreno_llano|].
  split; [exact factor_laminar|]. split; [exact H2|].
  destruct (X5_desconocida_meets_both_boundaries terreno_llano fluido_laminar
              tubo 10 15 (64 / 100) {| b_x := 50; b_head := None |} []
              H1 increasing_terreno_llano factor_laminar H2)
    as (x & h & E & Hf & _).
  exists x, h. eexists. split; [exact E | exact Hf].
Defined.

(** * Further properties of the backward generator *)

Lemma insertar_bombas_none bombas :
  forall x_final h_final,
    insertar_bombas bombas x_final h_final = None <-> ~ todas_conocidas bombas.
Proof.
  unfold todas_conocidas.
  induction bombas as [|b rest IH]; intros x_final h_final; cbn [insertar_bombas].
  - split; [discriminate | intros H; exfalso; apply H; constructor].
  - destruct (b_head b) as [head|] eqn:Hb.
    + rewrite bind_some.
      destruct (insertar_salto x_final h_final (b_x b) head) as [x1 h1].
      rewrite IH. split.
      * intros H Hall. apply H. inversion Hall; assumption.
      * intros H Hall. apply H. constructor; [congruence | exact Hall].
    + cbn [Py.bind]. split; [|reflexivity].
      intros _ Hall. inversion Hall; congruence.
Qed.

Lemma insert_bomba_perm b l : Permutation (insert_bomba b l) (b :: l).
Proof.
  induction l as [|c l IH]; cbn [insert_bomba]; [reflexivity|].
  destruct (Py.Rltb (b_x c) (b_x b)); [|reflexivity].
  rewrite IH. apply perm_swap.
Qed.

Lemma sorted_bombas_perm l : Permutation (sorted_bombas l) l.
Proof.
  induction l as [|b l IH]; cbn; [reflexivity|].
  change (fold_right insert_bomba [] l) with (sorted_bombas l).
  rewrite insert_bomba_perm. constructor. exact IH.
Qed.

(** X6: on a terrain with at least one row (on an empty one the code
    raises IndexError at [z_rev[0]]) the backward generator fails in
    exactly two cases: the friction factor cannot be computed, or some
    pump of the list has no head (the [+= head] of the insertion raises
    TypeError).  In every other case it returns a profile. *)
Theorem X6_backward_fails_iff
  (P : terrain) (fl : fluido) (tb : tuberia) (presion_final_m : R)
  (bombas : list bomba) :
  P <> [] ->
  (generar_perfil_presion P fl tb presion_final_m bombas = None <->
   factor_de_friccion fl tb = None \/ ~ todas_conocidas bombas).
Proof.
  intros _. unfold generar_perfil_presion.
  destruct (factor_de_friccion fl tb) as [f|].
  - rewrite bind_some.
    destruct (perfil_sin_bombas f (diametro tb) (velocidad fl) (col_x P) (col_z P)
                presion_final_m) as [x_list h_list].
    pose proof (insertar_bombas_none (sorted_bombas bombas) x_list h_list) as Hn.
    assert (Hp : todas_conocidas (sorted_bombas bombas) <-> todas_conocidas bombas).
    { unfold todas_conocidas. split; apply Permutation_Forall;
        [apply sorted_bombas_perm | symmetry; apply sorted_bombas_perm]. }
    destruct (insertar_bombas (sorted_bombas bombas) x_list h_list) as [[x' h']|].
    + rewrite bind_some. split; [discriminate|].
      intros [H|H]; [discriminate|]. exfalso.
      assert (Hs : Some (x', h') = None) by (apply Hn; rewrite Hp; exact H).
      discriminate.
    + cbn [Py.bind]. split; [|reflexivity]. intros _. right.
      rewrite <- Hp. apply Hn. reflexivity.
  - cbn [Py.bind]. split; [left; reflexivity | reflexivity].
Qed.

Lemma X6_backward_fails_iff_witness :
  terreno_llano <> [] /\
  (generar_perfil_presion terreno_llano fluido_laminar tubo 15
     [{| b_x := 50; b_head := None |}] = None <->
   factor_de_friccion fluido_laminar tubo = None \/
   ~ todas_conocidas [{| b_x := 50; b_head := None |}]).
Proof.
  assert (HP : terreno_llano <> []) by discriminate.
  split; [exact HP|].
  exact (X6_backward_fails_iff terreno_llano fluido_laminar tubo 15
           [{| b_x := 50; b_head := None |}] HP).
Defined.

(** * Further properties of the forward generator *)

Lemma perdida_total_cons f D v xa xb x za zb z :
  perdida_total f D v (xa :: xb :: x) (za :: zb :: z)
  = perdida f D v (xb - xa) (zb - za) + perdida_total f D v (xb :: x) (zb :: z).
Proof. reflexivity. Qed.

Lemma last_cons_cons a b (l : list R) : Py.last_ (a :: b :: l) = Py.last_ (b :: l).
Proof. reflexivity. Qed.

(** What the walk appends: parallel lists, one sample per terrain point
    after the first plus one per pump; pumps of head [head_bomba] at
    terrain positions, at most one per point; and a last head that
    balances the energy. *)
Lemma recorrido_balance f D v m head_bomba x :
  forall z h xs hs bs,
    length x = length z ->
    recorrido f D v m head_bomba x z h = (xs, hs, bs) ->
    length xs = length hs /\
    length xs = (length x - 1 + length bs)%nat /\
    (length bs <= length x - 1)%nat /\
    Forall (fun b => b_head b = Some head_bomba /\ In (b_x b) (tl x)) bs /\
    Py.last_ (h :: hs)
    = h - perdida_total f D v x z + INR (length bs) * head_bomba.
Proof.
  induction x as [|xa x IH]; intros z h xs hs bs Hlen E.
  - cbn in E. injection E as <- <- <-. cbn. repeat split; try lia; [constructor | ring].
  - destruct z as [|za z]; [discriminate|].
    destruct x as [|xb x].
    + cbn in E. injection E as <- <- <-. cbn.
      repeat split; try lia; [constructor | ring].
    + destruct z as [|zb z]; [discriminate|].
      rewrite recorrido_cons in E. cbv zeta in E.
      rewrite perdida_total_cons.
      set (hf := perdida f D v (xb - xa) (zb - za)) in *.
      assert (Hlen' : length (xb :: x) = length (zb :: z)) by (cbn in Hlen |- *; lia).
      destruct (Py.Rleb (h - hf - zb) m).
      * destruct (recorrido f D v m head_bomba (xb :: x) (zb :: z)
                    (h - hf + head_bomba)) as [[xs' hs'] bs'] eqn:E'.
        injection E as <- <- <-.
        destruct (IH _ _ _ _ _ Hlen' E') as (H1 & H2 & H3 & H4 & H5).
        cbn [length tl] in *. repeat split; try lia.
        -- constructor; [split; [reflexivity | left; reflexivity]|].
           eapply Forall_impl; [|exact H4]. cbv beta.
           intros b [Hb1 Hb2]. split; [exact Hb1 | right; exact Hb2].
        -- rewrite !last_cons_cons. rewrite H5.
           change (INR (S (length bs'))) with (INR (length bs' + 1)%nat) || idtac.
           rewrite S_INR. ring.
      * destruct (recorrido f D v m head_bomba (xb :: x) (zb :: z) (h - hf))
          as [[xs' hs'] bs'] eqn:E'.
        injection E as <- <- <-.
        destruct (IH _ _ _ _ _ Hlen' E') as (H1 & H2 & H3 & H4 & H5).
        cbn [length tl] in *. repeat split; try lia.
        -- eapply Forall_impl; [|exact H4]. cbv beta.
           intros b [Hb1 Hb2]. split; [exact Hb1 | right; exact Hb2].
        -- rewrite last_cons_cons. rewrite H5. ring.
Qed.

Lemma columnas_length P npe :
  length (fst (columnas P npe)) = length (snd (columnas P npe)) /\
  ((2 <= length P)%nat -> (2 <= length (fst (columnas P npe)))%nat).
Proof.
  destruct npe as [k|]; cbn [columnas fst snd].
  - unfold interpolar_perfil.
    rewrite interpolar_loop_densify
      by (unfold col_x, col_z; rewrite !length_map; reflexivity).
    cbn [fst snd]. split.
    + destruct (le_lt_dec 2 (length P)) as [H|H].
      * rewrite !densify_0_length
          by (unfold col_x, col_z; rewrite length_map; exact H).
        unfold col_x, col_z. rewrite !length_map. reflexivity.
      * destruct P as [|p [|q P]]; [reflexivity | reflexivity | cbn in H; lia].
    + intros H. rewrite densify_0_length
        by (unfold col_x; rewrite length_map; exact H).
      unfold col_x. rewrite length_map. nia.
  - unfold col_x, col_z. rewrite !length_map. split; [reflexivity | tauto].
Qed.

(** The forward generator, read on the columns it walks. *)
Lemma automaticas_unfold P fl tb presion_inicial_m m head_bomba npe f :
  factor_de_friccion fl tb = Some f ->
  let x := fst (columnas P npe) in
  let z := snd (columnas P npe) in
  let h0 := presion_inicial_m + Py.first_ z in
  let inicio := Py.Rleb (h0 - Py.first_ z) m in
  let h1 := if inicio then h0 + head_bomba else h0 in
  let b_ini :=
    if inicio then [{| b_x := Py.first_ x; b_head := Some head_bomba |}] else [] in
  generar_perfil_con_bombas_automaticas P fl tb presion_inicial_m m head_bomba npe
  = let '(xs, hs, bs) :=
      recorrido f (diametro tb) (velocidad fl) m head_bomba x z h1 in
    Some ([Py.first_ x; Py.first_ x] ++ xs, [h0; h1] ++ hs, b_ini ++ bs).
Proof.
  intros Hf. cbv zeta. unfold generar_perfil_con_bombas_automaticas.
  change (match npe with
          | Some k => interpolar_perfil P k
          | None => (col_x P, col_z P)
          end) with (columnas P npe).
  destruct (columnas P npe) as [x z]. cbn [fst snd].
  rewrite Hf, bind_some.
  destruct (Py.Rleb (presion_inicial_m + Py.first_ z - Py.first_ z) m);
    cbn [Py.last_ last]; reflexivity.
Qed.

(** X7: energy balance of the forward generator.  The last head of the
    returned profile is the initial head, minus the friction loss of the
    whole route, plus [head_bomba] for every pump recorded. *)
Theorem X7_forward_energy_balance
  (P : terrain) (fl : fluido) (tb : tuberia)
  (presion_inicial_m altura_seguridad head_bomba f : R)
  (num_puntos_extra : option nat)
  (x_final h_final : list R) (bombas : list bomba) :
  (2 <= length P)%nat ->
  factor_de_friccion fl tb = Some f ->
  generar_perfil_con_bombas_automaticas P fl tb presion_inicial_m
    altura_seguridad head_bomba num_puntos_extra
    = Some (x_final, h_final, bombas) ->
  let x := fst (columnas P num_puntos_extra) in
  let z := snd (columnas P num_puntos_extra) in
  Py.last_ h_final
  = presion_inicial_m + Py.first_ z
    - perdida_total f (diametro tb) (velocidad fl) x z
    + INR (length bombas) * head_bomba.
Proof.
  intros _ Hf. cbv zeta.
  rewrite (automaticas_unfold P fl tb presion_inicial_m altura_seguridad
             head_bomba num_puntos_extra f Hf). cbv zeta.
  destruct (columnas_length P num_puntos_extra) as [Hlen _].
  set (x := fst (columnas P num_puntos_extra)) in *.
  set (z := snd (columnas P num_puntos_extra)) in *.
  set (h0 := presion_inicial_m + Py.first_ z).
  destruct (Py.Rleb (h0 - Py.first_ z) altura_seguridad).
  - destruct (recorrido f (diametro tb) (velocidad fl) altura_seguridad head_bomba
                x z (h0 + head_bomba)) as [[xs hs] bs] eqn:E.
    intros E'. injection E' as <- <- <-.
    destruct (recorrido_balance _ _ _ _ _ _ _ _ _ _ _ Hlen E) as (_ & _ & _ & _ & H).
    cbn [app]. rewrite last_cons_cons, H. cbn [length]. rewrite S_INR. ring.
  - destruct (recorrido f (diametro tb) (velocidad fl) altura_seguridad head_bomba
                x z h0) as [[xs hs] bs] eqn:E.
    intros E'. injection E' as <- <- <-.
    destruct (recorrido_balance _ _ _ _ _ _ _ _ _ _ _ Hlen E) as (_ & _ & _ & _ & H).
    cbn [app]. rewrite last_cons_cons, H. ring.
Qed.

Lemma X7_forward_energy_balance_witness :
  exists x_final h_final bombas,
    (2 <= length terreno_llano)%nat /\
    factor_de_friccion fluido_laminar tubo = Some (64 / 100) /\
    generar_perfil_con_bombas_automaticas terreno_llano fluido_laminar tubo
      20 5 30 None = Some (x_final, h_final, bombas) /\
    Py.last_ h_final
    = 20 + Py.first_ (col_z terreno_llano)
      - perdida_total (64 / 100) (diametro tubo) (velocidad fluido_laminar)
          (col_x terreno_llano) (col_z terreno_llano)
      + INR (length bombas) * 30.
Proof.
  destruct (automaticas_returns terreno_llano fluido_laminar tubo 20 5 30 None
              _ factor_laminar) as [[[x h] b] E].
  exists x, h, b.
  assert (H2 : (2 <= length terreno_llano)%nat) by (cbn; lia).
  split; [exact H2|]. split; [exact factor_laminar|]. split; [exact E|].
  exact (X7_forward_energy_balance terreno_llano fluido_laminar tubo 20 5 30
           (64 / 100) None x h b H2 factor_laminar E).
Defined.

(** * Further properties of the terrain interpolator *)

Lemma linspace_two a b : linspace a b (0 + 2) = [a; b].
Proof.
  cbn [Nat.add linspace seq map app INR]. f_equal. field.
Qed.

Lemma densify_1_zero (l : list R) : densify 1 l 0 = tl l.
Proof.
  induction l as [|a l IH]; [reflexivity|].
  destruct l as [|b l]; [reflexivity|].
  rewrite densify_1_cons, linspace_two, IH. reflexivity.
Qed.

Lemma densify_0_zero (l : list R) : (2 <= length l)%nat -> densify 0 l 0 = l.
Proof.
  intros H. destruct l as [|a [|b l]]; try (cbn in H; lia).
  rewrite densify_0, densify_1_zero. reflexivity.
Qed.

Lemma interpolar_perfil_zero (P : terrain) :
  (2 <= length P)%nat -> interpolar_perfil P 0 = (col_x P, col_z P).
Proof.
  intros H. unfold interpolar_perfil.
  rewrite interpolar_loop_densify
    by (unfold col_x, col_z; rewrite !length_map; reflexivity).
  rewrite !densify_0_zero by (unfold col_x, col_z; rewrite length_map; exact H).
  reflexivity.
Qed.

(** X9: with zero extra points [interpolar_perfil] gives back the terrain
    columns unchanged, for every terrain of at least two rows. *)
Theorem X9_interpolar_zero_is_identity (P : terrain) :
  (2 <= length P)%nat -> interpolar_perfil P 0 = (col_x P, col_z P).
Proof.
  apply interpolar_perfil_zero.
Qed.

Lemma X9_interpolar_zero_is_identity_witness :
  (2 <= length terreno_llano)%nat /\
  interpolar_perfil terreno_llano 0 = ([0; 100], [0; 0]).
Proof.
  assert (H : (2 <= length terreno_llano)%nat) by (cbn; lia).
  split; [exact H|].
  exact (X9_interpolar_zero_is_identity terreno_llano H).
Defined.

(** X10: a terrain of fewer than two rows has no segment, and
    [interpolar_perfil] returns two empty lists for it whatever the
    number of extra points: a single terrain point is lost, not kept. *)
Theorem X10_interpolar_short_terrain (P : terrain) (k : nat) :
  (length P < 2)%nat -> interpolar_perfil P k = ([], []).
Proof.
  intros H. destruct P as [|p [|q P]]; [reflexivity | reflexivity|].
  cbn in H. lia.
Qed.

Lemma X10_interpolar_short_terrain_witness :
  (length [(5, 7)] < 2)%nat /\ interpolar_perfil [(5, 7)] 3 = ([], []).
Proof.
  assert (H : (length [(5, 7)] < 2)%nat) by (cbn; lia).
  split; [exact H|].
  exact (X10_interpolar_short_terrain [(5, 7)] 3 H).
Defined.

(** X11: the page that calls the forward generator passes [None] instead
    of a zero number of extra points; for a terrain of at least two rows
    the generator returns the same result either way. *)
Theorem X11_forward_zero_extra_points
  (P : terrain) (fl : fluido) (tb : tuberia)
  (presion_inicial_m altura_seguridad head_bomba : R) :
  (2 <= length P)%nat ->
  generar_perfil_con_bombas_automaticas P fl tb presion_inicial_m
    altura_seguridad head_bomba (Some 0%nat)
  = generar_perfil_con_bombas_automaticas P fl tb presion_inicial_m
      altura_seguridad head_bomba None.
Proof.
  intros H. unfold generar_perfil_con_bombas_automaticas.
  rewrite (interpolar_perfil_zero P H). reflexivity.
Qed.

Lemma X11_forward_zero_extra_points_witness :
  (2 <= length terreno_llano)%nat /\
  generar_perfil_con_bombas_automaticas terreno_llano fluido_laminar tubo
    20 5 30 (Some 0%nat)
  = generar_perfil_con_bombas_automaticas terreno_llano fluido_laminar tubo
      20 5 30 None.
Proof.
  assert (H : (2 <= length terreno_llano)%nat) by (cbn; lia).
  split; [exact H|].
  exact (X11_forward_zero_extra_points terreno_llano fluido_laminar tubo 20 5 30 H).
Defined.

(** * The single pipe section *)

Lemma div_some a b c : Py.div a b = Some c <-> b <> 0 /\ c = a / b.
Proof.
  unfold Py.div. destruct (Reqb_spec b 0) as [E|E].
  - split; [discriminate | intros [H _]; contradiction].
  - split; [intros H; injection H as <-; split; [exact E | reflexivity]|].
    intros [_ ->]. reflexivity.
Qed.

Lemma div_none a b : Py.div a b = None <-> b = 0.
Proof.
  unfold Py.div. destruct (Reqb_spec b 0) as [E|E].
  - split; [intros _; exact E | reflexivity].
  - split; [discriminate | contradiction].
Qed.

(** What a returned state was computed from. *)
Lemma calcular_estado_inv fl tb r :
  calcular_estado_final_tuberia_con_perdida fl tb = Some r ->
  let v1 := ft_velocidad fl in
  let rho := ft_densidad fl in
  let mu := get_default (ft_viscosidad fl) 0.001 in
  let D1 := diametro_inicial tb in
  let D2 := diametro_final tb in
  let L := get_default (longitud tb) 10.0 in
  let v2 := v1 * (PI * (D1 * D1) / 4 / (PI * (D2 * D2) / 4)) in
  let Re := rho * v2 * D2 / mu in
  let hL := factor_friccion r * (L / D2) * (v2 * v2) / (2 * G) in
  let P2 := rho * G * (presion fl / (rho * G) + v1 * v1 / (2 * G) + altura fl
                       - hL - v2 * v2 / (2 * G) - altura_final tb) in
  D2 <> 0 /\ mu <> 0 /\ rho <> 0 /\
  friction_factor Re D2 (get_default (tt_rugosidad tb) 0.0002)
    = Some (factor_friccion r) /\
  velocidad_final r = v2 /\ numero_reynolds r = Re /\ perdida_carga r = hL /\
  presion_final r = P2 /\ altura_presion_final r = P2 / (rho * G).
Proof.
  unfold calcular_estado_final_tuberia_con_perdida. cbv zeta.
  destruct (Py.div (PI * (diametro_inicial tb * diametro_inicial tb) / 4) _)
    as [q|] eqn:Eq; [|discriminate].
  rewrite bind_some. apply div_some in Eq. destruct Eq as [HA2 ->].
  destruct (Py.div (ft_densidad fl * _ * diametro_final tb) _) as [Re|] eqn:ERe;
    [|discriminate].
  rewrite bind_some. apply div_some in ERe. destruct ERe as [Hmu ->].
  destruct (friction_factor _ _ _) as [f|] eqn:Ef; [|discriminate].
  rewrite bind_some.
  destruct (Py.div (get_default (longitud tb) 10.0) _) as [ld|] eqn:Eld;
    [|discriminate].
  rewrite bind_some. apply div_some in Eld. destruct Eld as [HD2 ->].
  destruct (Py.div (presion fl) _) as [p1|] eqn:Ep1; [|discriminate].
  rewrite bind_some. apply div_some in Ep1. destruct Ep1 as [Hrg ->].
  destruct (Py.div _ (ft_densidad fl * G)) as [ap|] eqn:Eap; [|discriminate].
  rewrite bind_some. apply div_some in Eap. destruct Eap as [_ ->].
  intros E. injection E as <-. cbn [factor_friccion velocidad_final
    numero_reynolds perdida_carga presion_final altura_presion_final].
  assert (Hrho : ft_densidad fl <> 0) by (intros E; apply Hrg; rewrite E; ring).
  repeat split; try assumption; try reflexivity.
Qed.

(** X12: continuity.  The returned velocity carries the same volume flow
    through the final section as the inlet velocity through the initial
    one (the factor pi / 4 of the two areas cancels). *)
Theorem X12_section_continuity (fl : fluido_tramo) (tb : tuberia_tramo)
  (r : estado_final) :
  calcular_estado_final_tuberia_con_perdida fl tb = Some r ->
  velocidad_final r * (diametro_final tb * diametro_final tb)
  = ft_velocidad fl * (diametro_inicial tb * diametro_inicial tb).
Proof.
  intros E. destruct (calcular_estado_inv fl tb r E)
    as (HD2 & _ & _ & _ & Hv & _).
  rewrite Hv. field. split; [exact HD2 | apply PI_neq0].
Qed.

(** X13: Bernoulli with losses.  Pressure head, velocity head and
    elevation at the outlet, plus the friction loss, add up to the total
    head at the inlet; the returned pressure is the returned pressure head
    times [rho * g]. *)
Theorem X13_section_bernoulli (fl : fluido_tramo) (tb : tuberia_tramo)
  (r : estado_final) :
  calcular_estado_final_tuberia_con_perdida fl tb = Some r ->
  altura_presion_final r
    + velocidad_final r * velocidad_final r / (2 * G)
    + altura_final tb + perdida_carga r
  = presion fl / (ft_densidad fl * G)
    + ft_velocidad fl * ft_velocidad fl / (2 * G) + altura fl /\
  presion_final r = ft_densidad fl * G * altura_presion_final r.
Proof.
  intros E. destruct (calcular_estado_inv fl tb r E)
    as (HD2 & Hmu & Hrho & _ & Hv & _ & HhL & HP & Hap).
  rewrite Hap, HP, Hv, HhL. unfold G.
  split; field; repeat split; try assumption; try apply PI_neq0; lra.
Qed.

(** The function returns as soon as its divisions and its friction factor
    are defined. *)
Lemma calcular_estado_returns fl tb f :
  diametro_final tb <> 0 -> get_default (ft_viscosidad fl) 0.001 <> 0 ->
  ft_densidad fl <> 0 ->
  friction_factor
    (ft_densidad fl
     * (ft_velocidad fl
        * (PI * (diametro_inicial tb * diametro_inicial tb) / 4
           / (PI * (diametro_final tb * diametro_final tb) / 4)))
     * diametro_final tb / get_default (ft_viscosidad fl) 0.001)
    (diametro_final tb) (get_default (tt_rugosidad tb) 0.0002) = Some f ->
  exists r, calcular_estado_final_tuberia_con_perdida fl tb = Some r.
Proof.
  intros HD2 Hmu Hrho Hf.
  unfold calcular_estado_final_tuberia_con_perdida. cbv zeta.
  assert (HA2 : PI * (diametro_final tb * diametro_final tb) / 4 <> 0).
  { pose proof PI_neq0. intros E. apply (Rmult_integral_contrapositive_currified
      (diametro_final tb) (diametro_final tb) HD2 HD2).
    assert (E' : PI * (diametro_final tb * diametro_final tb) = 0) by lra.
    apply Rmult_integral in E'. destruct E'; [contradiction | assumption]. }
  assert (Hrg : ft_densidad fl * G <> 0).
  { unfold G. intros E. apply Rmult_integral in E. destruct E; [contradiction | lra]. }
  unfold Py.div at 1. rewrite (Reqb_false _ _ HA2), bind_some.
  unfold Py.div at 1. rewrite (Reqb_false _ _ Hmu), bind_some.
  rewrite Hf, bind_some.
  unfold Py.div at 1. rewrite (Reqb_false _ _ HD2), bind_some.
  unfold Py.div at 1. rewrite (Reqb_false _ _ Hrg), bind_some.
  unfold Py.div at 1. rewrite (Reqb_false _ _ Hrg), bind_some.
  eexists. reflexivity.
Qed.

(** A slow flow of water in a 0.1 m pipe of constant diameter, rising one
    metre over 50 m: [Re = 1000 * 0.01 * 0.1 / 0.001 = 1000]. *)
Lemma tramo_lento_returns :
  exists r,
    calcular_estado_final_tuberia_con_perdida
      {| presion := 200000; ft_velocidad := 0.01; ft_densidad := 1000;
         altura := 0; ft_viscosidad := Some 0.001 |}
      {| diametro_inicial := 0.1; diametro_final := 0.1; longitud := Some 50;
         altura_final := 1; tt_rugosidad := Some 0.0002 |} = Some r.
Proof.
  eapply calcular_estado_returns with (f := 64 / 1000);
    cbn [diametro_final diametro_inicial ft_viscosidad ft_densidad ft_velocidad
         tt_rugosidad get_default]; try lra.
  assert (Hq : PI * (0.1 * 0.1) / 4 / (PI * (0.1 * 0.1) / 4) = 1)
    by (field; split; [lra | apply PI_neq0]).
  rewrite Hq. unfold friction_factor.
  rewrite Rltb_true by lra. unfold Py.div. rewrite Reqb_false by lra.
  f_equal. lra.
Qed.

Lemma X12_section_continuity_witness :
  exists r,
    calcular_estado_final_tuberia_con_perdida
      {| presion := 200000; ft_velocidad := 0.01; ft_densidad := 1000;
         altura := 0; ft_viscosidad := Some 0.001 |}
      {| diametro_inicial := 0.1; diametro_final := 0.1; longitud := Some 50;
         altura_final := 1; tt_rugosidad := Some 0.0002 |} = Some r /\
    velocidad_final r * (0.1 * 0.1) = 0.01 * (0.1 * 0.1).
Proof.
  destruct tramo_lento_returns as [r E]. exists r. split; [exact E|].
  exact (X12_section_continuity _ _ r E).
Defined.

Lemma X13_section_bernoulli_witness :
  exists r,
    calcular_estado_final_tuberia_con_perdida
      {| presion := 200000; ft_velocidad := 0.01; ft_densidad := 1000;
         altura := 0; ft_viscosidad := Some 0.001 |}
      {| diametro_inicial := 0.1; diametro_final := 0.1; longitud := Some 50;
         altura_final := 1; tt_rugosidad := Some 0.0002 |} = Some r /\
    presion_final r = 1000 * G * altura_presion_final r.
Proof.
  destruct tramo_lento_returns as [r E]. exists r. split; [exact E|].
  exact (proj2 (X13_section_bernoulli _ _ r E)).
Defined.

(** X14: what the unit test asserts, for every input of its kind.  In a
    pipe of constant positive diameter that does not descend, with
    positive velocity, density, viscosity and length, a returned state
    has a pressure below the inlet pressure, the inlet velocity, a
    positive Reynolds number, a positive friction factor and a positive
    loss. *)
Theorem X14_section_pressure_drops (fl : fluido_tramo) (tb : tuberia_tramo)
  (r : estado_final) :
  diametro_inicial tb = diametro_final tb -> 0 < diametro_final tb ->
  0 < ft_velocidad fl -> 0 < ft_densidad fl ->
  0 < get_default (ft_viscosidad fl) 0.001 ->
  0 < get_default (longitud tb) 10.0 ->
  altura fl <= altura_final tb ->
  calcular_estado_final_tuberia_con_perdida fl tb = Some r ->
  presion_final r < presion fl /\
  velocidad_final r = ft_velocidad fl /\
  0 < numero_reynolds r /\ 0 < factor_friccion r /\ 0 < perdida_carga r.
Proof.
  intros HD HD2 Hv Hrho Hmu HL Hz E.
  destruct (calcular_estado_inv fl tb r E)
    as (_ & _ & _ & Hf & Hv2 & HRe & HhL & HP & _).
  cbv zeta in *. rewrite HD in *.
  assert (Hq : PI * (diametro_final tb * diametro_final tb) / 4
               / (PI * (diametro_final tb * diametro_final tb) / 4) = 1)
    by (field; split; [lra | apply PI_neq0]).
  rewrite Hq, Rmult_1_r in *.
  assert (HRe0 : 0 < numero_reynolds r).
  { rewrite HRe. apply Rdiv_lt_0_compat; [|exact Hmu].
    apply Rmult_lt_0_compat; [apply Rmult_lt_0_compat|]; assumption. }
  assert (Hf0 : 0 < factor_friccion r).
  { rewrite <- HRe in Hf. exact (friction_factor_pos _ _ _ _ HRe0 Hf). }
  assert (HhL0 : 0 < perdida_carga r).
  { rewrite HhL. unfold G.
    assert (0 < get_default (longitud tb) 10.0 / diametro_final tb)
      by (apply Rdiv_lt_0_compat; assumption).
    assert (0 < ft_velocidad fl * ft_velocidad fl) by nra.
    apply Rdiv_lt_0_compat; [|lra].
    apply Rmult_lt_0_compat; [apply Rmult_lt_0_compat|]; assumption. }
  repeat split; try assumption.
  rewrite HP. rewrite <- HhL.
  replace (ft_densidad fl * G
           * (presion fl / (ft_densidad fl * G)
              + ft_velocidad fl * ft_velocidad fl / (2 * G) + altura fl
              - perdida_carga r - ft_velocidad fl * ft_velocidad fl / (2 * G)
              - altura_final tb))
    with (presion fl
          - ft_densidad fl * G * (altura_final tb - altura fl + perdida_carga r))
    by (unfold G; field; lra).
  assert (0 < ft_densidad fl * G) by (unfold G; nra).
  assert (0 < altura_final tb - altura fl + perdida_carga r) by lra.
  assert (0 < ft_densidad fl * G
              * (altura_final tb - altura fl + perdida_carga r))
    by (apply Rmult_lt_0_compat; assumption).
  lra.
Qed.

Lemma X14_section_pressure_drops_witness :
  exists r,
    calcular_estado_final_tuberia_con_perdida
      {| presion := 200000; ft_velocidad := 0.01; ft_densidad := 1000;
         altura := 0; ft_viscosidad := Some 0.001 |}
      {| diametro_inicial := 0.1; diametro_final := 0.1; longitud := Some 50;
         altura_final := 1; tt_rugosidad := Some 0.0002 |} = Some r /\
    presion_final r < 200000.
Proof.
  destruct tramo_lento_returns as [r E]. exists r. split; [exact E|].
  refine (proj1 (X14_section_pressure_drops _ _ r _ _ _ _ _ _ _ E));
    cbn [diametro_inicial diametro_final ft_velocidad ft_densidad ft_viscosidad
         longitud altura altura_final get_default]; lra.
Defined.

(** X15: the section calculation raises (ZeroDivisionError) whenever the
    velocity, the density, a diameter or the viscosity is zero: each of
    them makes an area ratio or the Reynolds number undefined, or makes
    the Reynolds number zero, and [64 / Re] then divides by zero. *)
Theorem X15_section_zero_parameter (fl : fluido_tramo) (tb : tuberia_tramo) :
  ft_velocidad fl = 0 \/ ft_densidad fl = 0 \/
  diametro_inicial tb = 0 \/ diametro_final tb = 0 \/
  get_default (ft_viscosidad fl) 0.001 = 0 ->
  calcular_estado_final_tuberia_con_perdida fl tb = None.
Proof.
  intros H.
  destruct (calcular_estado_final_tuberia_con_perdida fl tb) as [r|] eqn:E;
    [|reflexivity].
  exfalso.
  destruct (calcular_estado_inv fl tb r E)
    as (HD2 & Hmu & Hrho & Hf & _).
  cbv zeta in *.
  destruct H as [Hv|[Hr|[HD1|[HD|Hm]]]]; try contradiction.
  - rewrite Hv in Hf.
    replace (ft_densidad fl * (0 * _) * diametro_final tb
             / get_default (ft_viscosidad fl) 0.001) with 0 in Hf
      by (field; split; [exact HD2 | split; [apply PI_neq0 | exact Hmu]]).
    unfold friction_factor in Hf. rewrite Rltb_true in Hf by lra.
    apply div_some in Hf. destruct Hf as [Hf _]. apply Hf. reflexivity.
  - rewrite HD1 in Hf.
    replace (ft_densidad fl * (ft_velocidad fl * (PI * (0 * 0) / 4 / _))
             * diametro_final tb / get_default (ft_viscosidad fl) 0.001)
      with 0 in Hf
      by (field; split; [exact HD2 | split; [apply PI_neq0 | exact Hmu]]).
    unfold friction_factor in Hf. rewrite Rltb_true in Hf by lra.
    apply div_some in Hf. destruct Hf as [Hf _]. apply Hf. reflexivity.
Qed.

Lemma X15_section_zero_parameter_witness :
  let fl := {| presion := 200000; ft_velocidad := 0; ft_densidad := 1000;
               altura := 0; ft_viscosidad := None |} in
  let tb := {| diametro_inicial := 0.1; diametro_final := 0.1; longitud := None;
               altura_final := 1; tt_rugosidad := None |} in
  ft_velocidad fl = 0 /\
  calcular_estado_final_tuberia_con_perdida fl tb = None.
Proof.
  cbv zeta. split; [reflexivity|].
  apply X15_section_zero_parameter. left. reflexivity.
Defined.

(** * Failures shared by the three generators *)

Lemma factor_de_friccion_zero fl tb :
  densidad fl = 0 \/ velocidad fl = 0 \/ diametro tb = 0 \/ viscosidad fl = 0 ->
  factor_de_friccion fl tb = None.
Proof.
  intros H. unfold factor_de_friccion.
  destruct (Py.div (densidad fl * velocidad fl * diametro tb) (viscosidad fl))
    as [Re|] eqn:E; [|reflexivity].
  rewrite bind_some. apply div_some in E. destruct E as [Hmu ->].
  assert (HRe : densidad fl * velocidad fl * diametro tb / viscosidad fl = 0).
  { destruct H as [H|[H|[H|H]]]; [| | |contradiction];
      rewrite H; field; exact Hmu. }
  rewrite HRe. unfold friction_factor. rewrite Rltb_true by lra.
  apply div_none. reflexivity.
Qed.

(** X16: a fluid at rest, a zero density, a zero diameter or a zero
    viscosity makes each of the three generators raise
    (ZeroDivisionError): the Reynolds number is undefined or zero, and a
    zero Reynolds number takes the laminar branch [64 / Re]. *)
Theorem X16_generators_zero_parameter
  (P : terrain) (fl : fluido) (tb : tuberia)
  (presion_inicial_m presion_final_m altura_seguridad head_bomba : R)
  (bombas : list bomba) (num_puntos_extra : option nat) :
  densidad fl = 0 \/ velocidad fl = 0 \/ diametro tb = 0 \/ viscosidad fl = 0 ->
  generar_perfil_presion P fl tb presion_final_m bombas = None /\
  generar_perfil_presion_con_bomba_desconocida P fl tb presion_inicial_m
    presion_final_m bombas = None /\
  generar_perfil_con_bombas_automaticas P fl tb presion_inicial_m
    altura_seguridad head_bomba num_puntos_extra = None.
Proof.
  intros H. pose proof (factor_de_friccion_zero fl tb H) as Hf.
  unfold generar_perfil_presion, generar_perfil_presion_con_bomba_desconocida,
    generar_perfil_con_bombas_automaticas.
  rewrite Hf. cbn [Py.bind]. repeat split.
  destruct (match num_puntos_extra with
            | Some k => interpolar_perfil P k
            | None => (col_x P, col_z P)
            end) as [x z]. reflexivity.
Qed.

Lemma X16_generators_zero_parameter_witness :
  let fl := {| densidad := 1000; viscosidad := 0.001; velocidad := 0 |} in
  (densidad fl = 0 \/ velocidad fl = 0 \/ diametro tubo = 0 \/ viscosidad fl = 0) /\
  generar_perfil_presion terreno_llano fl tubo 15 [] = None.
Proof.
  cbv zeta.
  assert (H : densidad {| densidad := 1000; viscosidad := 0.001; velocidad := 0 |} = 0 \/
              velocidad {| densidad := 1000; viscosidad := 0.001; velocidad := 0 |} = 0 \/
              diametro tubo = 0 \/
              viscosidad {| densidad := 1000; viscosidad := 0.001; velocidad := 0 |} = 0)
    by (right; left; reflexivity).
  split; [exact H|].
  exact (proj1 (X16_generators_zero_parameter terreno_llano _ tubo 0 15 0 0 []
                  None H)).
Defined.

(** * The order in which pumps are listed *)

Lemma insert_bomba_sorted b l :
  StronglySorted (fun a c => b_x a < b_x c) l ->
  ~ In (b_x b) (map b_x l) ->
  StronglySorted (fun a c => b_x a < b_x c) (insert_bomba b l).
Proof.
  induction 1 as [|c l Hs IH Hc]; intros Hnin; cbn [insert_bomba].
  - repeat constructor.
  - cbn [map In] in Hnin.
    destruct (Rltb_spec (b_x c) (b_x b)) as [Hlt|Hge].
    + constructor; [apply IH; tauto|].
      eapply Permutation_Forall; [symmetry; apply insert_bomba_perm|].
      constructor; assumption.
    + assert (Hbc : b_x b < b_x c).
      { destruct (Req_dec_T (b_x c) (b_x b)) as [E|E]; [|lra].
        exfalso. apply Hnin. left. exact E. }
      constructor; [constructor; assumption|].
      constructor; [exact Hbc|].
      eapply Forall_impl; [|exact Hc]. cbv beta. intros d Hd. lra.
Qed.

Lemma sorted_bombas_sorted l :
  NoDup (map b_x l) ->
  StronglySorted (fun a c => b_x a < b_x c) (sorted_bombas l).
Proof.
  induction l as [|b l IH]; intros Hnd; cbn; [constructor|].
  change (fold_right insert_bomba [] l) with (sorted_bombas l).
  cbn [map] in Hnd. apply NoDup_cons_iff in Hnd. destruct Hnd as [Hnin Hnd].
  apply insert_bomba_sorted; [apply IH; exact Hnd|].
  intros Hin. apply Hnin.
  eapply Permutation_in; [apply Permutation_map, sorted_bombas_perm | exact Hin].
Qed.

(** Two lists strictly sorted by position that hold the same pumps are
    the same list. *)
Lemma sorted_perm_unique (l1 : list bomba) :
  forall l2,
    StronglySorted (fun a c => b_x a < b_x c) l1 ->
    StronglySorted (fun a c => b_x a < b_x c) l2 ->
    Permutation l1 l2 -> l1 = l2.
Proof.
  induction l1 as [|a t1 IH]; intros l2 H1 H2 Hp.
  - apply Permutation_nil in Hp. congruence.
  - destruct l2 as [|b t2];
      [apply Permutation_sym, Permutation_nil in Hp; discriminate|].
    apply StronglySorted_inv in H1. destruct H1 as [H1 Ha].
    apply StronglySorted_inv in H2. destruct H2 as [H2 Hb].
    assert (Hab : a = b).
    { assert (Hin_a : In a (b :: t2))
        by (eapply Permutation_in; [exact Hp | left; reflexivity]).
      assert (Hin_b : In b (a :: t1))
        by (eapply Permutation_in; [symmetry; exact Hp | left; reflexivity]).
      destruct Hin_a as [E|Hin_a]; [congruence|].
      destruct Hin_b as [E|Hin_b]; [congruence|].
      rewrite Forall_forall in Ha, Hb.
      specialize (Ha b Hin_b). specialize (Hb a Hin_a). lra. }
    subst b. f_equal. apply IH; [assumption | assumption|].
    eapply Permutation_cons_inv. exact Hp.
Qed.

(** X17: when no two pumps share a position, the result of the backward
    generator does not depend on the order in which the pumps are listed:
    any rearrangement of the list gives the same profile (or the same
    failure). *)
Theorem X17_backward_pump_order_irrelevant
  (P : terrain) (fl : fluido) (tb : tuberia) (presion_final_m : R)
  (bombas bombas' : list bomba) :
  NoDup (map b_x bombas) -> Permutation bombas bombas' ->
  generar_perfil_presion P fl tb presion_final_m bombas
  = generar_perfil_presion P fl tb presion_final_m bombas'.
Proof.
  intros Hnd Hp.
  assert (Hnd' : NoDup (map b_x bombas'))
    by (eapply Permutation_NoDup; [apply Permutation_map; exact Hp | exact Hnd]).
  assert (E : sorted_bombas bombas = sorted_bombas bombas').
  { apply sorted_perm_unique; try (apply sorted_bombas_sorted; assumption).
    rewrite sorted_bombas_perm, Hp. symmetry. apply sorted_bombas_perm. }
  unfold generar_perfil_presion. rewrite E. reflexivity.
Qed.

Lemma X17_backward_pump_order_irrelevant_witness :
  let b1 := {| b_x := 20; b_head := Some 5 |} in
  let b2 := {| b_x := 60; b_head := Some 7 |} in
  NoDup (map b_x [b2; b1]) /\ Permutation [b2; b1] [b1; b2] /\
  generar_perfil_presion terreno_llano fluido_laminar tubo 15 [b2; b1]
  = generar_perfil_presion terreno_llano fluido_laminar tubo 15 [b1; b2].
Proof.
  cbv zeta.
  assert (Hnd : NoDup (map b_x [{| b_x := 60; b_head := Some 7 |};
                                {| b_x := 20; b_head := Some 5 |}])).
  { cbn [map b_x]. constructor; [|constructor; [|constructor]].
    - intros [E|[]]. lra.
    - intros []. }
  assert (Hp : Permutation [{| b_x := 60; b_head := Some 7 |};
                            {| b_x := 20; b_head := Some 5 |}]
                           [{| b_x := 20; b_head := Some 5 |};
                            {| b_x := 60; b_head := Some 7 |}])
    by apply perm_swap.
  split; [exact Hnd|]. split; [exact Hp|].
  exact (X17_backward_pump_order_irrelevant terreno_llano fluido_laminar tubo 15
           _ _ Hnd Hp).
Defined.

(** * Forward and backward integration agree *)

Lemma caidas_cons f D v xa xb x za zb z h :
  caidas f D v (xa :: xb :: x) (za :: zb :: z) h
  = (h - perdida f D v (xb - xa) (zb - za))
    :: caidas f D v (xb :: x) (zb :: z) (h - perdida f D v (xb - xa) (zb - za)).
Proof. reflexivity. Qed.

(** A walk that records no pump returns the terrain positions after the
    first and the plain friction profile. *)
Lemma recorrido_sin_bombas f D v m head_bomba x :
  forall z h xs hs,
    length x = length z ->
    recorrido f D v m head_bomba x z h = (xs, hs, []) ->
    xs = tl x /\ hs = caidas f D v x z h.
Proof.
  induction x as [|xa x IH]; intros z h xs hs Hlen E.
  - cbn in E. injection E as <- <-. split; reflexivity.
  - destruct z as [|za z]; [discriminate|].
    destruct x as [|xb x].
    + cbn in E. injection E as <- <-. split; reflexivity.
    + destruct z as [|zb z]; [discriminate|].
      rewrite recorrido_cons in E. cbv zeta in E. rewrite caidas_cons.
      destruct (Py.Rleb _ m).
      * destruct (recorrido f D v m head_bomba (xb :: x) (zb :: z) _)
          as [[xs' hs'] bs']. discriminate.
      * destruct (recorrido f D v m head_bomba (xb :: x) (zb :: z) _)
          as [[xs' hs'] bs'] eqn:E'.
        injection E as <- <- ->.
        assert (Hlen' : length (xb :: x) = length (zb :: z))
          by (cbn in Hlen |- *; lia).
        destruct (IH _ _ _ _ Hlen' E') as [-> ->].
        split; reflexivity.
Qed.

(** One more point at the far end of the reversed terrain adds one more
    accumulated head. *)
Lemma acumular_reversa_snoc f D v l :
  forall zl h b zb a za,
    length l = length zl ->
    acumular_reversa f D v (l ++ [b; a]) (zl ++ [zb; za]) h
    = acumular_reversa f D v (l ++ [b]) (zl ++ [zb]) h
      ++ [Py.last_ (h :: acumular_reversa f D v (l ++ [b]) (zl ++ [zb]) h)
          + perdida f D v (b - a) (zb - za)].
Proof.
  induction l as [|c l IH]; intros zl h b zb a za Hlen.
  - destruct zl; [|discriminate]. reflexivity.
  - destruct zl as [|zc zl]; [discriminate|].
    destruct l as [|d l]; destruct zl as [|zd zl]; try discriminate.
    + reflexivity.
    + cbn [app]. rewrite !acumular_reversa_cons.
      specialize (IH (zd :: zl) (h + perdida f D v (c - d) (zc - zd)) b zb a za
                    ltac:(cbn in Hlen |- *; lia)).
      cbn [app] in IH. rewrite IH. reflexivity.
Qed.

Lemma perfil_sin_bombas_cons f D v xa xb x za zb z pf :
  length x = length z ->
  let resto := snd (perfil_sin_bombas f D v (xb :: x) (zb :: z) pf) in
  snd (perfil_sin_bombas f D v (xa :: xb :: x) (za :: zb :: z) pf)
  = (Py.first_ resto + perdida f D v (xb - xa) (zb - za)) :: resto.
Proof.
  intros Hlen. cbv zeta. unfold perfil_sin_bombas. cbn [snd].
  rewrite !first_rev.
  change (Py.last_ (za :: zb :: z)) with (Py.last_ (zb :: z)).
  set (hL := pf + Py.last_ (zb :: z)).
  cbn [rev]. rewrite <- !app_assoc. cbn [app].
  rewrite acumular_reversa_snoc by (rewrite !length_rev; exact Hlen).
  set (A := acumular_reversa f D v (rev x ++ [xb]) (rev z ++ [zb]) hL).
  change (hL :: A ++ [Py.last_ (hL :: A) + perdida f D v (xb - xa) (zb - za)])
    with ((hL :: A) ++ [Py.last_ (hL :: A) + perdida f D v (xb - xa) (zb - za)]).
  rewrite rev_app_distr. cbn [rev app].
  rewrite <- (first_rev (hL :: A)). reflexivity.
Qed.

(** Integrating backwards from the head a forward walk ends on gives the
    forward walk back. *)
Lemma perfil_sin_bombas_caidas f D v x :
  forall z h pf,
    length x = length z -> x <> [] ->
    pf + Py.last_ z = h - perdida_total f D v x z ->
    snd (perfil_sin_bombas f D v x z pf) = h :: caidas f D v x z h.
Proof.
  induction x as [|xa x IH]; intros z h pf Hlen Hne Hpf; [congruence|].
  destruct z as [|za z]; [discriminate|].
  destruct x as [|xb x].
  - destruct z; [|discriminate].
    unfold perfil_sin_bombas. cbn in *. f_equal. lra.
  - destruct z as [|zb z]; [discriminate|].
    rewrite perfil_sin_bombas_cons by (cbn in Hlen; lia). cbv zeta.
    rewrite perdida_total_cons in Hpf.
    change (Py.last_ (za :: zb :: z)) with (Py.last_ (zb :: z)) in Hpf.
    rewrite (IH (zb :: z) (h - perdida f D v (xb - xa) (zb - za)) pf)
      by (try discriminate; try (cbn in Hlen |- *; lia); lra).
    rewrite caidas_cons. cbn [Py.first_ hd]. f_equal. ring.
Qed.

Lemma shift_zero delta (l : list R) : delta = 0 -> shift delta l = l.
Proof.
  intros ->. unfold shift. rewrite <- (map_id l) at 2.
  apply map_ext. intros h. ring.
Qed.

Lemma first_cons_tl (l : list R) : l <> [] -> Py.first_ l :: tl l = l.
Proof. destruct l; [congruence | reflexivity]. Qed.

(** X18: forward and backward integration agree.  When the forward
    generator, run on the terrain as given, records no pump, the backward
    generator without pumps, started from the pressure the forward run
    ends on, returns the same profile: the forward result less its
    duplicated first sample. *)
Theorem X18_forward_backward_round_trip
  (P : terrain) (fl : fluido) (tb : tuberia)
  (presion_inicial_m altura_seguridad head_bomba : R)
  (x_final h_final : list R) :
  P <> [] ->
  generar_perfil_con_bombas_automaticas P fl tb presion_inicial_m
    altura_seguridad head_bomba None = Some (x_final, h_final, []) ->
  generar_perfil_presion P fl tb
    (Py.last_ h_final - Py.last_ (col_z P)) []
  = Some (tl x_final, tl h_final).
Proof.
  intros HP E.
  destruct (factor_de_friccion fl tb) as [f|] eqn:Hf.
  2: { unfold generar_perfil_con_bombas_automaticas in E.
       rewrite Hf in E. discriminate. }
  rewrite (automaticas_unfold P fl tb presion_inicial_m altura_seguridad
             head_bomba None f Hf) in E.
  cbv zeta in E. cbn [columnas fst snd] in E.
  assert (Hlen : length (col_x P) = length (col_z P))
    by (unfold col_x, col_z; rewrite !length_map; reflexivity).
  assert (Hx : col_x P <> []) by (destruct P; [congruence | discriminate]).
  set (x := col_x P) in *. set (z := col_z P) in *.
  set (h0 := presion_inicial_m + Py.first_ z) in *.
  destruct (Py.Rleb (h0 - Py.first_ z) altura_seguridad).
  - destruct (recorrido f (diametro tb) (velocidad fl) altura_seguridad
                head_bomba x z (h0 + head_bomba)) as [[xs hs] bs].
    discriminate.
  - destruct (recorrido f (diametro tb) (velocidad fl) altura_seguridad
                head_bomba x z h0) as [[xs hs] bs] eqn:ER.
    injection E as <- <- Hbs. cbn [app] in Hbs. subst bs.
    destruct (recorrido_balance _ _ _ _ _ _ _ _ _ _ _ Hlen ER)
      as (_ & _ & _ & _ & Hlast).
    destruct (recorrido_sin_bombas _ _ _ _ _ _ _ _ _ _ Hlen ER) as [-> Hhs].
    cbn [length INR] in Hlast.
    cbn [app tl]. rewrite last_cons_cons, Hlast.
    unfold generar_perfil_presion. rewrite Hf, bind_some. cbv zeta.
    fold x z.
    set (pf := h0 - perdida_total f (diametro tb) (velocidad fl) x z
               + 0 * head_bomba - Py.last_ z).
    assert (Hsnd : snd (perfil_sin_bombas f (diametro tb) (velocidad fl) x z pf)
                   = h0 :: hs).
    { rewrite Hhs. apply perfil_sin_bombas_caidas; [exact Hlen | exact Hx|].
      unfold pf. ring. }
    assert (Hfst : fst (perfil_sin_bombas f (diametro tb) (velocidad fl) x z pf)
                   = x).
    { unfold perfil_sin_bombas. cbn [fst]. apply rev_involutive. }
    destruct (perfil_sin_bombas f (diametro tb) (velocidad fl) x z pf)
      as [x_list h_list].
    cbn [fst snd] in Hfst, Hsnd. subst x_list h_list.
    cbn [sorted_bombas fold_right insertar_bombas]. rewrite bind_some.
    rewrite shift_zero; [rewrite first_cons_tl by exact Hx; reflexivity|].
    rewrite Hlast. unfold pf. ring.
Qed.

(** The loss over the flat 100 m terrain for the sample flow. *)
Lemma perdida_terreno_llano :
  perdida (64 / 100) (diametro tubo) (velocidad fluido_laminar) (100 - 0) (0 - 0)
  = 64000 / 1962.
Proof.
  unfold perdida, G. cbn [diametro tubo velocidad fluido_laminar].
  replace ((100 - 0) * (100 - 0) + (0 - 0) * (0 - 0)) with (100 * 100) by ring.
  rewrite R_sqrt.sqrt_square by lra. lra.
Qed.

Lemma X18_forward_backward_round_trip_witness :
  exists x_final h_final,
    terreno_llano <> [] /\
    generar_perfil_con_bombas_automaticas terreno_llano fluido_laminar tubo
      100 5 30 None = Some (x_final, h_final, []) /\
    generar_perfil_presion terreno_llano fluido_laminar tubo
      (Py.last_ h_final - Py.last_ (col_z terreno_llano)) []
    = Some (tl x_final, tl h_final).
Proof.
  assert (HP : terreno_llano <> []) by discriminate.
  assert (E : generar_perfil_con_bombas_automaticas terreno_llano
                fluido_laminar tubo 100 5 30 None
              = Some ([0; 0; 100], [100 + 0; 100 + 0; 100 + 0 - 64000 / 1962], [])).
  { rewrite (automaticas_unfold _ _ _ _ _ _ None _ factor_laminar). cbv zeta.
    cbn [columnas fst snd terreno_llano col_x col_z map Py.first_ hd].
    rewrite (Rleb_false (100 + 0 - 0) 5) by lra.
    cbn [recorrido]. rewrite perdida_terreno_llano.
    rewrite (Rleb_false (100 + 0 - 64000 / 1962 - 0) 5) by lra.
    reflexivity. }
  eexists; eexists. split; [exact HP|]. split; [exact E|].
  exact (X18_forward_backward_round_trip terreno_llano fluido_laminar tubo
           100 5 30 _ _ HP E).
Defined.

(** * Extra points and the friction budget *)

(** The loss of a segment scales with the segment. *)
Lemma perdida_scale f D v dx dz c :
  0 < c -> c * perdida f D v (dx / c) (dz / c) = perdida f D v dx dz.
Proof.
  intros Hc. unfold perdida.
  replace (dx / c * (dx / c) + dz / c * (dz / c))
    with ((dx * dx + dz * dz) / (c * c)) by (field; lra).
  rewrite sqrt_div_alt by nra.
  rewrite R_sqrt.sqrt_square by lra.
  unfold Rdiv. set (iD := / D). set (g := / (2 * G)).
  field. lra.
Qed.

(** The loss of a route is the loss up to a point plus the loss from it. *)
Lemma perdida_total_app f D v pre :
  forall prez b zb rest restz,
    length pre = length prez ->
    perdida_total f D v (pre ++ b :: rest) (prez ++ zb :: restz)
    = perdida_total f D v (pre ++ [b]) (prez ++ [zb])
      + perdida_total f D v (b :: rest) (zb :: restz).
Proof.
  induction pre as [|p pre IH]; intros prez b zb rest restz Hlen.
  - destruct prez; [|discriminate]. cbn [app perdida_total]. ring.
  - destruct prez as [|pz prez]; [discriminate|].
    assert (Hlen' : length pre = length prez) by (cbn in Hlen; lia).
    specialize (IH prez b zb rest restz Hlen').
    destruct pre as [|q pre]; destruct prez as [|qz prez]; try discriminate.
    + cbn [app] in *. rewrite !perdida_total_cons.
      cbn [perdida_total]. ring.
    + cbn [app] in *. rewrite !perdida_total_cons. rewrite IH. ring.
Qed.

(** Evenly spaced samples: every step costs the same. *)
Lemma perdida_total_pasos f D v a za sx sz b zb n :
  forall s,
    b = INR (s + S n) * sx + a -> zb = INR (s + S n) * sz + za ->
    perdida_total f D v
      (map (fun i => INR i * sx + a) (seq s (S n)) ++ [b])
      (map (fun i => INR i * sz + za) (seq s (S n)) ++ [zb])
    = INR (S n) * perdida f D v sx sz.
Proof.
  induction n as [|n IH]; intros s Hb Hzb.
  - cbn [seq map app]. rewrite perdida_total_cons. cbn [perdida_total].
    replace (b - (INR s * sx + a)) with sx
      by (rewrite Hb, plus_INR; cbn [INR]; ring).
    replace (zb - (INR s * sz + za)) with sz
      by (rewrite Hzb, plus_INR; cbn [INR]; ring).
    cbn [INR]. ring.
  - change (seq s (S (S n))) with (s :: S s :: seq (S (S s)) n).
    cbn [map app]. rewrite perdida_total_cons.
    change (perdida_total f D v
              (INR (S s) * sx + a
               :: map (fun i => INR i * sx + a) (seq (S (S s)) n) ++ [b])
              (INR (S s) * sz + za
               :: map (fun i => INR i * sz + za) (seq (S (S s)) n) ++ [zb]))
      with (perdida_total f D v
              (map (fun i => INR i * sx + a) (seq (S s) (S n)) ++ [b])
              (map (fun i => INR i * sz + za) (seq (S s) (S n)) ++ [zb])).
    rewrite (IH (S s))
      by (first [rewrite Hb | rewrite Hzb]; f_equal; f_equal; f_equal; lia).
    replace (INR (S s) * sx + a - (INR s * sx + a)) with sx
      by (rewrite S_INR; ring).
    replace (INR (S s) * sz + za - (INR s * sz + za)) with sz
      by (rewrite S_INR; ring).
    rewrite (S_INR (S n)). ring.
Qed.

(** The samples of one densified segment cost what the segment costs. *)
Lemma perdida_total_linspace f D v a b za zb k :
  perdida_total f D v (linspace a b (k + 2)) (linspace za zb (k + 2))
  = perdida f D v (b - a) (zb - za).
Proof.
  replace (k + 2)%nat with (S (S k)) by lia. cbn [linspace].
  rewrite (perdida_total_pasos f D v a za _ _ b zb k 0).
  - apply perdida_scale. apply lt_0_INR. lia.
  - cbn [Nat.add]. field. apply INR_S_neq0.
  - cbn [Nat.add]. field. apply INR_S_neq0.
Qed.

(** Densifying a route leaves its friction loss as it was. *)
Lemma perdida_total_densify f D v k x :
  forall z a za,
    length x = length z ->
    perdida_total f D v (a :: densify 1 (a :: x) k) (za :: densify 1 (za :: z) k)
    = perdida_total f D v (a :: x) (za :: z).
Proof.
  induction x as [|b x IH]; intros z a za Hlen.
  - destruct z; [|discriminate]. reflexivity.
  - destruct z as [|zb z]; [discriminate|].
    rewrite !densify_1_cons, !app_comm_cons, <- !linspace_head.
    pose proof (perdida_total_linspace f D v a b za zb k) as H.
    replace (k + 2)%nat with (S (S k)) in * by lia. cbn [linspace] in *.
    rewrite <- !app_assoc. cbn [app].
    rewrite perdida_total_app by (rewrite !length_map; reflexivity).
    rewrite H, IH by (cbn in Hlen; lia).
    rewrite perdida_total_cons. reflexivity.
Qed.

(** The last head of a forward run, whatever the terrain columns used. *)
Lemma automaticas_last P fl tb presion_inicial_m m head_bomba npe f
  x_final h_final bombas :
  factor_de_friccion fl tb = Some f ->
  generar_perfil_con_bombas_automaticas P fl tb presion_inicial_m m head_bomba npe
    = Some (x_final, h_final, bombas) ->
  Py.last_ h_final
  = presion_inicial_m + Py.first_ (snd (columnas P npe))
    - perdida_total f (diametro tb) (velocidad fl)
        (fst (columnas P npe)) (snd (columnas P npe))
    + INR (length bombas) * head_bomba.
Proof.
  intros Hf.
  rewrite (automaticas_unfold P fl tb presion_inicial_m m head_bomba npe f Hf).
  cbv zeta.
  destruct (columnas_length P npe) as [Hlen _].
  set (x := fst (columnas P npe)) in *.
  set (z := snd (columnas P npe)) in *.
  set (h0 := presion_inicial_m + Py.first_ z).
  destruct (Py.Rleb (h0 - Py.first_ z) m).
  - destruct (recorrido f (diametro tb) (velocidad fl) m head_bomba
                x z (h0 + head_bomba)) as [[xs hs] bs] eqn:E.
    intros E'. injection E' as <- <- <-.
    destruct (recorrido_balance _ _ _ _ _ _ _ _ _ _ _ Hlen E) as (_ & _ & _ & _ & H).
    cbn [app]. rewrite last_cons_cons, H. cbn [length]. rewrite S_INR. ring.
  - destruct (recorrido f (diametro tb) (velocidad fl) m head_bomba
                x z h0) as [[xs hs] bs] eqn:E.
    intros E'. injection E' as <- <- <-.
    destruct (recorrido_balance _ _ _ _ _ _ _ _ _ _ _ Hlen E) as (_ & _ & _ & _ & H).
    cbn [app]. rewrite last_cons_cons, H. ring.
Qed.

(** Extra points change neither the first elevation nor the friction loss
    of the route. *)
Lemma columnas_budget P k f D v :
  (2 <= length P)%nat ->
  Py.first_ (snd (columnas P (Some k))) = Py.first_ (snd (columnas P None)) /\
  perdida_total f D v (fst (columnas P (Some k))) (snd (columnas P (Some k)))
  = perdida_total f D v (fst (columnas P None)) (snd (columnas P None)).
Proof.
  intros Hn. cbn [columnas fst snd]. unfold interpolar_perfil.
  assert (Hlen : length (col_x P) = length (col_z P))
    by (unfold col_x, col_z; rewrite !length_map; reflexivity).
  assert (Hx : (2 <= length (col_x P))%nat)
    by (unfold col_x; rewrite length_map; exact Hn).
  rewrite interpolar_loop_densify by exact Hlen. cbn [fst snd].
  split; [apply densify_0_first; lia|].
  destruct (col_x P) as [|a [|b x]]; try (cbn in Hx; lia).
  destruct (col_z P) as [|za [|zb z]]; try discriminate.
  rewrite !densify_0. apply perdida_total_densify. cbn in Hlen |- *. lia.
Qed.

(** X19: extra interpolation points keep the friction budget.  A forward
    run on the terrain as given and a forward run with [k] extra points per
    segment that record the same number of pumps end on the same head: the
    extra points can move the pumps, not change the loss of the route. *)
Theorem X19_extra_points_keep_final_head
  (P : terrain) (fl : fluido) (tb : tuberia)
  (presion_inicial_m altura_seguridad head_bomba : R) (k : nat)
  (x1 h1 x2 h2 : list R) (bombas1 bombas2 : list bomba) :
  (2 <= length P)%nat ->
  generar_perfil_con_bombas_automaticas P fl tb presion_inicial_m
    altura_seguridad head_bomba None = Some (x1, h1, bombas1) ->
  generar_perfil_con_bombas_automaticas P fl tb presion_inicial_m
    altura_seguridad head_bomba (Some k) = Some (x2, h2, bombas2) ->
  length bombas1 = length bombas2 ->
  Py.last_ h1 = Py.last_ h2.
Proof.
  intros Hn E1 E2 Hb.
  destruct (factor_de_friccion fl tb) as [f|] eqn:Hf.
  2: { unfold generar_perfil_con_bombas_automaticas in E1.
       rewrite Hf in E1. discriminate. }
  rewrite (automaticas_last _ _ _ _ _ _ _ _ _ _ _ Hf E1).
  rewrite (automaticas_last _ _ _ _ _ _ _ _ _ _ _ Hf E2).
  destruct (columnas_budget P k f (diametro tb) (velocidad fl) Hn) as [-> ->].
  rewrite Hb. reflexivity.
Qed.

(** The loss over half of the flat 100 m terrain for the sample flow. *)
Lemma perdida_medio dx dz :
  dx = 50 -> dz = 0 ->
  perdida (64 / 100) (diametro tubo) (velocidad fluido_laminar) dx dz
  = 32000 / 1962.
Proof.
  intros -> ->. unfold perdida, G. cbn [diametro tubo velocidad fluido_laminar].
  replace (50 * 50 + 0 * 0) with (50 * 50) by ring.
  rewrite R_sqrt.sqrt_square by lra. lra.
Qed.

(** With 100 m of pressure at the start the sample flow crosses the flat
    terrain without a pump, with or without a middle point. *)
Lemma forward_llano :
  exists x h,
    generar_perfil_con_bombas_automaticas terreno_llano fluido_laminar tubo
      100 5 30 None = Some (x, h, []).
Proof.
  rewrite (automaticas_unfold _ _ _ _ _ _ None _ factor_laminar). cbv zeta.
  cbn [columnas fst snd terreno_llano col_x col_z map Py.first_ hd].
  rewrite Rleb_false by lra.
  rewrite recorrido_cons. cbv zeta.
  rewrite perdida_terreno_llano.
  rewrite Rleb_false by lra.
  cbn [recorrido app]. do 2 eexists. reflexivity.
Qed.

Lemma forward_llano_medio :
  exists x h,
    generar_perfil_con_bombas_automaticas terreno_llano fluido_laminar tubo
      100 5 30 (Some 1%nat) = Some (x, h, []).
Proof.
  rewrite (automaticas_unfold _ _ _ _ _ _ (Some 1%nat) _ factor_laminar). cbv zeta.
  cbn [columnas]. unfold interpolar_perfil.
  cbn [terreno_llano col_x col_z map fst snd interpolar_loop Nat.ltb Nat.leb
       Nat.add linspace seq app INR Py.first_ hd].
  rewrite Rleb_false by lra.
  rewrite recorrido_cons. cbv zeta.
  rewrite perdida_medio by lra.
  rewrite Rleb_false by lra.
  rewrite recorrido_cons. cbv zeta.
  rewrite perdida_medio by lra.
  rewrite Rleb_false by lra.
  cbn [recorrido app]. do 2 eexists. reflexivity.
Qed.

Lemma X19_extra_points_keep_final_head_witness :
  exists x1 h1 x2 h2,
    (2 <= length terreno_llano)%nat /\
    generar_perfil_con_bombas_automaticas terreno_llano fluido_laminar tubo
      100 5 30 None = Some (x1, h1, []) /\
    generar_perfil_con_bombas_automaticas terreno_llano fluido_laminar tubo
      100 5 30 (Some 1%nat) = Some (x2, h2, []) /\
    length (@nil bomba) = length (@nil bomba) /\
    Py.last_ h1 = Py.last_ h2.
Proof.
  destruct forward_llano as (x1 & h1 & E1).
  destruct forward_llano_medio as (x2 & h2 & E2).
  assert (Hn : (2 <= length terreno_llano)%nat) by (cbn; lia).
  exists x1, h1, x2, h2.
  split; [exact Hn|]. split; [exact E1|]. split; [exact E2|].
  split; [reflexivity|].
  exact (X19_extra_points_keep_final_head terreno_llano fluido_laminar tubo
           100 5 30 1 x1 h1 x2 h2 [] [] Hn E1 E2 eq_refl).
Defined.

(** * A run without pumps stays above the safety margin *)

Lemma recorrido_seguro f D v m head_bomba x :
  forall z h xs hs,
    length x = length z ->
    recorrido f D v m head_bomba x z h = (xs, hs, []) ->
    forall i, (S i < length x)%nat -> m < nth i hs 0 - nth (S i) z 0.
Proof.
  induction x as [|xa x IH]; intros z h xs hs Hlen E i Hi; [cbn in Hi; lia|].
  destruct z as [|za z]; [discriminate|].
  destruct x as [|xb x]; [cbn in Hi; lia|].
  destruct z as [|zb z]; [discriminate|].
  rewrite recorrido_cons in E. cbv zeta in E.
  destruct (Rleb_spec (h - perdida f D v (xb - xa) (zb - za) - zb) m) as [Hm|Hm].
  - destruct (recorrido f D v m head_bomba (xb :: x) (zb :: z) _)
      as [[xs' hs'] bs']. discriminate.
  - destruct (recorrido f D v m head_bomba (xb :: x) (zb :: z) _)
      as [[xs' hs'] bs'] eqn:E'.
    injection E as <- <- ->.
    destruct i as [|i]; [cbn [nth]; lra|].
    cbn [nth].
    assert (Hlen' : length (xb :: x) = length (zb :: z))
      by (cbn in Hlen |- *; lia).
    apply (IH _ _ _ _ Hlen' E'). cbn in Hi |- *. lia.
Qed.

(** X20: a forward run that records no pump never comes within the safety
    margin.  The returned positions are the terrain positions with the
    first one doubled, and at every terrain point the head of the returned
    profile is more than [altura_seguridad] above the terrain. *)
Theorem X20_forward_no_pump_is_safe
  (P : terrain) (fl : fluido) (tb : tuberia)
  (presion_inicial_m altura_seguridad head_bomba : R)
  (num_puntos_extra : option nat) (x_final h_final : list R) :
  (2 <= length P)%nat ->
  generar_perfil_con_bombas_automaticas P fl tb presion_inicial_m
    altura_seguridad head_bomba num_puntos_extra
    = Some (x_final, h_final, []) ->
  let x := fst (columnas P num_puntos_extra) in
  let z := snd (columnas P num_puntos_extra) in
  x_final = Py.first_ x :: x /\
  length h_final = S (length x) /\
  forall i, (i < length x)%nat ->
    altura_seguridad < nth (S i) h_final 0 - nth i z 0.
Proof.
  intros Hn E. cbv zeta.
  destruct (factor_de_friccion fl tb) as [f|] eqn:Hf.
  2: { unfold generar_perfil_con_bombas_automaticas in E.
       rewrite Hf in E.
       destruct num_puntos_extra as [k|];
         [destruct (interpolar_perfil P k)|]; discriminate. }
  rewrite (automaticas_unfold P fl tb presion_inicial_m altura_seguridad
             head_bomba num_puntos_extra f Hf) in E.
  cbv zeta in E.
  destruct (columnas_length P num_puntos_extra) as [Hlen H2].
  specialize (H2 Hn).
  set (x := fst (columnas P num_puntos_extra)) in *.
  set (z := snd (columnas P num_puntos_extra)) in *.
  set (h0 := presion_inicial_m + Py.first_ z) in *.
  destruct (Rleb_spec (h0 - Py.first_ z) altura_seguridad) as [Hm|Hm].
  - destruct (recorrido f (diametro tb) (velocidad fl) altura_seguridad
                head_bomba x z (h0 + head_bomba)) as [[xs hs] bs].
    discriminate.
  - destruct (recorrido f (diametro tb) (velocidad fl) altura_seguridad
                head_bomba x z h0) as [[xs hs] bs] eqn:ER.
    injection E as <- <- Hbs. cbn [app] in Hbs. subst bs.
    destruct (recorrido_balance _ _ _ _ _ _ _ _ _ _ _ Hlen ER)
      as (Hxh & Hxs & _).
    destruct (recorrido_sin_bombas _ _ _ _ _ _ _ _ _ _ Hlen ER) as [Hx _].
    cbn [length] in Hxs. cbn [app].
    split; [|split].
    + rewrite Hx. f_equal. apply first_cons_tl.
      intros E0. rewrite E0 in H2. cbn in H2. lia.
    + cbn [length]. rewrite <- Hxh, Hxs. lia.
    + intros i Hi. destruct i as [|i].
      * cbn [nth]. rewrite <- first_as_nth. lra.
      * cbn [nth]. apply (recorrido_seguro _ _ _ _ _ _ _ _ _ _ Hlen ER). lia.
Qed.

Lemma X20_forward_no_pump_is_safe_witness :
  exists x_final h_final,
    (2 <= length terreno_llano)%nat /\
    generar_perfil_con_bombas_automaticas terreno_llano fluido_laminar tubo
      100 5 30 (Some 1%nat) = Some (x_final, h_final, []) /\
    x_final = Py.first_ (fst (columnas terreno_llano (Some 1%nat)))
              :: fst (columnas terreno_llano (Some 1%nat)) /\
    length h_final = S (length (fst (columnas terreno_llano (Some 1%nat)))) /\
    forall i, (i < length (fst (columnas terreno_llano (Some 1%nat))))%nat ->
      5 < nth (S i) h_final 0
          - nth i (snd (columnas terreno_llano (Some 1%nat))) 0.
Proof.
  destruct forward_llano_medio as (x & h & E).
  assert (Hn : (2 <= length terreno_llano)%nat) by (cbn; lia).
  exists x, h. split; [exact Hn|]. split; [exact E|].
  exact (X20_forward_no_pump_is_safe terreno_llano fluido_laminar tubo
           100 5 30 (Some 1%nat) x h Hn E).
Defined.

(** * Sign of the friction factor *)

(** X21: for a positive Reynolds number the friction factor is strictly
    positive whenever it is computed, in the laminar branch and in
    whatever iterate the Colebrook loop stops on; the segment losses built
    from it are therefore never negative for a positive diameter. *)
Theorem X21_friction_factor_positive (Re D epsilon f : R) :
  0 < Re ->
  friction_factor Re D epsilon = Some f ->
  0 < f /\
  forall v dx dz, 0 < D -> 0 <= perdida f D v dx dz.
Proof.
  intros HRe E.
  pose proof (friction_factor_pos Re D epsilon f HRe E) as Hf.
  split; [exact Hf|].
  intros v dx dz HD. apply perdida_nonneg; lra.
Qed.

Lemma X21_friction_factor_positive_witness :
  0 < 100 /\ friction_factor 100 0.1 0.0002 = Some (64 / 100) /\
  0 < 64 / 100 /\
  forall v dx dz, 0 < 0.1 -> 0 <= perdida (64 / 100) 0.1 v dx dz.
Proof.
  assert (HRe : 0 < 100) by lra.
  assert (E : friction_factor 100 0.1 0.0002 = Some (64 / 100)).
  { unfold friction_factor, Py.div.
    rewrite Rltb_true by lra. rewrite Reqb_false by lra. reflexivity. }
  split; [exact HRe|]. split; [exact E|].
  exact (X21_friction_factor_positive 100 0.1 0.0002 (64 / 100) HRe E).
Defined.

(** * The forward generator on doubles: what is decided *)

Import PrimFloat.

Lemma SFleb_trans (a b c : SpecFloat.spec_float) :
  SpecFloat.SFleb a b = true -> SpecFloat.SFleb b c = true ->
  SpecFloat.SFleb a c = true.
Proof.
  unfold SpecFloat.SFleb, SpecFloat.SFcompare.
  destruct a as [sa|sa| |sa ma ea], b as [sb|sb| |sb mb eb], c as [sc|sc| |sc mc ec];
    try (destruct sa); try (destruct sb); try (destruct sc);
    try discriminate; try reflexivity; intros H1 H2.
  all: change (Pos.compare_cont Eq ?x ?y) with (Pos.compare x y) in *.
  all: destruct (Z.compare_spec ea eb), (Z.compare_spec eb ec), (Z.compare_spec ea ec);
       try discriminate; try reflexivity; try lia; subst.
  all: destruct (Pos.compare_spec ma mb), (Pos.compare_spec mb mc), (Pos.compare_spec ma mc);
       cbn in *; try discriminate; try reflexivity; try lia.
Qed.

(** [<=] on doubles is transitive, NaN included (a comparison with NaN
    is false). *)
Lemma leb_trans (a b c : float) :
  (a <=? b)%float = true -> (b <=? c)%float = true -> (a <=? c)%float = true.
Proof.
  rewrite !FloatAxioms.leb_spec. apply SFleb_trans.
Qed.

Lemma F64_bind_inv {A B : Type} (o : option A) (k : A -> option B) (b : B) :
  Py.bind o k = Some b -> exists a, o = Some a /\ k a = Some b.
Proof. destruct o as [a|]; [intros H; exists a; split; [reflexivity | exact H] | discriminate]. Qed.

Lemma F64_recorrido_cons L numpy f D v m head xa xb x za zb z h :
  Float64.recorrido L numpy f D v m head (xa :: xb :: x) (za :: zb :: z) h
  = (hf <- Float64.perdida L numpy f D v (xb - xa) (zb - za) ;;
     let h_nueva := (h - hf)%float in
     if (h_nueva - zb <=? m)%float then
       r <- Float64.recorrido L numpy f D v m head (xb :: x) (zb :: z)
              (h_nueva + head)%float ;;
       let '(xs, hs, bs) := r in
       Some (xb :: xb :: xs, h_nueva :: (h_nueva + head)%float :: hs,
             {| Float64.b_x := xb; Float64.b_head := Some head |} :: bs)
     else
       r <- Float64.recorrido L numpy f D v m head (xb :: x) (zb :: z) h_nueva ;;
       let '(xs, hs, bs) := r in
       Some (xb :: xs, h_nueva :: hs, bs)).
Proof. reflexivity. Qed.

(** What a completed walk appends. *)
Lemma F64_recorrido_shape L numpy f D v m head x :
  forall z h xs hs bs,
    length x = length z ->
    Float64.recorrido L numpy f D v m head x z h = Some (xs, hs, bs) ->
    length xs = length hs /\
    length xs = (length x - 1 + length bs)%nat /\
    (length bs <= length x - 1)%nat /\
    Forall (fun b => Float64.b_head b = Some head /\ In (Float64.b_x b) (tl x)) bs.
Proof.
  induction x as [|xa x IH]; intros z h xs hs bs Hlen E.
  - cbn in E. injection E as <- <- <-. cbn. repeat split; try lia. constructor.
  - destruct z as [|za z]; [discriminate|].
    destruct x as [|xb x].
    + cbn in E. injection E as <- <- <-. cbn. repeat split; try lia. constructor.
    + destruct z as [|zb z]; [discriminate|].
      assert (Hlen' : length (xb :: x) = length (zb :: z))
        by (cbn in Hlen |- *; lia).
      rewrite F64_recorrido_cons in E.
      apply F64_bind_inv in E as (hf & _ & E). cbv zeta in E.
      destruct (_ <=? m)%float.
      * apply F64_bind_inv in E as ([[xs' hs'] bs'] & E' & E).
        injection E as <- <- <-.
        destruct (IH _ _ _ _ _ Hlen' E') as (H1 & H2 & H3 & H4).
        cbn [length tl] in *. repeat split; try lia.
        constructor; [cbn; split; [reflexivity | left; reflexivity]|].
        eapply Forall_impl; [|exact H4]. cbv beta.
        intros b [Hb Hin]. split; [exact Hb|].
        destruct x; [destruct Hin | right; exact Hin].
      * apply F64_bind_inv in E as ([[xs' hs'] bs'] & E' & E).
        injection E as <- <- <-.
        destruct (IH _ _ _ _ _ Hlen' E') as (H1 & H2 & H3 & H4).
        cbn [length tl] in *. repeat split; try lia.
        eapply Forall_impl; [|exact H4]. cbv beta.
        intros b [Hb Hin]. split; [exact Hb|].
        destruct x; [destruct Hin | right; exact Hin].
Qed.

(** What a returned run was computed from. *)
Lemma F64_generar_inv L P fl tb p m head npe x_final h_final bombas :
  Float64.generar_perfil_con_bombas_automaticas L P fl tb p m head npe
    = Some (x_final, h_final, bombas) ->
  exists f x0 z0 xs hs bs,
    Float64.factor_de_friccion L fl tb = Some f /\
    hd_error (fst (Float64.columnas P npe)) = Some x0 /\
    hd_error (snd (Float64.columnas P npe)) = Some z0 /\
    let h0 := (p + z0)%float in
    let inicio := (h0 - z0 <=? m)%float in
    let h1 := if inicio then (h0 + head)%float else h0 in
    Float64.recorrido L (match npe with Some _ => true | None => false end)
      f (Float64.diametro tb) (Float64.velocidad fl) m head
      (fst (Float64.columnas P npe)) (snd (Float64.columnas P npe)) h1
      = Some (xs, hs, bs) /\
    x_final = x0 :: x0 :: xs /\
    h_final = h0 :: h1 :: hs /\
    bombas = (if inicio
              then [{| Float64.b_x := x0; Float64.b_head := Some head |}]
              else []) ++ bs.
Proof.
  unfold Float64.generar_perfil_con_bombas_automaticas. cbv zeta. intros E.
  apply F64_bind_inv in E as (f & Hf & E).
  apply F64_bind_inv in E as (z0 & Hz & E).
  apply F64_bind_inv in E as (x0 & Hx & E).
  apply F64_bind_inv in E as ([[xs hs] bs] & Hr & E).
  injection E as <- <- <-.
  exists f, x0, z0, xs, hs, bs. cbv zeta. repeat split; assumption.
Qed.

Lemma F64_linspace_length a b n : length (Float64.linspace a b n) = n.
Proof.
  destruct n as [|[|d]]; cbn [Float64.linspace]; try reflexivity.
  destruct (_ =? 0)%float;
    rewrite length_app, !length_map, length_seq; cbn; lia.
Qed.

Lemma F64_interpolar_loop_length k x :
  forall i z,
    length x = length z ->
    length (fst (Float64.interpolar_loop i x z k))
    = length (snd (Float64.interpolar_loop i x z k)).
Proof.
  induction x as [|a x IH]; intros i z Hlen; [reflexivity|].
  destruct z as [|za z]; [discriminate|].
  destruct x as [|b x]; [reflexivity|].
  destruct z as [|zb z]; [discriminate|].
  assert (Hlen' : length (b :: x) = length (zb :: z)) by (cbn in Hlen |- *; lia).
  specialize (IH (S i) (zb :: z) Hlen').
  change (Float64.interpolar_loop i (a :: b :: x) (za :: zb :: z) k)
    with (let xs := Float64.linspace a b (k + 2) in
          let zs := Float64.linspace za zb (k + 2) in
          let xs := if (0 <? i)%nat then tl xs else xs in
          let zs := if (0 <? i)%nat then tl zs else zs in
          let '(x_interp, z_interp) :=
            Float64.interpolar_loop (S i) (b :: x) (zb :: z) k in
          (xs ++ x_interp, zs ++ z_interp)).
  cbv zeta.
  destruct (Float64.interpolar_loop (S i) (b :: x) (zb :: z) k) as [xi zi].
  cbn [fst snd] in *. rewrite !length_app, IH. f_equal.
  pose proof (F64_linspace_length a b (k + 2)) as Ha.
  pose proof (F64_linspace_length za zb (k + 2)) as Hz.
  destruct (0 <? i)%nat; [|congruence].
  destruct (Float64.linspace a b (k + 2)), (Float64.linspace za zb (k + 2));
    cbn in *; lia.
Qed.

Lemma F64_columnas_length P npe :
  length (fst (Float64.columnas P npe)) = length (snd (Float64.columnas P npe)).
Proof.
  destruct npe as [k|]; cbn [Float64.columnas fst snd].
  - apply F64_interpolar_loop_length.
    unfold Float64.col_x, Float64.col_z. rewrite !length_map. reflexivity.
  - unfold Float64.col_x, Float64.col_z. rewrite !length_map. reflexivity.
Qed.


(** ** The first sample of [np.linspace] *)

Lemma F64_no_nan (a : float) :
  is_nan a = false -> FloatOps.Prim2SF a <> SpecFloat.S754_nan.
Proof.
  unfold is_nan. rewrite FloatAxioms.eqb_spec. intros H E. rewrite E in H.
  discriminate.
Qed.

Lemma F64_no_inf (a : float) s :
  is_infinity a = false -> FloatOps.Prim2SF a <> SpecFloat.S754_infinity s.
Proof.
  unfold is_infinity.
  rewrite FloatAxioms.eqb_spec, FloatAxioms.abs_spec. intros H E.
  rewrite E in H. vm_compute in H. discriminate.
Qed.

Lemma F64_eqb_cero (a : float) : (a =? 0)%float = true -> Float64.es_cero a.
Proof.
  rewrite FloatAxioms.eqb_spec.
  change (FloatOps.Prim2SF 0) with (SpecFloat.S754_zero false).
  unfold Float64.es_cero.
  destruct (FloatOps.Prim2SF a) as [s|s| |s m e]; try discriminate.
  - intros _. exists s. reflexivity.
  - destruct s; discriminate.
  - destruct s; discriminate.
Qed.

Lemma F64_eqb_no_cero (a : float) : (a =? 0)%float = false -> ~ Float64.es_cero a.
Proof.
  rewrite FloatAxioms.eqb_spec.
  change (FloatOps.Prim2SF 0) with (SpecFloat.S754_zero false).
  intros H [s E]. rewrite E in H. discriminate.
Qed.

(** Adding a zero gives a number that compares equal. *)
Lemma F64_suma_cero (w a : float) :
  Float64.es_cero w -> is_nan a = false -> (w + a =? a)%float = true.
Proof.
  intros [s Hw] Ha. apply F64_no_nan in Ha.
  rewrite FloatAxioms.eqb_spec, FloatAxioms.add_spec, Hw.
  unfold FloatAxioms.SF64add, SpecFloat.SFadd, SpecFloat.SFeqb, SpecFloat.SFcompare.
  destruct (FloatOps.Prim2SF a) as [sa|sa| |sa ma ea]; try contradiction.
  - destruct s, sa; reflexivity.
  - destruct sa; reflexivity.
  - rewrite Z.compare_refl.
    change (Pos.compare_cont Eq ma ma) with (Pos.compare ma ma).
    rewrite Pos.compare_refl. destruct sa; reflexivity.
Qed.

Lemma F64_cero_por (w y : float) :
  Float64.es_cero w -> is_nan y = false -> is_infinity y = false ->
  Float64.es_cero (w * y).
Proof.
  intros [s Hw] Hn Hi. unfold Float64.es_cero.
  rewrite FloatAxioms.mul_spec, Hw.
  pose proof (F64_no_nan y Hn) as Hn'.
  unfold FloatAxioms.SF64mul, SpecFloat.SFmul.
  destruct (FloatOps.Prim2SF y) as [sy|sy| |sy my ey] eqn:E; try contradiction.
  - eexists. reflexivity.
  - exfalso. exact (F64_no_inf y sy Hi E).
  - eexists. reflexivity.
Qed.

Lemma F64_cero_entre (w v : float) :
  Float64.es_cero w -> (0 <? v)%float = true -> Float64.es_cero (w / v).
Proof.
  intros [s Hw] Hv. unfold Float64.es_cero.
  rewrite FloatAxioms.div_spec, Hw.
  rewrite FloatAxioms.ltb_spec in Hv.
  change (FloatOps.Prim2SF 0) with (SpecFloat.S754_zero false) in Hv.
  unfold FloatAxioms.SF64div, SpecFloat.SFdiv.
  destruct (FloatOps.Prim2SF v) as [sv|sv| |sv mv ev]; try discriminate;
    eexists; reflexivity.
Qed.

(** A quotient by a positive number that is zero comes from a dividend
    that is neither infinite nor NaN. *)
Lemma F64_cociente_cero (d v : float) :
  (0 <? v)%float = true -> Float64.es_cero (d / v) ->
  is_nan d = false /\ is_infinity d = false.
Proof.
  intros Hv [s Hz].
  rewrite FloatAxioms.div_spec in Hz.
  rewrite FloatAxioms.ltb_spec in Hv.
  change (FloatOps.Prim2SF 0) with (SpecFloat.S754_zero false) in Hv.
  unfold is_nan, is_infinity.
  rewrite !FloatAxioms.eqb_spec, FloatAxioms.abs_spec.
  change (FloatOps.Prim2SF infinity) with (SpecFloat.S754_infinity false).
  unfold FloatAxioms.SF64div, SpecFloat.SFdiv in Hz.
  destruct (FloatOps.Prim2SF d) as [sd|sd| |sd md ed],
           (FloatOps.Prim2SF v) as [sv|sv| |sv mv ev];
    try discriminate; cbn [SpecFloat.SFabs];
    unfold SpecFloat.SFeqb, SpecFloat.SFcompare.
  all: try (destruct sd; split; reflexivity).
  all: try (split; [|reflexivity]).
  all: rewrite ?Z.compare_refl;
       change (Pos.compare_cont Eq md md) with (Pos.compare md md);
       rewrite ?Pos.compare_refl; destruct sd; reflexivity.
Qed.

(** When the divisor [num - 1] is positive (it is for every count that can
    be computed) and the step is finite, the first sample of [np.linspace]
    compares equal to [start]. *)
Lemma F64_linspace_primera (start stop : float) (k : nat) :
  (0 <? Float64.of_nat (S k))%float = true ->
  is_finite ((stop - start) / Float64.of_nat (S k)) = true ->
  is_nan start = false ->
  exists y,
    hd_error (Float64.linspace start stop (k + 2)) = Some y /\
    (y =? start)%float = true.
Proof.
  intros Hdiv Hfin Hstart.
  replace (k + 2)%nat with (S (S k)) by lia.
  unfold Float64.linspace.
  set (delta := (stop - start)%float) in *.
  set (div := Float64.of_nat (S k)) in *.
  change (seq 0 (S k)) with (0%nat :: seq 1 k). cbn [map app hd_error].
  assert (H0 : Float64.es_cero (Float64.of_nat 0)) by (exists false; reflexivity).
  unfold is_finite in Hfin. apply negb_true_iff, orb_false_iff in Hfin.
  destruct Hfin as [Hn Hi].
  destruct (delta / div =? 0)%float eqn:Hs; cbn [map app hd_error].
  - eexists. split; [reflexivity|].
    apply F64_suma_cero; [|exact Hstart].
    destruct (F64_cociente_cero delta div Hdiv (F64_eqb_cero _ Hs)) as [Hdn Hdi].
    apply F64_cero_por; [|exact Hdn | exact Hdi].
    apply F64_cero_entre; assumption.
  - eexists. split; [reflexivity|].
    apply F64_suma_cero; [|exact Hstart].
    apply F64_cero_por; assumption.
Qed.
(** The first samples of the columns walked: the first terrain row, or
    the first samples [np.linspace] gives on the first segment. *)
Lemma F64_columnas_primera P npe x0 z0 :
  hd_error (fst (Float64.columnas P npe)) = Some x0 ->
  hd_error (snd (Float64.columnas P npe)) = Some z0 ->
  match npe with
  | None => hd_error P = Some (x0, z0)
  | Some k =>
      exists xa za xb zb P',
        P = (xa, za) :: (xb, zb) :: P' /\
        hd_error (Float64.linspace xa xb (k + 2)) = Some x0 /\
        hd_error (Float64.linspace za zb (k + 2)) = Some z0
  end.
Proof.
  destruct npe as [k|]; cbn [Float64.columnas fst snd].
  - unfold Float64.interpolar_perfil.
    destruct P as [|[xa za] [|[xb zb] P']]; try discriminate.
    cbn [Float64.col_x Float64.col_z map fst snd].
    change (Float64.interpolar_loop 0 (xa :: xb :: map fst P')
              (za :: zb :: map snd P') k)
      with (let '(x_interp, z_interp) :=
              Float64.interpolar_loop 1 (xb :: map fst P') (zb :: map snd P') k in
            (Float64.linspace xa xb (k + 2) ++ x_interp,
             Float64.linspace za zb (k + 2) ++ z_interp)).
    destruct (Float64.interpolar_loop 1 _ _ k) as [xi zi]. cbn [fst snd].
    pose proof (F64_linspace_length xa xb (k + 2)) as Ha.
    pose proof (F64_linspace_length za zb (k + 2)) as Hz.
    intros Hx Hz0. exists xa, za, xb, zb, P'. split; [reflexivity|].
    destruct (Float64.linspace xa xb (k + 2)) as [|a la]; [cbn in Ha; lia|].
    destruct (Float64.linspace za zb (k + 2)) as [|b lb]; [cbn in Hz; lia|].
    cbn [app hd_error] in *. split; assumption.
  - unfold Float64.col_x, Float64.col_z.
    destruct P as [|[a b] P]; [discriminate|].
    cbn. congruence.
Qed.

(** C10: on doubles, every profile the forward generator returns begins
    with two samples at the first distance of the columns it walks, with
    head [presion_inicial_m + z0] first; the second head is the same when
    the start test [(h0 - z0) <= altura_seguridad], evaluated in double
    arithmetic as the code evaluates it, fails, and [h0 + head_bomba],
    with a pump recorded at that distance, when it holds.  The first
    samples of the columns are the first terrain row when no extra points
    are asked for, and those [np.linspace] computes on the first segment
    otherwise, which compare equal to the first terrain row as long as
    the steps are finite. *)
Theorem C10_forward_profile_start
  (L : Float64.libm) (P : Float64.terrain) (fl : Float64.fluido)
  (tb : Float64.tuberia) (presion_inicial_m altura_seguridad head_bomba : float)
  (num_puntos_extra : option nat)
  (x_final h_final : list float) (bombas : list Float64.bomba) :
  Float64.generar_perfil_con_bombas_automaticas L P fl tb presion_inicial_m
    altura_seguridad head_bomba num_puntos_extra
    = Some (x_final, h_final, bombas) ->
  exists x0 z0,
    let h0 := (presion_inicial_m + z0)%float in
    (nth_error x_final 0 = Some x0 /\ nth_error x_final 1 = Some x0 /\
     nth_error h_final 0 = Some h0 /\
     if (h0 - z0 <=? altura_seguridad)%float
     then nth_error h_final 1 = Some (h0 + head_bomba)%float /\
          hd_error bombas
          = Some {| Float64.b_x := x0; Float64.b_head := Some head_bomba |}
     else nth_error h_final 1 = Some h0) /\
    match num_puntos_extra with
    | None => hd_error P = Some (x0, z0)
    | Some k =>
        exists xa za xb zb P',
          P = (xa, za) :: (xb, zb) :: P' /\
          hd_error (Float64.linspace xa xb (k + 2)) = Some x0 /\
          hd_error (Float64.linspace za zb (k + 2)) = Some z0 /\
          ((0 <? Float64.of_nat (S k))%float = true ->
           (is_finite ((xb - xa) / Float64.of_nat (S k)) = true ->
            is_nan xa = false -> (x0 =? xa)%float = true) /\
           (is_finite ((zb - za) / Float64.of_nat (S k)) = true ->
            is_nan za = false -> (z0 =? za)%float = true))
    end.
Proof.
  intros E.
  apply F64_generar_inv in E
    as (f & x0 & z0 & xs & hs & bs & _ & Hx & Hz & _ & -> & -> & ->).
  exists x0, z0. cbv zeta. split.
  - cbn [nth_error]. repeat (split; [reflexivity|]).
    destruct (_ <=? altura_seguridad)%float; [split|]; reflexivity.
  - pose proof (F64_columnas_primera P num_puntos_extra x0 z0 Hx Hz) as Hp.
    destruct num_puntos_extra as [k|]; [|exact Hp].
    destruct Hp as (xa & za & xb & zb & P' & -> & Hxa & Hza).
    exists xa, za, xb, zb, P'.
    split; [reflexivity|]. split; [exact Hxa|]. split; [exact Hza|].
    intros Hdiv. split; intros Hfin Hnan.
    + destruct (F64_linspace_primera xa xb k Hdiv Hfin Hnan) as (y & Hy & Ey).
      rewrite Hxa in Hy. injection Hy as <-. exact Ey.
    + destruct (F64_linspace_primera za zb k Hdiv Hfin Hnan) as (y & Hy & Ey).
      rewrite Hza in Hy. injection Hy as <-. exact Ey.
Qed.

(** X8: shape of the forward result on doubles.  Positions and heads are
    parallel lists; they hold one sample per point of the columns walked,
    one more for the duplicated start, and one more per pump inserted
    after the start (a start pump reuses the duplicated start sample).
    Every recorded pump has head [head_bomba] and sits on a position of
    the columns, and there is at most one pump per point. *)
Theorem X8_forward_result_shape
  (L : Float64.libm) (P : Float64.terrain) (fl : Float64.fluido)
  (tb : Float64.tuberia) (presion_inicial_m altura_seguridad head_bomba : float)
  (num_puntos_extra : option nat)
  (x_final h_final : list float) (bombas : list Float64.bomba) :
  Float64.generar_perfil_con_bombas_automaticas L P fl tb presion_inicial_m
    altura_seguridad head_bomba num_puntos_extra
    = Some (x_final, h_final, bombas) ->
  let x := fst (Float64.columnas P num_puntos_extra) in
  let z := snd (Float64.columnas P num_puntos_extra) in
  exists z0,
    hd_error z = Some z0 /\
    let inicio :=
      if (presion_inicial_m + z0 - z0 <=? altura_seguridad)%float
      then 1%nat else 0%nat in
    length x_final = length h_final /\
    (length x_final + inicio = length x + 1 + length bombas)%nat /\
    (length bombas <= length x)%nat /\
    Forall (fun b => Float64.b_head b = Some head_bomba /\ In (Float64.b_x b) x)
      bombas.
Proof.
  intros E. cbv zeta.
  apply F64_generar_inv in E
    as (f & x0 & z0 & xs & hs & bs & _ & Hx & Hz & Hr & -> & -> & ->).
  cbv zeta in Hr.
  pose proof (F64_columnas_length P num_puntos_extra) as Hlen.
  destruct (F64_recorrido_shape _ _ _ _ _ _ _ _ _ _ _ _ _ Hlen Hr)
    as (H1 & H2 & H3 & H4).
  exists z0. split; [exact Hz|].
  set (x := fst (Float64.columnas P num_puntos_extra)) in *.
  assert (Hx0 : In x0 x /\ (1 <= length x)%nat).
  { destruct x as [|a x']; [discriminate|]. injection Hx as ->.
    split; [left; reflexivity | cbn; lia]. }
  destruct Hx0 as [Hin Hpos].
  assert (Htl : forall b, In b (tl x) -> In b x)
    by (intros b Hb; destruct x; [destruct Hb | right; exact Hb]).
  destruct (_ <=? altura_seguridad)%float; cbn [length app]; repeat split; try lia.
  - constructor; [cbn; split; [reflexivity | exact Hin]|].
    eapply Forall_impl; [|exact H4]. cbv beta. intros b [Hb Hi]. auto.
  - eapply Forall_impl; [|exact H4]. cbv beta. intros b [Hb Hi]. auto.
Qed.

(** Whether a walk completes depends on the segments alone, not on the
    margin or on the running head. *)
Lemma F64_recorrido_returns L numpy f D v head x :
  forall z m1 m2 h1 h2 r1,
    Float64.recorrido L numpy f D v m1 head x z h1 = Some r1 ->
    exists r2, Float64.recorrido L numpy f D v m2 head x z h2 = Some r2.
Proof.
  induction x as [|xa x IH]; intros z m1 m2 h1 h2 r1 E.
  - eexists. reflexivity.
  - destruct x as [|xb x]; [eexists; reflexivity|].
    destruct z as [|za [|zb z]]; try (eexists; reflexivity).
    rewrite F64_recorrido_cons in E |- *.
    apply F64_bind_inv in E as (hf & -> & E). rewrite bind_some.
    cbv zeta in E |- *.
    assert (Hr : forall h, exists r,
               Float64.recorrido L numpy f D v m2 head (xb :: x) (zb :: z) h
               = Some r).
    { intros h. destruct (_ <=? m1)%float;
        apply F64_bind_inv in E as (r & E' & _); exact (IH _ _ _ _ _ _ E'). }
    destruct (_ <=? m2)%float.
    + destruct (Hr (h2 - hf + head)%float) as [[[xs hs] bs] ->].
      rewrite bind_some. eexists. reflexivity.
    + destruct (Hr (h2 - hf)%float) as [[[xs hs] bs] ->].
      rewrite bind_some. eexists. reflexivity.
Qed.

(** A walk that needs no pump with the larger margin is the walk with
    the smaller margin. *)
Lemma F64_recorrido_sin_bombas L numpy f D v m1 m2 head x :
  forall z h xs hs,
    (m1 <=? m2)%float = true ->
    Float64.recorrido L numpy f D v m2 head x z h = Some (xs, hs, []) ->
    Float64.recorrido L numpy f D v m1 head x z h = Some (xs, hs, []).
Proof.
  induction x as [|xa x IH]; intros z h xs hs Hm E; [exact E|].
  destruct x as [|xb x]; [exact E|].
  destruct z as [|za [|zb z]]; try exact E.
  rewrite F64_recorrido_cons in E |- *.
  apply F64_bind_inv in E as (hf & -> & E). rewrite bind_some.
  cbv zeta in E |- *.
  destruct (h - hf - zb <=? m2)%float eqn:T2.
  - apply F64_bind_inv in E as ([[xs' hs'] bs'] & _ & E). discriminate.
  - destruct (h - hf - zb <=? m1)%float eqn:T1.
    + rewrite (leb_trans _ _ _ T1 Hm) in T2. discriminate.
    + apply F64_bind_inv in E as ([[xs' hs'] bs'] & E' & E).
      injection E as <- <- ->.
      rewrite (IH _ _ _ _ Hm E'). reflexivity.
Qed.

(** C7, amended.  On doubles, for two margins [m1 <= m2] and the same
    other inputs: when the forward generator returns with [m1] it returns
    with [m2]; when it inserts no pump with [m2], its run with [m1] is the
    same run, without pumps; hence when it inserts a pump with [m1] it
    inserts at least one with [m2]. *)
Theorem C7_pump_count_monotone
  (L : Float64.libm) (P : Float64.terrain) (fl : Float64.fluido)
  (tb : Float64.tuberia) (presion_inicial_m m1 m2 head_bomba : float)
  (num_puntos_extra : option nat)
  (x1 h1 : list float) (bombas1 : list Float64.bomba) :
  (m1 <=? m2)%float = true ->
  Float64.generar_perfil_con_bombas_automaticas L P fl tb presion_inicial_m
    m1 head_bomba num_puntos_extra = Some (x1, h1, bombas1) ->
  exists x2 h2 bombas2,
    Float64.generar_perfil_con_bombas_automaticas L P fl tb presion_inicial_m
      m2 head_bomba num_puntos_extra = Some (x2, h2, bombas2) /\
    (bombas2 = [] -> x2 = x1 /\ h2 = h1 /\ bombas1 = []) /\
    (bombas1 <> [] -> bombas2 <> []).
Proof.
  intros Hm E1.
  apply F64_generar_inv in E1
    as (f & x0 & z0 & xs & hs & bs & Hf & Hx & Hz & Hr & -> & -> & ->).
  cbv zeta in Hr.
  set (h0 := (presion_inicial_m + z0)%float) in *.
  destruct (F64_recorrido_returns L _ f _ _ head_bomba _ _ m1 m2 _
              (if (h0 - z0 <=? m2)%float then (h0 + head_bomba)%float else h0)
              _ Hr) as [[[xs2 hs2] bs2] Hr2].
  assert (E2 : Float64.generar_perfil_con_bombas_automaticas L P fl tb
                 presion_inicial_m m2 head_bomba num_puntos_extra
               = Some (x0 :: x0 :: xs2,
                       h0 :: (if (h0 - z0 <=? m2)%float
                              then (h0 + head_bomba)%float else h0) :: hs2,
                       (if (h0 - z0 <=? m2)%float
                        then [{| Float64.b_x := x0;
                                 Float64.b_head := Some head_bomba |}]
                        else []) ++ bs2)).
  { unfold Float64.generar_perfil_con_bombas_automaticas. cbv zeta.
    rewrite Hf, bind_some, Hz, bind_some, Hx, bind_some.
    fold h0. rewrite Hr2, bind_some. reflexivity. }
  assert (Hnil : (if (h0 - z0 <=? m2)%float
                  then [{| Float64.b_x := x0; Float64.b_head := Some head_bomba |}]
                  else []) ++ bs2 = [] ->
                 x0 :: x0 :: xs2
                 = x0 :: x0 :: xs /\
                 h0 :: (if (h0 - z0 <=? m2)%float
                        then (h0 + head_bomba)%float else h0) :: hs2
                 = h0 :: (if (h0 - z0 <=? m1)%float
                          then (h0 + head_bomba)%float else h0) :: hs /\
                 (if (h0 - z0 <=? m1)%float
                  then [{| Float64.b_x := x0; Float64.b_head := Some head_bomba |}]
                  else []) ++ bs = []).
  { intros Hb.
    destruct (h0 - z0 <=? m2)%float eqn:T2; [discriminate|].
    cbn [app] in Hb. subst bs2.
    destruct (h0 - z0 <=? m1)%float eqn:T1.
    - rewrite (leb_trans _ _ _ T1 Hm) in T2. discriminate.
    - pose proof (F64_recorrido_sin_bombas _ _ _ _ _ _ _ _ _ _ _ _ _ Hm Hr2) as Hr1.
      rewrite Hr in Hr1. injection Hr1 as -> -> ->.
      repeat split; reflexivity. }
  do 3 eexists. split; [exact E2|]. split; [exact Hnil|].
  intros Hb1 Hb2. destruct (Hnil Hb2) as (_ & _ & Hb). contradiction.
Qed.

(** ** Runs on doubles *)

(** A run whose start pressure equals the margin, [0.1], over a terrain
    at elevation [0.2]: [(0.1 + 0.2) - 0.2] is [0.10000000000000003] on
    doubles, the start test fails and no pump is put at the start. *)
Lemma F64_inicio_sin_bomba (L : Float64.libm) :
  Float64.generar_perfil_con_bombas_automaticas L [(0, 0.2); (1, 0.2)]%float
    Float64.fluido_laminar Float64.tubo 0.1 0.1 30 None
  = Some ([0; 0; 1; 1]%float,
          [0.30000000000000004; 0.30000000000000004;
           -0.026197757390417908; 29.973802242609583]%float,
          [{| Float64.b_x := 1; Float64.b_head := Some 30%float |}]).
Proof. vm_compute. reflexivity. Qed.

Lemma C10_forward_profile_start_witness :
  (forall L,
     Float64.generar_perfil_con_bombas_automaticas L [(0, 0.2); (1, 0.2)]%float
       Float64.fluido_laminar Float64.tubo 0.1 0.1 30 None
     = Some ([0; 0; 1; 1]%float,
             [0.30000000000000004; 0.30000000000000004;
              -0.026197757390417908; 29.973802242609583]%float,
             [{| Float64.b_x := 1; Float64.b_head := Some 30%float |}])) /\
  (forall L : Float64.libm,
     exists x0 z0, hd_error [(0, 0.2); (1, 0.2)]%float = Some (x0, z0)).
Proof.
  split; [exact F64_inicio_sin_bomba|].
  intros L.
  destruct (C10_forward_profile_start L _ _ _ _ _ _ _ _ _ _
              (F64_inicio_sin_bomba L)) as (x0 & z0 & _ & Hp).
  exists x0, z0. exact Hp.
Defined.

Lemma X8_forward_result_shape_witness :
  (forall L,
     Float64.generar_perfil_con_bombas_automaticas L [(0, 0.2); (1, 0.2)]%float
       Float64.fluido_laminar Float64.tubo 0.1 0.1 30 None
     = Some ([0; 0; 1; 1]%float,
             [0.30000000000000004; 0.30000000000000004;
              -0.026197757390417908; 29.973802242609583]%float,
             [{| Float64.b_x := 1; Float64.b_head := Some 30%float |}])) /\
  (forall L : Float64.libm,
     exists z0,
       hd_error (snd (Float64.columnas [(0, 0.2); (1, 0.2)]%float None))
       = Some z0).
Proof.
  split; [exact F64_inicio_sin_bomba|].
  intros L.
  destruct (X8_forward_result_shape L _ _ _ _ _ _ _ _ _ _
              (F64_inicio_sin_bomba L)) as (z0 & Hz & _).
  exists z0. exact Hz.
Defined.

(** The two runs of the counterexample: a flat terrain of three points
    one metre apart, start pressure [2.7] and pumps of head
    [0.6523955147808358], which is twice the loss of a segment up to
    rounding. *)
Lemma F64_margen_menor (L : Float64.libm) :
  Float64.generar_perfil_con_bombas_automaticas L [(0, 1); (1, 1); (2, 1)]%float
    Float64.fluido_laminar Float64.tubo 2.7 2.6999999999999997
    0.6523955147808358 None
  = Some ([0; 0; 1; 1; 2; 2]%float,
          [3.7000000000000002; 3.7000000000000002; 3.3738022426095822;
           4.0261977573904177; 3.6999999999999997; 4.3523955147808353]%float,
          [{| Float64.b_x := 1;
              Float64.b_head := Some 0.6523955147808358%float |};
           {| Float64.b_x := 2;
              Float64.b_head := Some 0.6523955147808358%float |}]).
Proof. vm_compute. reflexivity. Qed.

Lemma F64_margen_mayor (L : Float64.libm) :
  Float64.generar_perfil_con_bombas_automaticas L [(0, 1); (1, 1); (2, 1)]%float
    Float64.fluido_laminar Float64.tubo 2.7 2.7 0.6523955147808358 None
  = Some ([0; 0; 1; 2]%float,
          [3.7000000000000002; 4.3523955147808362; 4.0261977573904186;
           3.7000000000000006]%float,
          [{| Float64.b_x := 0;
              Float64.b_head := Some 0.6523955147808358%float |}]).
Proof. vm_compute. reflexivity. Qed.

(** C7, as stated, fails on doubles.  With the margin
    [2.6999999999999997] the run above inserts two pumps, at 1 and at 2;
    with the larger margin [2.7] it inserts one, at the start: the head
    [(h0 + head) - hf - hf] of the second run ends one step of rounding
    above the margin that [(h0 - hf + head) - hf] of the first run ends
    on. *)
Lemma C7_pump_count_drops :
  (2.6999999999999997 <=? 2.7)%float = true /\
  (forall L,
     option_map Float64.num_bombas
       (Float64.generar_perfil_con_bombas_automaticas L
          [(0, 1); (1, 1); (2, 1)]%float Float64.fluido_laminar Float64.tubo
          2.7 2.6999999999999997 0.6523955147808358 None)
     = Some 2%nat) /\
  (forall L,
     option_map Float64.num_bombas
       (Float64.generar_perfil_con_bombas_automaticas L
          [(0, 1); (1, 1); (2, 1)]%float Float64.fluido_laminar Float64.tubo
          2.7 2.7 0.6523955147808358 None)
     = Some 1%nat).
Proof.
  split; [vm_compute; reflexivity|].
  split; intros L; [rewrite F64_margen_menor | rewrite F64_margen_mayor];
    reflexivity.
Qed.

Lemma C7_pump_count_monotone_witness :
  (2.6999999999999997 <=? 2.7)%float = true /\
  (forall L,
     Float64.generar_perfil_con_bombas_automaticas L
       [(0, 1); (1, 1); (2, 1)]%float Float64.fluido_laminar Float64.tubo
       2.7 2.6999999999999997 0.6523955147808358 None
     = Some ([0; 0; 1; 1; 2; 2]%float,
             [3.7000000000000002; 3.7000000000000002; 3.3738022426095822;
              4.0261977573904177; 3.6999999999999997;
              4.3523955147808353]%float,
             [{| Float64.b_x := 1;
                 Float64.b_head := Some 0.6523955147808358%float |};
              {| Float64.b_x := 2;
                 Float64.b_head := Some 0.6523955147808358%float |}])) /\
  (forall L,
     exists x2 h2 bombas2,
       Float64.generar_perfil_con_bombas_automaticas L
         [(0, 1); (1, 1); (2, 1)]%float Float64.fluido_laminar Float64.tubo
         2.7 2.7 0.6523955147808358 None = Some (x2, h2, bombas2) /\
       bombas2 <> []).
Proof.
  assert (Hm : (2.6999999999999997 <=? 2.7)%float = true)
    by (vm_compute; reflexivity).
  split; [exact Hm|]. split; [exact F64_margen_menor|].
  intros L.
  destruct (C7_pump_count_monotone L _ _ _ _ 2.6999999999999997 2.7 _ _ _ _ _ Hm
              (F64_margen_menor L)) as (x2 & h2 & b2 & E & _ & Hb).
  exists x2, h2, b2. split; [exact E|]. apply Hb. discriminate.
Defined.
